(** * alice-lg sources: the openbgpd (bgplgd) and gobgp adapters

    A shallow embedding of [pkg/sources/openbgpd/bgplgd_source.go] and
    [pkg/sources/gobgp/source.go].  Go methods become functions in a small
    state-and-error monad: the state holds the source struct (with its
    caches) and the outside world (clock reads and the log of backend
    calls); a result is a value, a returned [error], or a panic. *)

From Stdlib Require Import ZArith Ascii.
From stdpp Require Import gmap strings list fin_maps.

Open Scope Z_scope.

(** ** Go runtime: machine integers, time, slices *)

(** Go's [int] on a 64-bit platform: two's complement wrap-around. *)
Definition wrap64 (x : Z) : Z := (x + 2^63) mod 2^64 - 2^63.

Definition int_add (a b : Z) : Z := wrap64 (a + b).
Definition int_sub (a b : Z) : Z := wrap64 (a - b).

(** The conversion [int(x)] of an unsigned 64-bit value. *)
Definition int_of_uint64 (x : Z) : Z := wrap64 x.

(** [time.Time] as nanoseconds since the epoch, [time.Duration] as a
    signed 64-bit count of nanoseconds. *)
Definition Time := Z.
Definition Duration := Z.

Definition minDuration : Duration := - 2^63.
Definition maxDuration : Duration := 2^63 - 1.

(** [t.Sub(u)]: the difference, saturated to the range of [Duration]. *)
Definition time_Sub (t u : Time) : Duration :=
  Z.max minDuration (Z.min maxDuration (t - u)).

(** [t.Add(d)]. *)
Definition time_Add (t : Time) (d : Duration) : Time := t + d.

(** The seconds from year 1, where Go's [Time] counts from, to the Unix
    epoch. *)
Definition unixToInternal : Z := 62135596800.

(** [time.Unix(sec, nsec)], for an [int64] [sec] and [nsec]: nanoseconds
    outside [0, 1e9) are carried into the seconds, and the seconds are
    stored as the [int64] count since year 1, [sec + unixToInternal],
    which wraps around for [sec] near the end of the range. *)
Definition time_Unix (sec nsec : Z) : Time :=
  let '(sec, nsec) :=
    if (nsec <? 0) || (1000000000 <=? nsec)
    then
      let n := Z.quot nsec 1000000000 in
      let sec := wrap64 (sec + n) in
      let nsec := nsec - n * 1000000000 in
      if nsec <? 0 then (wrap64 (sec - 1), nsec + 1000000000) else (sec, nsec)
    else (sec, nsec) in
  (wrap64 (sec + unixToInternal) - unixToInternal) * 1000000000 + nsec.

(** A Go slice value: [nil], or a (possibly empty) allocated sequence.
    [len] is 0 for both; they differ when compared with [nil] and when
    serialized ([null] against [[]]). *)
Inductive slice (A : Type) : Type :=
| nil_slice
| make_slice (l : list A).
Arguments nil_slice {A}.
Arguments make_slice {A} l.

Definition elems {A} (s : slice A) : list A :=
  match s with nil_slice => [] | make_slice l => l end.

Definition len {A} (s : slice A) : Z := Z.of_nat (length (elems s)).

(** [append(s, x)] always yields an allocated slice. *)
Definition append {A} (s : slice A) (x : A) : slice A :=
  make_slice (elems s ++ [x]).

(** ** Package api: the response types used by the two sources *)

Module api.

(** Modelled from the spec: package [api] is not among the sources.  Its
    records have the fields the two sources assign and read, under the
    names the sources use.  [Meta] is the metadata of the envelope. *)
Record Meta := {
  CachedAt : Time;
  Version : string;
  ResultFromCache : bool;
  TTL : Time
}.

(** Modelled from the spec: a large community, three 32-bit values. *)
Definition LargeCommunity : Type := Z * Z * Z.

(** Modelled from the spec: a route; the sources pass routes on, the
    classification reads the large communities. *)
Record Route := {
  ID : string;
  NeighborID : string;
  Network : string;
  Gateway : string;
  LargeCommunities : list LargeCommunity
}.

(** Modelled from the spec: [api.Routes], a slice of routes. *)
Definition Routes := slice Route.

(** Modelled from the spec: a neighbor, with the fields the sources
    assign; the counters are Go [int]s. *)
Record Neighbor := {
  nID : string;
  Address : string;
  ASN : Z;
  State : string;
  Description : string;
  RouteServerID : string;
  RoutesReceived : Z;
  RoutesFiltered : Z;
  RoutesExported : Z;
  RoutesAccepted : Z;
  Uptime : Duration
}.

(** Modelled from the spec: the status of a neighbor. *)
Record NeighborStatus := {
  sID : string;
  sState : string;
  Since : Duration
}.

(** Modelled from the spec: the status of the route server. *)
Record Status := {
  RouterID : string;
  sVersion : string;
  Backend : string;
  Message : string
}.

(** Modelled from the spec: the four responses.  Every response embeds
    [api.Response], whose [Meta] is a pointer: [None] is the nil
    pointer.  The slices of neighbors are kept as lists: nothing below tells
    a nil slice of neighbors from an empty one. *)
Record StatusResponse := {
  st_Meta : option Meta;
  st_Status : Status
}.

Record NeighborsResponse := {
  nr_Meta : option Meta;
  Neighbors : list Neighbor
}.

Record NeighborsStatusResponse := {
  ns_Meta : option Meta;
  ns_Neighbors : list NeighborStatus
}.

Record RoutesResponse := {
  rr_Meta : option Meta;
  Imported : Routes;
  Filtered : Routes;
  NotExported : Routes
}.

(** Modelled from the spec: the response of a prefix lookup. *)
Record RoutesLookupResponse := {
  lr_Meta : option Meta;
  lr_Routes : list Route
}.

(** The assignment [meta.ResultFromCache = b]. *)
Definition set_ResultFromCache (b : bool) (m : Meta) : Meta :=
  {| CachedAt := CachedAt m; Version := Version m;
     ResultFromCache := b; TTL := TTL m |}.

End api.

(** ** Package sources: the calls of the [Source] interface

    Both adapters implement the same method set; a call names one of the
    data-returning methods, a response is what it returns. *)

Module sources.

Inductive Call :=
| Status
| Neighbors
| NeighborsSummary
| NeighborsStatus
| Routes (neighborID : string)
| RoutesReceived (neighborID : string)
| RoutesFiltered (neighborID : string)
| RoutesNotExported (neighborID : string)
| AllRoutes.

Inductive Response :=
| OfStatus (r : api.StatusResponse)
| OfNeighbors (r : api.NeighborsResponse)
| OfNeighborsStatus (r : api.NeighborsStatusResponse)
| OfRoutes (r : api.RoutesResponse).

Definition meta_of (r : Response) : option api.Meta :=
  match r with
  | OfStatus r => api.st_Meta r
  | OfNeighbors r => api.nr_Meta r
  | OfNeighborsStatus r => api.ns_Meta r
  | OfRoutes r => api.rr_Meta r
  end.

End sources.

(** ** Effects: the world, outcomes and the monad *)

Definition error := string.

(** What a source does to the outside: HTTP requests, calls on the gRPC
    client and on the helpers built on it, and log lines. *)
Inductive Event : Type :=
| EvHttpGet (url : string)
| EvRpc (call : string) (arg : string)
| EvLog (e : error).

(** [ticks] counts the clock reads so far, [log] lists the events so far. *)
Record World := {
  ticks : nat;
  log : list Event
}.

Inductive Outcome (A : Type) : Type :=
| Ok (a : A)
| Err (e : error)
| Panic (reason : string).
Arguments Ok {A} a.
Arguments Err {A} e.
Arguments Panic {A} reason.

Definition M (S A : Type) : Type := S -> Outcome A * S.

Definition ret {S A} (a : A) : M S A := fun s => (Ok a, s).

Definition bind {S A B} (c : M S A) (k : A -> M S B) : M S B :=
  fun s =>
    match c s with
    | (Ok a, s') => k a s'
    | (Err e, s') => (Err e, s')
    | (Panic r, s') => (Panic r, s')
    end.

Notation "x <- c ;; k" := (bind c (fun x => k))
  (at level 100, c at next level, right associativity).
Notation "c ;;; k" := (bind c (fun _ => k))
  (at level 100, right associativity).

(** [return nil, err]. *)
Definition fail {S A} (e : error) : M S A := fun s => (Err e, s).

(** A nil-pointer dereference. *)
Definition panic {S A} (r : string) : M S A := fun s => (Panic r, s).

(** A Go call returning [(value, error)]. *)
Definition lift {S A} (r : error + A) : M S A :=
  match r with inl e => fail e | inr a => ret a end.

Definition gets {S A} (f : S -> A) : M S A := fun s => (Ok (f s), s).
Definition modify {S} (f : S -> S) : M S unit := fun s => (Ok tt, f s).

Definition mapM {S A B} (f : A -> B) (c : M S A) : M S B :=
  a <- c ;; ret (f a).

(** ** Package caches *)

Module caches.

(** Modelled from the spec: package [caches] ([NeighborsCache],
    [RoutesCache] and their [Get], [Set] and [Expire]) is not among the
    sources; only the constructor calls [NewNeighborsCache(disabled)] and
    [NewRoutesCache(disabled, size)] and the method calls are.  A cache
    entry is [{value, insertedAt, ttl}]; as [Set] is handed nothing but the
    value, the entry lasts until the [TTL] instant of the value's envelope,
    and a value without envelope gets a zero [ttl]. *)
Record CacheEntry (V : Type) : Type := {
  value : V;
  insertedAt : Time;
  ttl : Duration
}.
Arguments value {V} c.
Arguments insertedAt {V} c.
Arguments ttl {V} c.

(** Modelled from the spec: the entry [Set] makes of a value at the
    instant [now]. *)
Definition make_entry {V} (meta : V -> option api.Meta) (now : Time) (v : V)
  : CacheEntry V :=
  {| value := v;
     insertedAt := now;
     ttl := match meta v with
            | Some m => api.TTL m - now
            | None => 0
            end |}.

(** Modelled from the spec: an entry is expired once
    [insertedAt + ttl <= now]. *)
Definition expired {V} (now : Time) (e : CacheEntry V) : bool :=
  insertedAt e + ttl e <=? now.

(** Modelled from the spec: the singleton cache, one slot. *)
Record NeighborsCache := {
  nc_disabled : bool;
  nc_slot : option (CacheEntry api.NeighborsResponse)
}.

(** Modelled from the spec: a new cache is empty. *)
Definition NewNeighborsCache (disabled : bool) : NeighborsCache :=
  {| nc_disabled := disabled; nc_slot := None |}.

(** Modelled from the spec: [Get() -> value | absent]; absent when the
    cache is disabled, unset or expired; the slot is left as it is. *)
Definition nc_Get (now : Time) (c : NeighborsCache)
  : option api.NeighborsResponse :=
  if nc_disabled c then None
  else match nc_slot c with
       | Some e => if expired now e then None else Some (value e)
       | None => None
       end.

(** Modelled from the spec: [Set(value)] overwrites the slot, and is a
    no-op when the cache is disabled. *)
Definition nc_Set (now : Time) (v : api.NeighborsResponse) (c : NeighborsCache)
  : NeighborsCache :=
  if nc_disabled c then c
  else {| nc_disabled := nc_disabled c;
          nc_slot := Some (make_entry api.nr_Meta now v) |}.

(** Modelled from the spec: [Expire() -> count] removes the entry when it
    is expired. *)
Definition nc_Expire (now : Time) (c : NeighborsCache) : Z * NeighborsCache :=
  match nc_slot c with
  | Some e =>
      if expired now e
      then (1, {| nc_disabled := nc_disabled c; nc_slot := None |})
      else (0, c)
  | None => (0, c)
  end.

(** Modelled from the spec: the cache hands out the pointer it stores, so
    a write through that pointer changes the stored value. *)
Definition nc_write (v : api.NeighborsResponse) (c : NeighborsCache)
  : NeighborsCache :=
  {| nc_disabled := nc_disabled c;
     nc_slot := match nc_slot c with
                | Some e => Some {| value := v; insertedAt := insertedAt e;
                                    ttl := ttl e |}
                | None => None
                end |}.

(** Modelled from the spec: an entry of the keyed cache additionally has
    [lastAccessed]; the key is the key of the map. *)
Record KeyedEntry := {
  entry : CacheEntry api.RoutesResponse;
  lastAccessed : Time
}.

(** Modelled from the spec: the keyed cache, bounded by [rc_size]
    entries. *)
Record RoutesCache := {
  rc_disabled : bool;
  rc_size : Z;
  rc_entries : gmap string KeyedEntry
}.

(** Modelled from the spec: a new cache is empty. *)
Definition NewRoutesCache (disabled : bool) (size : Z) : RoutesCache :=
  {| rc_disabled := disabled; rc_size := size; rc_entries := ∅ |}.

(** Modelled from the spec: the cache [c] with the entries [m]. *)
Definition with_entries (m : gmap string KeyedEntry) (c : RoutesCache)
  : RoutesCache :=
  {| rc_disabled := rc_disabled c; rc_size := rc_size c; rc_entries := m |}.

(** Modelled from the spec: the less recently used of two entries. *)
Definition older (a b : string * KeyedEntry) : string * KeyedEntry :=
  if lastAccessed a.2 <=? lastAccessed b.2 then a else b.

(** Modelled from the spec: the key of the least recently used entry. *)
Definition lru (m : gmap string KeyedEntry) : option string :=
  match map_to_list m with
  | [] => None
  | x :: xs => Some (fold_left older xs x).1
  end.

(** Modelled from the spec: [Get(key) -> value | absent]; a served entry
    becomes the most recently used one. *)
Definition rc_Get (now : Time) (key : string) (c : RoutesCache)
  : option api.RoutesResponse * RoutesCache :=
  if rc_disabled c then (None, c)
  else match rc_entries c !! key with
       | Some e =>
           if expired now (entry e) then (None, c)
           else (Some (value (entry e)),
                 with_entries
                   (<[key := {| entry := entry e; lastAccessed := now |}]>
                      (rc_entries c)) c)
       | None => (None, c)
       end.

(** Modelled from the spec: [Set(key, value)]; at capacity, the least
    recently used entry is evicted before the insertion. *)
Definition rc_Set (now : Time) (key : string) (v : api.RoutesResponse)
    (c : RoutesCache) : RoutesCache :=
  if rc_disabled c then c
  else
    let kept :=
      if rc_size c <=? Z.of_nat (size (rc_entries c))
      then match lru (rc_entries c) with
           | Some k => delete k (rc_entries c)
           | None => rc_entries c
           end
      else rc_entries c in
    with_entries
      (<[key := {| entry := make_entry api.rr_Meta now v;
                   lastAccessed := now |}]> kept) c.

(** Modelled from the spec: [Expire() -> count] removes every expired
    entry and returns how many it removed. *)
Definition rc_Expire (now : Time) (c : RoutesCache) : Z * RoutesCache :=
  let kept :=
    filter (fun kv => expired now (entry kv.2) = false) (rc_entries c) in
  (Z.of_nat (size (rc_entries c)) - Z.of_nat (size kept), with_entries kept c).

(** Modelled from the spec: a write through the pointer the cache handed
    out for [key]. *)
Definition rc_write (key : string) (v : api.RoutesResponse) (c : RoutesCache)
  : RoutesCache :=
  with_entries
    (alter (fun e => {| entry := {| value := v;
                                    insertedAt := insertedAt (entry e);
                                    ttl := ttl (entry e) |};
                        lastAccessed := lastAccessed e |})
       key (rc_entries c)) c.

(** Modelled from the spec: the value a keyed cache holds for [key],
    expired or not. *)
Definition rc_holds (c : RoutesCache) (key : string)
  : option api.RoutesResponse :=
  (fun e => value (entry e)) <$> (rc_entries c !! key).

(** Modelled from the spec: the value the singleton cache holds, expired
    or not. *)
Definition nc_holds (c : NeighborsCache) : option api.NeighborsResponse :=
  value <$> nc_slot c.

End caches.

(** ** Package openbgpd: [bgplgd_source.go] *)

Module openbgpd.

Definition BgplgdSourceVersion : string := "1.0".

(** Modelled from the spec: a reject community of the configuration is a
    pattern, each of its three components a value or a wildcard. *)
Definition Pattern : Type := option Z * option Z * option Z.

(** Modelled from the spec: [Config] is declared in a file that is not
    among the sources; these are the fields the source reads. *)
Record Config := {
  cfg_ID : string;
  CacheTTL : Duration;
  RoutesCacheSize : Z;
  RejectCommunities : list Pattern
}.

Record Request := {
  Method : string;
  URL : string
}.

(** Raw HTTP responses and decoded JSON documents are kept opaque. *)
Definition HttpResponse := string.
Definition JSON := string.

(** The surroundings of the source: the clock, the HTTP client, and the
    helpers of other files and packages ([Config.APIURL],
    [decoders.ReadJSONResponse], [decodeNeighbors],
    [decodeNeighborsStatus], [decodeRoutes]), each of which parses or
    fails.  The HTTP client may answer by everything that happened so
    far. *)
Record Env := {
  clock : nat -> Time;
  APIURL : string -> list string -> string;
  NewRequestWithContext : string -> string -> error + Request;
  Do : World -> Request -> error + HttpResponse;
  ReadJSONResponse : HttpResponse -> error + JSON;
  decodeNeighbors : JSON -> error + list api.Neighbor;
  decodeNeighborsStatus : JSON -> error + list api.NeighborStatus;
  decodeRoutes : JSON -> error + api.Routes
}.

(** *** Classification by reject communities *)

(** Modelled from the spec: a component matches by its exact value or
    as a wildcard. *)
Definition component_matches (p : option Z) (v : Z) : bool :=
  match p with
  | None => true
  | Some x => x =? v
  end.

(** Modelled from the spec: a large community matches a pattern
    component by component. *)
Definition community_matches (p : Pattern) (c : api.LargeCommunity) : bool :=
  component_matches p.1.1 c.1.1 &&
  component_matches p.1.2 c.1.2 &&
  component_matches p.2 c.2.

(** Modelled from the spec: [filterReceivedRoutes] and
    [filterRejectedRoutes] are defined in a file that is not among the
    sources.  A route is filtered iff one of its large communities matches
    a pattern of the policy, and imported otherwise. *)
Definition is_rejected (policy : list Pattern) (r : api.Route) : bool :=
  existsb (fun c => existsb (fun p => community_matches p c) policy)
    (api.LargeCommunities r).

(** Modelled from the spec: the filtered routes of a list, in order. *)
Definition filterRejectedRoutes (policy : list Pattern) (routes : api.Routes)
  : api.Routes :=
  make_slice (List.filter (is_rejected policy) (elems routes)).

(** Modelled from the spec: the imported routes of a list, in order. *)
Definition filterReceivedRoutes (policy : list Pattern) (routes : api.Routes)
  : api.Routes :=
  make_slice (List.filter (fun r => negb (is_rejected policy r)) (elems routes)).

(** *** The source and its state *)

Record BgplgdSource := {
  cfg : Config;
  neighborsCache : caches.NeighborsCache;
  neighborsSummaryCache : caches.NeighborsCache;
  routesCache : caches.RoutesCache;
  routesReceivedCache : caches.RoutesCache;
  routesFilteredCache : caches.RoutesCache
}.

Definition NewBgplgdSource (cfg : Config) : BgplgdSource :=
  let cacheDisabled := CacheTTL cfg =? 0 in
  let nc := caches.NewNeighborsCache cacheDisabled in
  let nsc := caches.NewNeighborsCache cacheDisabled in
  let rc := caches.NewRoutesCache cacheDisabled (RoutesCacheSize cfg) in
  let rrc := caches.NewRoutesCache cacheDisabled (RoutesCacheSize cfg) in
  let rfc := caches.NewRoutesCache cacheDisabled (RoutesCacheSize cfg) in
  {| cfg := cfg;
     neighborsCache := nc;
     neighborsSummaryCache := nsc;
     routesCache := rc;
     routesReceivedCache := rrc;
     routesFilteredCache := rfc |}.

Record St := {
  this : BgplgdSource;
  world : World
}.

(** The five cache fields of the source, to read and write them
    uniformly. *)
Inductive NField := FNeighbors | FNeighborsSummary.
Inductive RField := FRoutes | FRoutesReceived | FRoutesFiltered.

Definition get_nc (f : NField) (src : BgplgdSource) : caches.NeighborsCache :=
  match f with
  | FNeighbors => neighborsCache src
  | FNeighborsSummary => neighborsSummaryCache src
  end.

Definition set_nc (f : NField) (c : caches.NeighborsCache) (src : BgplgdSource)
  : BgplgdSource :=
  match f with
  | FNeighbors =>
      {| cfg := cfg src; neighborsCache := c;
         neighborsSummaryCache := neighborsSummaryCache src;
         routesCache := routesCache src;
         routesReceivedCache := routesReceivedCache src;
         routesFilteredCache := routesFilteredCache src |}
  | FNeighborsSummary =>
      {| cfg := cfg src; neighborsCache := neighborsCache src;
         neighborsSummaryCache := c;
         routesCache := routesCache src;
         routesReceivedCache := routesReceivedCache src;
         routesFilteredCache := routesFilteredCache src |}
  end.

Definition get_rc (f : RField) (src : BgplgdSource) : caches.RoutesCache :=
  match f with
  | FRoutes => routesCache src
  | FRoutesReceived => routesReceivedCache src
  | FRoutesFiltered => routesFilteredCache src
  end.

Definition set_rc (f : RField) (c : caches.RoutesCache) (src : BgplgdSource)
  : BgplgdSource :=
  match f with
  | FRoutes =>
      {| cfg := cfg src; neighborsCache := neighborsCache src;
         neighborsSummaryCache := neighborsSummaryCache src;
         routesCache := c;
         routesReceivedCache := routesReceivedCache src;
         routesFilteredCache := routesFilteredCache src |}
  | FRoutesReceived =>
      {| cfg := cfg src; neighborsCache := neighborsCache src;
         neighborsSummaryCache := neighborsSummaryCache src;
         routesCache := routesCache src;
         routesReceivedCache := c;
         routesFilteredCache := routesFilteredCache src |}
  | FRoutesFiltered =>
      {| cfg := cfg src; neighborsCache := neighborsCache src;
         neighborsSummaryCache := neighborsSummaryCache src;
         routesCache := routesCache src;
         routesReceivedCache := routesReceivedCache src;
         routesFilteredCache := c |}
  end.

Definition with_this (src : BgplgdSource) (s : St) : St :=
  {| this := src; world := world s |}.

Definition with_world (w : World) (s : St) : St :=
  {| this := this s; world := w |}.

(** The state after one more read of the clock. *)
Definition tick (s : St) : St :=
  with_world {| ticks := S (ticks (world s)); log := log (world s) |} s.

Section Source.

Variable env : Env.

(** [time.Now()]: one more read of the clock. *)
Definition time_Now : M St Time :=
  fun s => (Ok (clock env (ticks (world s))), tick s).

(** [http.DefaultClient.Do(req)]: the request goes out, whatever comes
    back. *)
Definition http_Do (req : Request) : M St HttpResponse :=
  fun s =>
    let w := world s in
    let s' := with_world
                {| ticks := ticks w; log := log w ++ [EvHttpGet (URL req)] |} s in
    match Do env w req with
    | inl e => (Err e, s')
    | inr res => (Ok res, s')
    end.

(** The method calls on the caches; each cache operation reads the clock
    once. *)
Definition NeighborsCache_Get (f : NField) : M St (option api.NeighborsResponse) :=
  now <- time_Now ;;
  gets (fun s => caches.nc_Get now (get_nc f (this s))).

Definition NeighborsCache_Set (f : NField) (v : api.NeighborsResponse) : M St unit :=
  now <- time_Now ;;
  modify (fun s => with_this (set_nc f (caches.nc_Set now v (get_nc f (this s))) (this s)) s).

Definition RoutesCache_Get (f : RField) (key : string) : M St (option api.RoutesResponse) :=
  now <- time_Now ;;
  fun s =>
    let (r, c) := caches.rc_Get now key (get_rc f (this s)) in
    (Ok r, with_this (set_rc f c (this s)) s).

Definition RoutesCache_Set (f : RField) (key : string) (v : api.RoutesResponse) : M St unit :=
  now <- time_Now ;;
  modify (fun s => with_this (set_rc f (caches.rc_Set now key v (get_rc f (this s))) (this s)) s).

Definition RoutesCache_Expire (f : RField) : M St Z :=
  now <- time_Now ;;
  fun s =>
    let (n, c) := caches.rc_Expire now (get_rc f (this s)) in
    (Ok n, with_this (set_rc f c (this s)) s).

(** [ExpireCaches ... will flush the cache.] *)
Definition ExpireCaches : M St Z :=
  totalExpired <- RoutesCache_Expire FRoutesReceived ;;
  ret totalExpired.

(** *** Requests *)

Definition http_MethodGet : string := "GET".

Definition ShowNeighborsRequest : M St Request :=
  let url := APIURL env "/neighbors" [] in
  lift (NewRequestWithContext env http_MethodGet url).

Definition ShowNeighborsSummaryRequest : M St Request :=
  let url := APIURL env "/summary" [] in
  lift (NewRequestWithContext env http_MethodGet url).

Definition ShowNeighborRIBRequest (neighborID : string) : M St Request :=
  let url := APIURL env "/rib?neighbor=%s" [neighborID] in
  lift (NewRequestWithContext env http_MethodGet url).

Definition ShowRIBRequest : M St Request :=
  let url := APIURL env "/rib" [] in
  lift (NewRequestWithContext env http_MethodGet url).

(** *** Datasource *)

(** [makeResponseMeta] reads the clock twice. *)
Definition makeResponseMeta : M St api.Meta :=
  t1 <- time_Now ;;
  t2 <- time_Now ;;
  ttl <- gets (fun s => CacheTTL (cfg (this s))) ;;
  ret {| api.CachedAt := t1;
         api.Version := BgplgdSourceVersion;
         api.ResultFromCache := false;
         api.TTL := time_Add t2 ttl |}.

Definition Status : M St api.StatusResponse :=
  meta <- makeResponseMeta ;;
  let response :=
    {| api.st_Meta := Some meta;
       api.st_Status := {| api.RouterID := "";
                           api.sVersion := "openbgpd";
                           api.Backend := "";
                           api.Message := "openbgpd up and running" |} |} in
  ret response.

Definition set_RouteServerID (id : string) (n : api.Neighbor) : api.Neighbor :=
  {| api.nID := api.nID n; api.Address := api.Address n; api.ASN := api.ASN n;
     api.State := api.State n; api.Description := api.Description n;
     api.RouteServerID := id;
     api.RoutesReceived := api.RoutesReceived n;
     api.RoutesFiltered := api.RoutesFiltered n;
     api.RoutesExported := api.RoutesExported n;
     api.RoutesAccepted := api.RoutesAccepted n;
     api.Uptime := api.Uptime n |}.

Definition set_RoutesFiltered (k : Z) (n : api.Neighbor) : api.Neighbor :=
  {| api.nID := api.nID n; api.Address := api.Address n; api.ASN := api.ASN n;
     api.State := api.State n; api.Description := api.Description n;
     api.RouteServerID := api.RouteServerID n;
     api.RoutesReceived := api.RoutesReceived n;
     api.RoutesFiltered := k;
     api.RoutesExported := api.RoutesExported n;
     api.RoutesAccepted := api.RoutesAccepted n;
     api.Uptime := api.Uptime n |}.

(** The hit branch, [response.Meta.ResultFromCache = true; return
    response, nil]: the assignment goes through the pointer the cache
    returned, so the cached value is flagged as well. *)
Definition neighbors_hit (f : NField) (response : api.NeighborsResponse)
  : M St api.NeighborsResponse :=
  match api.nr_Meta response with
  | None => panic "nil pointer dereference: response.Meta"
  | Some m =>
      let response' :=
        {| api.nr_Meta := Some (api.set_ResultFromCache true m);
           api.Neighbors := api.Neighbors response |} in
      modify (fun s => with_this
                (set_nc f (caches.nc_write response' (get_nc f (this s))) (this s)) s) ;;;
      ret response'
  end.

Definition routes_hit (f : RField) (key : string) (response : api.RoutesResponse)
  : M St api.RoutesResponse :=
  match api.rr_Meta response with
  | None => panic "nil pointer dereference: response.Meta"
  | Some m =>
      let response' :=
        {| api.rr_Meta := Some (api.set_ResultFromCache true m);
           api.Imported := api.Imported response;
           api.Filtered := api.Filtered response;
           api.NotExported := api.NotExported response |} in
      modify (fun s => with_this
                (set_rc f (caches.rc_write key response' (get_rc f (this s))) (this s)) s) ;;;
      ret response'
  end.

(** The request for the RIB of one neighbor, sent and decoded; shared by
    [Routes], [RoutesReceived] and [RoutesFiltered]. *)
Definition fetch_routes (req : M St Request) : M St api.Routes :=
  req <- req ;;
  res <- http_Do req ;;
  body <- lift (ReadJSONResponse env res) ;;
  lift (decodeRoutes env body).

Definition Routes (neighborID : string) : M St api.RoutesResponse :=
  response <- RoutesCache_Get FRoutes neighborID ;;
  match response with
  | Some response => routes_hit FRoutes neighborID response
  | None =>
      routes <- fetch_routes (ShowNeighborRIBRequest neighborID) ;;
      rejectCommunities <- gets (fun s => RejectCommunities (cfg (this s))) ;;
      let received := filterReceivedRoutes rejectCommunities routes in
      let rejected := filterRejectedRoutes rejectCommunities routes in
      meta <- makeResponseMeta ;;
      let response :=
        {| api.rr_Meta := Some meta;
           api.Imported := received;
           api.NotExported := make_slice [];
           api.Filtered := rejected |} in
      RoutesCache_Set FRoutes neighborID response ;;;
      ret response
  end.

Definition RoutesReceived (neighborID : string) : M St api.RoutesResponse :=
  response <- RoutesCache_Get FRoutesReceived neighborID ;;
  match response with
  | Some response => routes_hit FRoutesReceived neighborID response
  | None =>
      routes <- fetch_routes (ShowNeighborRIBRequest neighborID) ;;
      rejectCommunities <- gets (fun s => RejectCommunities (cfg (this s))) ;;
      let received := filterReceivedRoutes rejectCommunities routes in
      meta <- makeResponseMeta ;;
      let response :=
        {| api.rr_Meta := Some meta;
           api.Imported := received;
           api.NotExported := make_slice [];
           api.Filtered := make_slice [] |} in
      RoutesCache_Set FRoutesReceived neighborID response ;;;
      ret response
  end.

Definition RoutesFiltered (neighborID : string) : M St api.RoutesResponse :=
  response <- RoutesCache_Get FRoutesFiltered neighborID ;;
  match response with
  | Some response => routes_hit FRoutesFiltered neighborID response
  | None =>
      routes <- fetch_routes (ShowNeighborRIBRequest neighborID) ;;
      rejectCommunities <- gets (fun s => RejectCommunities (cfg (this s))) ;;
      let rejected := filterRejectedRoutes rejectCommunities routes in
      meta <- makeResponseMeta ;;
      let response :=
        {| api.rr_Meta := Some meta;
           api.Imported := make_slice [];
           api.NotExported := make_slice [];
           api.Filtered := rejected |} in
      RoutesCache_Set FRoutesFiltered neighborID response ;;;
      ret response
  end.

Definition RoutesNotExported (neighborID : string) : M St api.RoutesResponse :=
  meta <- makeResponseMeta ;;
  let response :=
    {| api.rr_Meta := Some meta;
       api.Imported := make_slice [];
       api.NotExported := make_slice [];
       api.Filtered := make_slice [] |} in
  ret response.

Definition AllRoutes : M St api.RoutesResponse :=
  routes <- fetch_routes ShowRIBRequest ;;
  rejectCommunities <- gets (fun s => RejectCommunities (cfg (this s))) ;;
  let received := filterReceivedRoutes rejectCommunities routes in
  let rejected := filterRejectedRoutes rejectCommunities routes in
  meta <- makeResponseMeta ;;
  let response :=
    {| api.rr_Meta := Some meta;
       api.Imported := received;
       api.NotExported := make_slice [];
       api.Filtered := rejected |} in
  ret response.

(** The request for the neighbors, sent and decoded; [Neighbors] and
    [NeighborsSummary] both ask for [/neighbors]. *)
Definition fetch_neighbors : M St (list api.Neighbor) :=
  req <- ShowNeighborsRequest ;;
  res <- http_Do req ;;
  body <- lift (ReadJSONResponse env res) ;;
  lift (decodeNeighbors env body).

(** The loop of [Neighbors] over the decoded neighbors.  The slice holds
    pointers, so the assignments to [n] update the element in place; an
    error of [RoutesFiltered] leaves the function at once. *)
Fixpoint Neighbors_loop (nb : list api.Neighbor) : M St (list api.Neighbor) :=
  match nb with
  | [] => ret []
  | n :: rest =>
      id <- gets (fun s => cfg_ID (cfg (this s))) ;;
      let n := set_RouteServerID id n in
      rejectedRes <- RoutesFiltered (api.nID n) ;;
      let rejectCount := len (api.Filtered rejectedRes) in
      let n := set_RoutesFiltered rejectCount n in
      rest <- Neighbors_loop rest ;;
      ret (n :: rest)
  end.

Definition Neighbors : M St api.NeighborsResponse :=
  response <- NeighborsCache_Get FNeighbors ;;
  match response with
  | Some response => neighbors_hit FNeighbors response
  | None =>
      nb <- fetch_neighbors ;;
      nb <- Neighbors_loop nb ;;
      meta <- makeResponseMeta ;;
      let response := {| api.nr_Meta := Some meta; api.Neighbors := nb |} in
      NeighborsCache_Set FNeighbors response ;;;
      ret response
  end.

Fixpoint NeighborsSummary_loop (nb : list api.Neighbor) : M St (list api.Neighbor) :=
  match nb with
  | [] => ret []
  | n :: rest =>
      id <- gets (fun s => cfg_ID (cfg (this s))) ;;
      let n := set_RouteServerID id n in
      rest <- NeighborsSummary_loop rest ;;
      ret (n :: rest)
  end.

Definition NeighborsSummary : M St api.NeighborsResponse :=
  response <- NeighborsCache_Get FNeighborsSummary ;;
  match response with
  | Some response => neighbors_hit FNeighborsSummary response
  | None =>
      nb <- fetch_neighbors ;;
      nb <- NeighborsSummary_loop nb ;;
      meta <- makeResponseMeta ;;
      let response := {| api.nr_Meta := Some meta; api.Neighbors := nb |} in
      NeighborsCache_Set FNeighborsSummary response ;;;
      ret response
  end.

Definition NeighborsStatus : M St api.NeighborsStatusResponse :=
  req <- ShowNeighborsSummaryRequest ;;
  res <- http_Do req ;;
  body <- lift (ReadJSONResponse env res) ;;
  nb <- lift (decodeNeighborsStatus env body) ;;
  meta <- makeResponseMeta ;;
  let response := {| api.ns_Meta := Some meta; api.ns_Neighbors := nb |} in
  ret response.

(** *** The source as an implementation of the interface *)

Definition call (c : sources.Call) : M St sources.Response :=
  match c with
  | sources.Status => mapM sources.OfStatus Status
  | sources.Neighbors => mapM sources.OfNeighbors Neighbors
  | sources.NeighborsSummary => mapM sources.OfNeighbors NeighborsSummary
  | sources.NeighborsStatus => mapM sources.OfNeighborsStatus NeighborsStatus
  | sources.Routes id => mapM sources.OfRoutes (Routes id)
  | sources.RoutesReceived id => mapM sources.OfRoutes (RoutesReceived id)
  | sources.RoutesFiltered id => mapM sources.OfRoutes (RoutesFiltered id)
  | sources.RoutesNotExported id => mapM sources.OfRoutes (RoutesNotExported id)
  | sources.AllRoutes => mapM sources.OfRoutes AllRoutes
  end.

(** The methods by the cache they go through, and what each builds on a
    miss, to reason about them together. *)
Definition routes_method (f : RField) : string -> M St api.RoutesResponse :=
  match f with
  | FRoutes => Routes
  | FRoutesReceived => RoutesReceived
  | FRoutesFiltered => RoutesFiltered
  end.

Definition routes_response (f : RField) (rejectCommunities : list Pattern)
    (routes : api.Routes) (meta : api.Meta) : api.RoutesResponse :=
  match f with
  | FRoutes =>
      {| api.rr_Meta := Some meta;
         api.Imported := filterReceivedRoutes rejectCommunities routes;
         api.NotExported := make_slice [];
         api.Filtered := filterRejectedRoutes rejectCommunities routes |}
  | FRoutesReceived =>
      {| api.rr_Meta := Some meta;
         api.Imported := filterReceivedRoutes rejectCommunities routes;
         api.NotExported := make_slice [];
         api.Filtered := make_slice [] |}
  | FRoutesFiltered =>
      {| api.rr_Meta := Some meta;
         api.Imported := make_slice [];
         api.NotExported := make_slice [];
         api.Filtered := filterRejectedRoutes rejectCommunities routes |}
  end.

Definition neighbors_method (f : NField) : M St api.NeighborsResponse :=
  match f with
  | FNeighbors => Neighbors
  | FNeighborsSummary => NeighborsSummary
  end.

Definition neighbors_loop (f : NField) : list api.Neighbor -> M St (list api.Neighbor) :=
  match f with
  | FNeighbors => Neighbors_loop
  | FNeighborsSummary => NeighborsSummary_loop
  end.

(** What the [Get] a call starts with finds in state [s]; nothing for the
    calls that start with no [Get]. *)
Definition cached (c : sources.Call) (s : St) : option sources.Response :=
  let now := clock env (ticks (world s)) in
  match c with
  | sources.Neighbors =>
      sources.OfNeighbors <$> caches.nc_Get now (neighborsCache (this s))
  | sources.NeighborsSummary =>
      sources.OfNeighbors <$> caches.nc_Get now (neighborsSummaryCache (this s))
  | sources.Routes id =>
      sources.OfRoutes <$> (caches.rc_Get now id (routesCache (this s))).1
  | sources.RoutesReceived id =>
      sources.OfRoutes <$> (caches.rc_Get now id (routesReceivedCache (this s))).1
  | sources.RoutesFiltered id =>
      sources.OfRoutes <$> (caches.rc_Get now id (routesFilteredCache (this s))).1
  | _ => None
  end.

End Source.

(** The calls that go through a cache. *)
Definition is_cached (c : sources.Call) : bool :=
  match c with
  | sources.Neighbors | sources.NeighborsSummary
  | sources.Routes _ | sources.RoutesReceived _ | sources.RoutesFiltered _ => true
  | _ => false
  end.

(** The value the cache of a call holds for the call in [src], and
    whether that cache is disabled. *)
Definition stored (c : sources.Call) (src : BgplgdSource) : option sources.Response :=
  match c with
  | sources.Neighbors =>
      sources.OfNeighbors <$> caches.nc_holds (neighborsCache src)
  | sources.NeighborsSummary =>
      sources.OfNeighbors <$> caches.nc_holds (neighborsSummaryCache src)
  | sources.Routes id =>
      sources.OfRoutes <$> caches.rc_holds (routesCache src) id
  | sources.RoutesReceived id =>
      sources.OfRoutes <$> caches.rc_holds (routesReceivedCache src) id
  | sources.RoutesFiltered id =>
      sources.OfRoutes <$> caches.rc_holds (routesFilteredCache src) id
  | _ => None
  end.

Definition disabled (c : sources.Call) (src : BgplgdSource) : bool :=
  match c with
  | sources.Neighbors => caches.nc_disabled (neighborsCache src)
  | sources.NeighborsSummary => caches.nc_disabled (neighborsSummaryCache src)
  | sources.Routes _ => caches.rc_disabled (routesCache src)
  | sources.RoutesReceived _ => caches.rc_disabled (routesReceivedCache src)
  | sources.RoutesFiltered _ => caches.rc_disabled (routesFilteredCache src)
  | _ => true
  end.

(** [r] with [Meta.ResultFromCache] set. *)
Definition flagged (r : sources.Response) : sources.Response :=
  match r with
  | sources.OfNeighbors r =>
      sources.OfNeighbors
        {| api.nr_Meta := api.set_ResultFromCache true <$> api.nr_Meta r;
           api.Neighbors := api.Neighbors r |}
  | sources.OfRoutes r =>
      sources.OfRoutes
        {| api.rr_Meta := api.set_ResultFromCache true <$> api.rr_Meta r;
           api.Imported := api.Imported r;
           api.Filtered := api.Filtered r;
           api.NotExported := api.NotExported r |}
  | r => r
  end.

(** *** The invariant of the caches

    Every cached response has its envelope; the responses of
    [routesReceivedCache] and [routesFilteredCache] have the shape
    [RoutesReceived] and [RoutesFiltered] build. *)

Definition present {A} (o : option A) : bool :=
  match o with Some _ => true | None => false end.

Definition empty_not_nil {A} (s : slice A) : bool :=
  match s with make_slice [] => true | _ => false end.

Definition routes_ok (r : api.RoutesResponse) : bool :=
  present (api.rr_Meta r).

Definition received_ok (r : api.RoutesResponse) : bool :=
  present (api.rr_Meta r) &&
  empty_not_nil (api.Filtered r) && empty_not_nil (api.NotExported r).

Definition filtered_ok (r : api.RoutesResponse) : bool :=
  present (api.rr_Meta r) &&
  empty_not_nil (api.Imported r) && empty_not_nil (api.NotExported r).

Definition neighbors_ok (r : api.NeighborsResponse) : bool :=
  present (api.nr_Meta r).

Definition nc_all (P : api.NeighborsResponse -> bool) (c : caches.NeighborsCache) : bool :=
  match caches.nc_slot c with
  | Some e => P (caches.value e)
  | None => true
  end.

Definition rc_all (P : api.RoutesResponse -> bool) (c : caches.RoutesCache) : bool :=
  forallb (fun kv => P (caches.value (caches.entry kv.2)))
    (map_to_list (caches.rc_entries c)).

Definition shape (f : RField) : api.RoutesResponse -> bool :=
  match f with
  | FRoutes => routes_ok
  | FRoutesReceived => received_ok
  | FRoutesFiltered => filtered_ok
  end.

Definition wf (src : BgplgdSource) : bool :=
  nc_all neighbors_ok (neighborsCache src) &&
  nc_all neighbors_ok (neighborsSummaryCache src) &&
  rc_all (shape FRoutes) (routesCache src) &&
  rc_all (shape FRoutesReceived) (routesReceivedCache src) &&
  rc_all (shape FRoutesFiltered) (routesFilteredCache src).

Definition wf_state (s : St) : Prop := wf (this s) = true.

(** The log only grows: [l] is a prefix of the log of [s]. *)
Definition log_extends (l : list Event) (s : St) : Prop :=
  exists evs, log (world s) = l ++ evs.

(** The states a source gets into: made by [NewBgplgdSource], then any
    calls of the interface and of [ExpireCaches], in any surroundings. *)
Inductive reachable (env : Env) : St -> Prop :=
| reachable_new cfg w :
    reachable env {| this := NewBgplgdSource cfg; world := w |}
| reachable_call c s :
    reachable env s -> reachable env (call env c s).2
| reachable_ExpireCaches s :
    reachable env s -> reachable env (ExpireCaches env s).2.

(** The sweep the interface asks of [ExpireCaches], all five caches at
    the instant [now], to compare the method with. *)
Definition expire_all (now : Time) (src : BgplgdSource) : Z :=
  (caches.nc_Expire now (neighborsCache src)).1 +
  (caches.nc_Expire now (neighborsSummaryCache src)).1 +
  (caches.rc_Expire now (routesCache src)).1 +
  (caches.rc_Expire now (routesReceivedCache src)).1 +
  (caches.rc_Expire now (routesFilteredCache src)).1.

End openbgpd.

(** ** The gobgp API messages the source reads *)

Module gobgpapi.

Inductive PeerState_SessionState :=
| PeerState_UNKNOWN
| PeerState_IDLE
| PeerState_CONNECT
| PeerState_ACTIVE
| PeerState_OPENSENT
| PeerState_OPENCONFIRM
| PeerState_ESTABLISHED.

Inductive TableType :=
| TableType_GLOBAL
| TableType_LOCAL
| TableType_ADJ_IN
| TableType_ADJ_OUT
| TableType_VRF.

Record Timestamp := {
  Seconds : Z;
  Nanos : Z
}.

(** The counters are unsigned 64-bit numbers. *)
Record AfiSafiState := {
  Received : Z;
  Accepted : Z;
  Advertised : Z
}.

Record AfiSafi := {
  as_State : option AfiSafiState
}.

Record PeerConf := {
  Description : string
}.

Record PeerState := {
  NeighborAddress : string;
  PeerAs : Z;
  SessionState : PeerState_SessionState
}.

Record TimersState := {
  Uptime : option Timestamp
}.

Record Timers := {
  t_State : option TimersState
}.

(** The nested messages are pointers, and any of them may be nil; the
    source tests [Uptime] only. *)
Record Peer := {
  Conf : option PeerConf;
  State : option PeerState;
  p_Timers : option Timers;
  AfiSafis : list (option AfiSafi)
}.

Record ListPeerResponse := {
  lp_Peer : option Peer
}.

(** The address that names a peer in the log of calls; empty for a peer
    without state. *)
Definition address_of (peer : Peer) : string :=
  match State peer with
  | Some state => NeighborAddress state
  | None => ""
  end.

(** One [Recv()] on the peer stream: a message, or the nil message and an
    error.  The end of the list is [io.EOF]. *)
Inductive Recv :=
| RecvMsg (m : ListPeerResponse)
| RecvErr (e : error).

Record Global := {
  RouterId : string
}.

Record GetBgpResponse := {
  gb_Global : option Global
}.

End gobgpapi.

(** ** Package gobgp: [source.go] *)

Module gobgp.

Import gobgpapi.

(** Modelled from the spec: [Config] is declared in a file that is not
    among the sources; these are the fields the source reads. *)
Record Config := {
  cfg_ID : string;
  Host : string;
  Insecure : bool;
  ProcessingTimeout : Z
}.

(** The surroundings of the source: the clock, the gRPC client
    ([ListPeer], [GetBgp]) and the functions of the package's other files
    ([PeerHash], [NewRoutesResponse], [lookupNeighbor], [GetNeighbors],
    [GetRoutes]).  [GetRoutes] fills the response it is handed and returns
    an error or none; all of them may answer by everything that happened
    so far.  The processing timeout of a call shows as an error of the
    call or of a [Recv]. *)
Record Env := {
  clock : nat -> Time;
  ListPeer : World -> bool -> error + list Recv;
  GetBgp : World -> error + GetBgpResponse;
  PeerHash : Peer -> string;
  NewRoutesResponse : api.RoutesResponse;
  lookupNeighbor : World -> string -> error + Peer;
  GetNeighbors : World -> error + list Peer;
  GetRoutes : World -> Peer -> TableType -> api.RoutesResponse
              -> api.RoutesResponse * option error
}.

Record GoBGP := {
  config : Config;
  neighborsCache : caches.NeighborsCache;
  routesRequiredCache : caches.RoutesCache;
  routesReceivedCache : caches.RoutesCache;
  routesFilteredCache : caches.RoutesCache;
  routesNotExportedCache : caches.RoutesCache
}.

(** [NewGoBGP], without the dialing of the connection. *)
Definition NewGoBGP (config : Config) : GoBGP :=
  let neighborsCacheDisable := false in
  let routesCacheDisabled := false in
  let routesCacheMaxSize := 128 in
  {| config := config;
     neighborsCache := caches.NewNeighborsCache neighborsCacheDisable;
     routesRequiredCache :=
       caches.NewRoutesCache routesCacheDisabled routesCacheMaxSize;
     routesReceivedCache :=
       caches.NewRoutesCache routesCacheDisabled routesCacheMaxSize;
     routesFilteredCache :=
       caches.NewRoutesCache routesCacheDisabled routesCacheMaxSize;
     routesNotExportedCache :=
       caches.NewRoutesCache routesCacheDisabled routesCacheMaxSize |}.

Record St := {
  this : GoBGP;
  world : World
}.

Definition with_this (g : GoBGP) (s : St) : St :=
  {| this := g; world := world s |}.

Definition with_world (w : World) (s : St) : St :=
  {| this := this s; world := w |}.

Definition set_routesRequiredCache (c : caches.RoutesCache) (g : GoBGP) : GoBGP :=
  {| config := config g; neighborsCache := neighborsCache g;
     routesRequiredCache := c;
     routesReceivedCache := routesReceivedCache g;
     routesFilteredCache := routesFilteredCache g;
     routesNotExportedCache := routesNotExportedCache g |}.

Definition set_routesNotExportedCache (c : caches.RoutesCache) (g : GoBGP) : GoBGP :=
  {| config := config g; neighborsCache := neighborsCache g;
     routesRequiredCache := routesRequiredCache g;
     routesReceivedCache := routesReceivedCache g;
     routesFilteredCache := routesFilteredCache g;
     routesNotExportedCache := c |}.

(** [try c] is a call whose [err] the caller inspects itself instead of
    returning it. *)
Definition try {S A} (c : M S A) : M S (error + A) :=
  fun s =>
    match c s with
    | (Ok a, s') => (Ok (inr a), s')
    | (Err e, s') => (Ok (inl e), s')
    | (Panic r, s') => (Panic r, s')
    end.

(** The read of a field through the pointer [p], in the expression
    [expr]: a nil pointer panics. *)
Definition deref {A} (expr : string) (p : option A) : M St A :=
  match p with
  | Some a => ret a
  | None => panic ("nil pointer dereference: " +:+ expr)
  end.

Section Source.

Variable env : Env.

Definition time_Now : M St Time :=
  fun s =>
    (Ok (clock env (ticks (world s))),
     with_world {| ticks := S (ticks (world s)); log := log (world s) |} s).

(** [time.Since(t)] is [time.Now().Sub(t)]. *)
Definition time_Since (t : Time) : M St Duration :=
  now <- time_Now ;;
  ret (time_Sub now t).

Definition record (ev : Event) (s : St) : St :=
  with_world {| ticks := ticks (world s); log := log (world s) ++ [ev] |} s.

Definition log_Print (e : error) : M St unit :=
  modify (record (EvLog e)).

(** The calls that leave the file. *)
Definition call_ListPeer (enableAdvertised : bool) : M St (list Recv) :=
  fun s =>
    let s' := record (EvRpc "ListPeer" "") s in
    match ListPeer env (world s) enableAdvertised with
    | inl e => (Err e, s')
    | inr stream => (Ok stream, s')
    end.

Definition call_GetBgp : M St GetBgpResponse :=
  fun s =>
    let s' := record (EvRpc "GetBgp" "") s in
    match GetBgp env (world s) with
    | inl e => (Err e, s')
    | inr r => (Ok r, s')
    end.

Definition call_lookupNeighbor (neighborID : string) : M St Peer :=
  fun s =>
    let s' := record (EvRpc "lookupNeighbor" neighborID) s in
    match lookupNeighbor env (world s) neighborID with
    | inl e => (Err e, s')
    | inr p => (Ok p, s')
    end.

Definition call_GetNeighbors : M St (list Peer) :=
  fun s =>
    let s' := record (EvRpc "GetNeighbors" "") s in
    match GetNeighbors env (world s) with
    | inl e => (Err e, s')
    | inr ps => (Ok ps, s')
    end.

(** [err = gobgp.GetRoutes(peer, tableType, &routes)]: the response after
    the call, and the error if any. *)
Definition call_GetRoutes (peer : Peer) (tableType : TableType)
    (routes : api.RoutesResponse) : M St (api.RoutesResponse * option error) :=
  fun s =>
    let s' := record (EvRpc "GetRoutes" (address_of peer)) s in
    (Ok (GetRoutes env (world s) peer tableType routes), s').

Definition RoutesCache_Expire
    (get : GoBGP -> caches.RoutesCache)
    (set : caches.RoutesCache -> GoBGP -> GoBGP) : M St Z :=
  now <- time_Now ;;
  fun s =>
    let (n, c) := caches.rc_Expire now (get (this s)) in
    (Ok n, with_this (set c (this s)) s).

(** [ExpireCaches clears all local caches] *)
Definition ExpireCaches : M St Z :=
  count <- RoutesCache_Expire routesRequiredCache set_routesRequiredCache ;;
  n <- RoutesCache_Expire routesNotExportedCache set_routesNotExportedCache ;;
  let count := int_add count n in
  ret count.

Definition state_of (st : PeerState_SessionState) : string :=
  match st with
  | PeerState_ESTABLISHED => "up"
  | _ => "down"
  end.

(** The status built for one message of the stream.  [PeerHash] is
    outside the sources and taken as total on a peer; handed the nil
    peer, whatever it does, the round panics, at the read of
    [_resp.Peer.State] at the latest. *)
Definition status_of (_resp : ListPeerResponse) : M St api.NeighborStatus :=
  peer <- deref "_resp.Peer.State" (lp_Peer _resp) ;;
  let id := PeerHash env peer in
  peerState <- deref "_resp.Peer.State.SessionState" (State peer) ;;
  let state := state_of (SessionState peerState) in
  timers <- deref "_resp.Peer.Timers.State" (p_Timers peer) ;;
  timersState <- deref "_resp.Peer.Timers.State.Uptime" (t_State timers) ;;
  since <-
    match Uptime timersState with
    | Some up => time_Since (time_Unix (Seconds up) (Nanos up))
    | None => ret 0
    end ;;
  ret {| api.sID := id; api.sState := state; api.Since := since |}.

(** The loop of [NeighborsStatus] over the stream.  Only [io.EOF] leaves
    the loop: after any other error the nil message is dereferenced.  The
    status [ns] built for a message is not added to the response. *)
Fixpoint NeighborsStatus_loop (stream : list Recv) : M St unit :=
  match stream with
  | [] => ret tt
  | RecvErr _ :: _ => panic "nil pointer dereference: _resp.Peer"
  | RecvMsg _resp :: rest =>
      ns <- status_of _resp ;;
      NeighborsStatus_loop rest
  end.

Definition NeighborsStatus : M St api.NeighborsStatusResponse :=
  let response := {| api.ns_Meta := None; api.ns_Neighbors := [] |} in
  resp <- call_ListPeer false ;;
  NeighborsStatus_loop resp ;;;
  ret response.

Definition Status : M St api.StatusResponse :=
  resp <- call_GetBgp ;;
  global <- deref "resp.Global.RouterId" (gb_Global resp) ;;
  let response :=
    {| api.st_Meta := None;
       api.st_Status := {| api.RouterID := RouterId global;
                           api.sVersion := "";
                           api.Backend := "gobgp";
                           api.Message := "" |} |} in
  ret response.

Definition add_counters (neigh : api.Neighbor) (received exported accepted filtered : Z)
  : api.Neighbor :=
  {| api.nID := api.nID neigh; api.Address := api.Address neigh;
     api.ASN := api.ASN neigh; api.State := api.State neigh;
     api.Description := api.Description neigh;
     api.RouteServerID := api.RouteServerID neigh;
     api.RoutesReceived := received;
     api.RoutesFiltered := filtered;
     api.RoutesExported := exported;
     api.RoutesAccepted := accepted;
     api.Uptime := api.Uptime neigh |}.

(** The four assignments of one round of the loop over
    [_resp.Peer.AfiSafis], for the state of the address family: the
    fourth reads the totals the first and third have just updated. *)
Definition count_afiSafi (neigh : api.Neighbor) (state : AfiSafiState) : api.Neighbor :=
  let received :=
    int_add (api.RoutesReceived neigh) (int_of_uint64 (Received state)) in
  let exported :=
    int_add (api.RoutesExported neigh) (int_of_uint64 (Advertised state)) in
  let accepted :=
    int_add (api.RoutesAccepted neigh) (int_of_uint64 (Accepted state)) in
  let filtered :=
    int_add (api.RoutesFiltered neigh) (int_sub received accepted) in
  add_counters neigh received exported accepted filtered.

(** The loop over [_resp.Peer.AfiSafis]: each round reads
    [afiSafi.State] through the two pointers. *)
Fixpoint count_afiSafis (families : list (option AfiSafi)) (neigh : api.Neighbor)
  : M St api.Neighbor :=
  match families with
  | [] => ret neigh
  | afiSafi :: rest =>
      afiSafi <- deref "afiSafi.State" afiSafi ;;
      state <- deref "afiSafi.State.Received" (as_State afiSafi) ;;
      count_afiSafis rest (count_afiSafi neigh state)
  end.

Definition set_Uptime (d : Duration) (n : api.Neighbor) : api.Neighbor :=
  {| api.nID := api.nID n; api.Address := api.Address n; api.ASN := api.ASN n;
     api.State := api.State n; api.Description := api.Description n;
     api.RouteServerID := api.RouteServerID n;
     api.RoutesReceived := api.RoutesReceived n;
     api.RoutesFiltered := api.RoutesFiltered n;
     api.RoutesExported := api.RoutesExported n;
     api.RoutesAccepted := api.RoutesAccepted n;
     api.Uptime := d |}.

(** The neighbor built for one message of the stream, in the order of
    the source: the fields read through [_resp.Peer.State] and
    [_resp.Peer.Conf], the hash, the counters, the uptime.  The response
    holds a pointer to [neigh], so what is assigned after the [append] is
    seen through the response. *)
Definition neighbor_of (id : string) (_resp : ListPeerResponse) : M St api.Neighbor :=
  peer <- deref "_resp.Peer.State" (lp_Peer _resp) ;;
  state <- deref "_resp.Peer.State.NeighborAddress" (State peer) ;;
  conf <- deref "_resp.Peer.Conf.Description" (Conf peer) ;;
  let neigh :=
    {| api.nID := PeerHash env peer;
       api.Address := NeighborAddress state;
       api.ASN := PeerAs state;
       api.State := state_of (SessionState state);
       api.Description := Description conf;
       api.RouteServerID := id;
       api.RoutesReceived := 0;
       api.RoutesFiltered := 0;
       api.RoutesExported := 0;
       api.RoutesAccepted := 0;
       api.Uptime := 0 |} in
  neigh <- count_afiSafis (AfiSafis peer) neigh ;;
  timers <- deref "_resp.Peer.Timers.State" (p_Timers peer) ;;
  timersState <- deref "_resp.Peer.Timers.State.Uptime" (t_State timers) ;;
  match Uptime timersState with
  | Some up =>
      d <- time_Since (time_Unix (Seconds up) (Nanos up)) ;;
      ret (set_Uptime d neigh)
  | None => ret neigh
  end.

(** The loop of [Neighbors] over the stream; [acc] is
    [response.Neighbors] so far. *)
Fixpoint Neighbors_loop (stream : list Recv) (acc : list api.Neighbor)
  : M St (list api.Neighbor) :=
  match stream with
  | [] => ret acc
  | RecvErr _ :: _ => panic "nil pointer dereference: _resp.Peer"
  | RecvMsg _resp :: rest =>
      id <- gets (fun s => cfg_ID (config (this s))) ;;
      neigh <- neighbor_of id _resp ;;
      Neighbors_loop rest (acc ++ [neigh])
  end.

Definition Neighbors : M St api.NeighborsResponse :=
  resp <- call_ListPeer true ;;
  nb <- Neighbors_loop resp [] ;;
  ret {| api.nr_Meta := None; api.Neighbors := nb |}.

(** [NeighborsSummary is an alias of Neighbors for now] *)
Definition NeighborsSummary : M St api.NeighborsResponse :=
  Neighbors.

(** The three lines shared by [Routes], [getRoutes], [RoutesReceived] and
    [RoutesNotExported]: look the neighbor up, make a response, fill it. *)
Definition routes_of (neighborID : string) (tableType : TableType)
  : M St api.RoutesResponse :=
  neigh <- call_lookupNeighbor neighborID ;;
  let routes := NewRoutesResponse env in
  r <- call_GetRoutes neigh tableType routes ;;
  match r.2 with
  | Some err => fail err
  | None => ret r.1
  end.

Definition Routes (neighborID : string) : M St api.RoutesResponse :=
  routes_of neighborID TableType_ADJ_IN.

Definition getRoutes (neighborID : string) : M St api.RoutesResponse :=
  routes_of neighborID TableType_ADJ_IN.

Definition RoutesRequired (neighborID : string) : M St api.RoutesResponse :=
  getRoutes neighborID.

Definition set_Filtered (x : api.Routes) (r : api.RoutesResponse) : api.RoutesResponse :=
  {| api.rr_Meta := api.rr_Meta r; api.Imported := api.Imported r;
     api.Filtered := x; api.NotExported := api.NotExported r |}.

Definition set_Imported (x : api.Routes) (r : api.RoutesResponse) : api.RoutesResponse :=
  {| api.rr_Meta := api.rr_Meta r; api.Imported := x;
     api.Filtered := api.Filtered r; api.NotExported := api.NotExported r |}.

Definition set_NotExported (x : api.Routes) (r : api.RoutesResponse) : api.RoutesResponse :=
  {| api.rr_Meta := api.rr_Meta r; api.Imported := api.Imported r;
     api.Filtered := api.Filtered r; api.NotExported := x |}.

Definition RoutesReceived (neighborID : string) : M St api.RoutesResponse :=
  routes <- routes_of neighborID TableType_ADJ_IN ;;
  ret (set_Filtered nil_slice routes).

(** [getRoutes] returns the nil pointer with its error; the error is
    printed, and [routes.Imported = nil] is reached all the same. *)
Definition RoutesFiltered (neighborID : string) : M St api.RoutesResponse :=
  r <- try (getRoutes neighborID) ;;
  match r with
  | inl err =>
      log_Print err ;;;
      panic "nil pointer dereference: routes.Imported"
  | inr routes => ret (set_Imported nil_slice routes)
  end.

Definition RoutesNotExported (neighborID : string) : M St api.RoutesResponse :=
  routes <- routes_of neighborID TableType_ADJ_OUT ;;
  ret (set_NotExported (api.Filtered routes) routes).

(** The loop of [AllRoutes] over the peers: an error of [GetRoutes] is
    printed and the loop goes on. *)
Fixpoint AllRoutes_loop (peers : list Peer) (routes : api.RoutesResponse)
  : M St api.RoutesResponse :=
  match peers with
  | [] => ret routes
  | peer :: rest =>
      r <- call_GetRoutes peer TableType_ADJ_IN routes ;;
      match r.2 with
      | Some err => log_Print err
      | None => ret tt
      end ;;;
      AllRoutes_loop rest r.1
  end.

Definition AllRoutes : M St api.RoutesResponse :=
  let routes := NewRoutesResponse env in
  peers <- call_GetNeighbors ;;
  AllRoutes_loop peers routes.

(** [LookupPrefix searches for a prefix]: not implemented. *)
Definition LookupPrefix (prefix : string) : M St api.RoutesLookupResponse :=
  fail "not implemented: LookupPrefix".

(** *** The source as an implementation of the interface *)

Definition call (c : sources.Call) : M St sources.Response :=
  match c with
  | sources.Status => mapM sources.OfStatus Status
  | sources.Neighbors => mapM sources.OfNeighbors Neighbors
  | sources.NeighborsSummary => mapM sources.OfNeighbors NeighborsSummary
  | sources.NeighborsStatus => mapM sources.OfNeighborsStatus NeighborsStatus
  | sources.Routes id => mapM sources.OfRoutes (Routes id)
  | sources.RoutesReceived id => mapM sources.OfRoutes (RoutesReceived id)
  | sources.RoutesFiltered id => mapM sources.OfRoutes (RoutesFiltered id)
  | sources.RoutesNotExported id => mapM sources.OfRoutes (RoutesNotExported id)
  | sources.AllRoutes => mapM sources.OfRoutes AllRoutes
  end.

End Source.

(** The sum of one counter over the states of the address families of
    a peer. *)
Definition sum_of (counter : AfiSafiState -> Z) (families : list AfiSafiState) : Z :=
  fold_right (fun a acc => counter a + acc) 0 families.

(** [c] writes nothing to the source and starts with a call that leaves
    the file for the backend, however it ends. *)
Definition goes_out {A} (c : M St A) : Prop :=
  forall s,
    this (c s).2 = this s /\
    exists call arg evs,
      log (world (c s).2) = log (world s) ++ EvRpc call arg :: evs.

(** An invariant that clock reads and log entries keep. *)
Definition steady (I : St -> Prop) : Prop :=
  (forall s, I s ->
     I (with_world {| ticks := S (ticks (world s)); log := log (world s) |} s)) /\
  (forall ev s,
     I s ->
     I (with_world {| ticks := ticks (world s); log := log (world s) ++ [ev] |} s)).

(** The value the cache named after a call holds for the call in [g]. *)
Definition stored (c : sources.Call) (g : GoBGP) : option sources.Response :=
  match c with
  | sources.Neighbors | sources.NeighborsSummary =>
      sources.OfNeighbors <$> caches.nc_holds (neighborsCache g)
  | sources.Routes id =>
      sources.OfRoutes <$> caches.rc_holds (routesRequiredCache g) id
  | sources.RoutesReceived id =>
      sources.OfRoutes <$> caches.rc_holds (routesReceivedCache g) id
  | sources.RoutesFiltered id =>
      sources.OfRoutes <$> caches.rc_holds (routesFilteredCache g) id
  | sources.RoutesNotExported id =>
      sources.OfRoutes <$> caches.rc_holds (routesNotExportedCache g) id
  | _ => None
  end.

End gobgp.

(** ** Concrete surroundings, to run the sources on *)

Module examples.

Definition second : Duration := 1000000000.

(** A clock that advances by one second at each read. *)
Definition clock0 (n : nat) : Time := Z.of_nat n * second.

Definition w0 : World := {| ticks := 0; log := [] |}.

Definition route_a : api.Route :=
  {| api.ID := "a"; api.NeighborID := "n1"; api.Network := "10.0.0.0/8";
     api.Gateway := "192.0.2.1"; api.LargeCommunities := [] |}.

(** A route tagged with a reject community. *)
Definition route_b : api.Route :=
  {| api.ID := "b"; api.NeighborID := "n1"; api.Network := "172.16.0.0/12";
     api.Gateway := "192.0.2.1"; api.LargeCommunities := [(65000, 1, 7)] |}.

Definition neighbor (id : string) : api.Neighbor :=
  {| api.nID := id; api.Address := "192.0.2.1"; api.ASN := 64500;
     api.State := "up"; api.Description := ""; api.RouteServerID := "";
     api.RoutesReceived := 2; api.RoutesFiltered := 0;
     api.RoutesExported := 0; api.RoutesAccepted := 1; api.Uptime := 0 |}.

Module bgplgd.

Import openbgpd.

Definition cfg0 : Config :=
  {| cfg_ID := "rs1";
     CacheTTL := 5 * second;
     RoutesCacheSize := 2;
     RejectCommunities := [(Some 65000, Some 1, None)] |}.

(** [fmt.Sprintf] for the verb [%s]. *)
Fixpoint sprintf (format : string) (args : list string) : string :=
  match format with
  | String "%"%char (String "s"%char rest) =>
      match args with
      | a :: args => a +:+ sprintf rest args
      | [] => sprintf rest []
      end
  | String c rest => String c (sprintf rest args)
  | EmptyString => EmptyString
  end.

Definition url (path : string) (args : list string) : string :=
  "http://bgplgd" +:+ sprintf path args.

(** A backend that answers every request, with two neighbors and with
    the two routes for each of them. *)
Definition env0 : Env :=
  {| clock := clock0;
     APIURL := url;
     NewRequestWithContext := fun m u => inr {| Method := m; URL := u |};
     Do := fun _ req => inr (URL req);
     ReadJSONResponse := fun res => inr res;
     decodeNeighbors := fun _ => inr [neighbor "n1"; neighbor "n2"];
     decodeNeighborsStatus := fun _ => inr [];
     decodeRoutes := fun _ => inr (make_slice [route_a; route_b]) |}.

(** The same backend, refusing the RIB of neighbor [n2]. *)
Definition env_n2_down : Env :=
  {| clock := clock0;
     APIURL := url;
     NewRequestWithContext := fun m u => inr {| Method := m; URL := u |};
     Do := fun _ req =>
             if String.eqb (URL req) (url "/rib?neighbor=%s" ["n2"])
             then inl "connection refused"
             else inr (URL req);
     ReadJSONResponse := fun res => inr res;
     decodeNeighbors := fun _ => inr [neighbor "n1"; neighbor "n2"];
     decodeNeighborsStatus := fun _ => inr [];
     decodeRoutes := fun _ => inr (make_slice [route_a; route_b]) |}.

Definition s0 : St := {| this := NewBgplgdSource cfg0; world := w0 |}.

(** The state after [Routes("n1")], and after [RoutesReceived("n1")]. *)
Definition s_routes : St := (Routes env0 "n1" s0).2.
Definition s_received : St := (RoutesReceived env0 "n1" s0).2.

(** [s_routes], ten clock reads later: the cached entry has expired. *)
Definition s_routes_late : St :=
  with_world {| ticks := 10 + ticks (world s_routes);
                log := log (world s_routes) |} s_routes.

(** A configuration without caching, and a source made from it. *)
Definition cfg_uncached : Config :=
  {| cfg_ID := "rs1";
     CacheTTL := 0;
     RoutesCacheSize := 2;
     RejectCommunities := [(Some 65000, Some 1, None)] |}.

Definition s_uncached : St := {| this := NewBgplgdSource cfg_uncached; world := w0 |}.

End bgplgd.

Module gobgpd.

Import gobgpapi gobgp.

Definition cfg0 : Config :=
  {| cfg_ID := "rs2"; Host := "localhost:50051"; Insecure := true;
     ProcessingTimeout := 300 |}.

Definition family (received accepted advertised : Z) : option AfiSafi :=
  Some {| as_State := Some {| Received := received; Accepted := accepted;
                              Advertised := advertised |} |}.

(** An established peer with two address families, and an idle one. *)
Definition peer_a : Peer :=
  {| Conf := Some {| Description := "peer a" |};
     State := Some {| NeighborAddress := "192.0.2.1"; PeerAs := 64500;
                      SessionState := PeerState_ESTABLISHED |};
     p_Timers := Some {| t_State := Some {| Uptime := None |} |};
     AfiSafis := [family 10 8 3; family 5 5 1] |}.

Definition peer_b : Peer :=
  {| Conf := Some {| Description := "peer b" |};
     State := Some {| NeighborAddress := "192.0.2.2"; PeerAs := 64501;
                      SessionState := PeerState_IDLE |};
     p_Timers := Some {| t_State := Some {| Uptime := None |} |};
     AfiSafis := [] |}.

(** A peer as a server may send it without its timers. *)
Definition peer_c : Peer :=
  {| Conf := Some {| Description := "peer c" |};
     State := Some {| NeighborAddress := "192.0.2.3"; PeerAs := 64502;
                      SessionState := PeerState_ESTABLISHED |};
     p_Timers := None;
     AfiSafis := [family 1 1 0] |}.

Definition empty_response : api.RoutesResponse :=
  {| api.rr_Meta := None;
     api.Imported := make_slice [];
     api.Filtered := make_slice [];
     api.NotExported := make_slice [] |}.

(** A [GetRoutes] that reads one accepted and one filtered path for
    [peer_a] and fails for any other peer. *)
Definition get_routes (_ : World) (peer : Peer) (_ : TableType)
    (routes : api.RoutesResponse) : api.RoutesResponse * option error :=
  if String.eqb (address_of peer) "192.0.2.1"
  then ({| api.rr_Meta := api.rr_Meta routes;
           api.Imported := append (api.Imported routes) route_a;
           api.Filtered := append (api.Filtered routes) route_b;
           api.NotExported := api.NotExported routes |}, None)
  else (routes, Some "rpc error: deadline exceeded").

Definition env0 : Env :=
  {| clock := clock0;
     ListPeer := fun _ _ => inr [RecvMsg {| lp_Peer := Some peer_a |};
                                 RecvMsg {| lp_Peer := Some peer_b |}];
     GetBgp := fun _ => inr {| gb_Global := Some {| RouterId := "198.51.100.1" |} |};
     PeerHash := address_of;
     NewRoutesResponse := empty_response;
     lookupNeighbor := fun _ id =>
       if String.eqb id "192.0.2.1" then inr peer_a
       else inl "could not lookup neighbor";
     GetNeighbors := fun _ => inr [peer_b; peer_a];
     GetRoutes := get_routes |}.

(** The same, with a peer stream that breaks after the first peer. *)
Definition env_broken_stream : Env :=
  {| clock := clock0;
     ListPeer := fun _ _ => inr [RecvMsg {| lp_Peer := Some peer_a |};
                                 RecvErr "rpc error: transport is closing"];
     GetBgp := GetBgp env0;
     PeerHash := PeerHash env0;
     NewRoutesResponse := empty_response;
     lookupNeighbor := lookupNeighbor env0;
     GetNeighbors := GetNeighbors env0;
     GetRoutes := get_routes |}.

(** The same, with a second peer that comes without its timers. *)
Definition env_nil_timers : Env :=
  {| clock := clock0;
     ListPeer := fun _ _ => inr [RecvMsg {| lp_Peer := Some peer_a |};
                                 RecvMsg {| lp_Peer := Some peer_c |}];
     GetBgp := fun _ => inr {| gb_Global := None |};
     PeerHash := PeerHash env0;
     NewRoutesResponse := empty_response;
     lookupNeighbor := lookupNeighbor env0;
     GetNeighbors := GetNeighbors env0;
     GetRoutes := get_routes |}.

Definition s0 : St := {| this := NewGoBGP cfg0; world := w0 |}.

End gobgpd.

End examples.

(** ** Triples for the monad

    [hoare P c Q E]: run from a state of [P], [c] ends with a value and a
    state of [Q], or with an error or a panic in a state of [E]. *)

Definition hoare {S A} (P : S -> Prop) (c : M S A) (Q : A -> S -> Prop)
    (E : S -> Prop) : Prop :=
  forall s, P s ->
    match c s with
    | (Ok a, s') => Q a s'
    | (_, s') => E s'
    end.

(** [c] keeps the invariant [I], however it ends. *)
Definition keeps {S A} (I : S -> Prop) (c : M S A) : Prop :=
  hoare I c (fun _ => I) I.

(** ** The claims the code does not meet, as propositions *)

Module claims.

(** The sequences a call did not ask for are empty and not nil. *)
Definition unrequested_empty (c : sources.Call) (r : sources.Response) : Prop :=
  match c, r with
  | sources.RoutesReceived _, sources.OfRoutes r =>
      api.Filtered r = make_slice [] /\ api.NotExported r = make_slice []
  | sources.RoutesFiltered _, sources.OfRoutes r =>
      api.Imported r = make_slice [] /\ api.NotExported r = make_slice []
  | _, _ => True
  end.

(** A successful call of the streaming adapter leaves its response in the
    cache of the call. *)
Definition gobgp_stores (env : gobgp.Env) (c : sources.Call) (s : gobgp.St) : Prop :=
  forall r s',
    gobgp.call env c s = (Ok r, s') -> gobgp.stored c (gobgp.this s') = Some r.

(** An error of [GetRoutes] in the first round of the loop of [AllRoutes]
    is the error the call returns. *)
Definition gobgp_AllRoutes_aborts (env : gobgp.Env) (s : gobgp.St) : Prop :=
  forall peer rest routes1 e,
    gobgp.GetNeighbors env (gobgp.world s) = inr (peer :: rest) ->
    gobgp.GetRoutes env
      (gobgp.world (gobgp.record (EvRpc "GetNeighbors" "") s))
      peer gobgpapi.TableType_ADJ_IN (gobgp.NewRoutesResponse env)
    = (routes1, Some e) ->
    exists s', gobgp.AllRoutes env s = (Err e, s').

End claims.

(** ** Further notions, for the properties beyond the claims *)

Module more.

(** The arguments of the calls named [name] among the events [l], in
    order. *)
Definition calls_of (name : string) (l : list Event) : list string :=
  flat_map (fun ev =>
              match ev with
              | EvRpc c a => if String.eqb c name then [a] else []
              | _ => []
              end) l.

(** The states of the address families of a peer, when every family
    and its state are there. *)
Fixpoint states_of (families : list (option gobgpapi.AfiSafi))
  : option (list gobgpapi.AfiSafiState) :=
  match families with
  | [] => Some []
  | Some {| gobgpapi.as_State := Some state |} :: rest =>
      match states_of rest with
      | Some states => Some (state :: states)
      | None => None
      end
  | _ :: _ => None
  end.

(** The message has the nested messages [NeighborsStatus] reads: the
    peer, its state, its timers and their state. *)
Definition complete_status (m : gobgpapi.ListPeerResponse) : bool :=
  match gobgpapi.lp_Peer m with
  | Some peer =>
      match gobgpapi.State peer, gobgpapi.p_Timers peer with
      | Some _, Some timers =>
          match gobgpapi.t_State timers with Some _ => true | None => false end
      | _, _ => false
      end
  | None => false
  end.

(** The message has the nested messages [Neighbors] reads: those of
    [NeighborsStatus], the configuration of the peer, and every address
    family with its state. *)
Definition complete (m : gobgpapi.ListPeerResponse) : bool :=
  complete_status m &&
  match gobgpapi.lp_Peer m with
  | Some peer =>
      match gobgpapi.Conf peer, states_of (gobgpapi.AfiSafis peer) with
      | Some _, Some _ => true
      | _, _ => false
      end
  | None => false
  end.

(** Every [Recv] before [io.EOF] delivered a message that satisfies
    [ok]. *)
Definition delivers (ok : gobgpapi.ListPeerResponse -> bool)
    (stream : list gobgpapi.Recv) : bool :=
  forallb (fun r => match r with
                    | gobgpapi.RecvMsg m => ok m
                    | gobgpapi.RecvErr _ => false
                    end) stream.

(** What the loop over the address families leaves in [RoutesFiltered]:
    the excess of received over accepted of each family, counted once
    for the family itself and once for every family after it. *)
Fixpoint running_excess (families : list gobgpapi.AfiSafiState) : Z :=
  match families with
  | [] => 0
  | f :: rest =>
      (1 + Z.of_nat (length rest)) * (gobgpapi.Received f - gobgpapi.Accepted f)
      + running_excess rest
  end.

(** The states a gobgp source gets into: made by [NewGoBGP], then any
    calls of the interface, of [LookupPrefix] and of [ExpireCaches]. *)
Inductive gobgp_reachable (env : gobgp.Env) : gobgp.St -> Prop :=
| gobgp_reachable_new config w :
    gobgp_reachable env {| gobgp.this := gobgp.NewGoBGP config; gobgp.world := w |}
| gobgp_reachable_call c s :
    gobgp_reachable env s -> gobgp_reachable env (gobgp.call env c s).2
| gobgp_reachable_LookupPrefix prefix s :
    gobgp_reachable env s -> gobgp_reachable env (gobgp.LookupPrefix prefix s).2
| gobgp_reachable_ExpireCaches s :
    gobgp_reachable env s -> gobgp_reachable env (gobgp.ExpireCaches env s).2.

(** Whether an outcome is a panic. *)
Definition panics {A} (o : Outcome A) : bool :=
  match o with Panic _ => true | _ => false end.

(** Run from a state of [I], [c] does not panic. *)
Definition calm {S A} (I : S -> Prop) (c : M S A) : Prop :=
  forall s, I s -> panics (c s).1 = false.

(** The caches a call of the openbgpd source goes through: its own, and
    for [Neighbors] also the cache of [RoutesFiltered], which its loop
    calls. *)
Definition writes_nc (c : sources.Call) (f : openbgpd.NField) : bool :=
  match c, f with
  | sources.Neighbors, openbgpd.FNeighbors => true
  | sources.NeighborsSummary, openbgpd.FNeighborsSummary => true
  | _, _ => false
  end.

Definition writes_rc (c : sources.Call) (f : openbgpd.RField) : bool :=
  match c, f with
  | sources.Routes _, openbgpd.FRoutes => true
  | sources.RoutesReceived _, openbgpd.FRoutesReceived => true
  | sources.RoutesFiltered _, openbgpd.FRoutesFiltered => true
  | sources.Neighbors, openbgpd.FRoutesFiltered => true
  | _, _ => false
  end.

(** The source [src] is [src0] but for the caches the call [c] goes
    through. *)
Definition frame (c : sources.Call) (src0 src : openbgpd.BgplgdSource) : Prop :=
  openbgpd.cfg src = openbgpd.cfg src0 /\
  (forall f, writes_nc c f = false -> openbgpd.get_nc f src = openbgpd.get_nc f src0) /\
  (forall f, writes_rc c f = false -> openbgpd.get_rc f src = openbgpd.get_rc f src0).

(** The envelope of a response the openbgpd source built in a call that
    started at the clock read [t0], with the time-to-live [ttl]. *)
Definition fresh_envelope (env : openbgpd.Env) (t0 : nat) (ttl : Duration)
    (m : api.Meta) : Prop :=
  api.Version m = openbgpd.BgplgdSourceVersion /\
  api.ResultFromCache m = false /\
  openbgpd.clock env t0 <= api.CachedAt m /\
  api.CachedAt m + ttl <= api.TTL m.

(** The states of a call that started at the clock read [t0] with the
    configuration [cf]. *)
Definition started (cf : openbgpd.Config) (t0 : nat) (st : openbgpd.St) : Prop :=
  openbgpd.cfg (openbgpd.this st) = cf /\ (t0 <= ticks (openbgpd.world st))%nat.

(** The response [r] has the envelope of such a call. *)
Definition fresh {A} (env : openbgpd.Env) (t0 : nat) (ttl : Duration)
    (meta : A -> option api.Meta) (r : A) (st : openbgpd.St) : Prop :=
  exists m, meta r = Some m /\ fresh_envelope env t0 ttl m.

(** The loop of [Neighbors] of the openbgpd source, round by round:
    from the state [s], the decoded neighbors [nb] become [nb'] and the
    state [s'].  Each round calls [RoutesFiltered] for the ID of its
    neighbor in the state the round before left, and sets
    [RoutesFiltered] of the neighbor to the number of routes that call
    returned as filtered, and [RouteServerID] to [id]. *)
Inductive enriched (env : openbgpd.Env) (id : string)
  : openbgpd.St -> list api.Neighbor -> list api.Neighbor -> openbgpd.St -> Prop :=
| enriched_nil s : enriched env id s [] [] s
| enriched_cons s n rest rejectedRes s1 rest' s2 :
    openbgpd.RoutesFiltered env (api.nID n) s = (Ok rejectedRes, s1) ->
    enriched env id s1 rest rest' s2 ->
    enriched env id s (n :: rest)
      (openbgpd.set_RoutesFiltered (len (api.Filtered rejectedRes))
         (openbgpd.set_RouteServerID id n) :: rest') s2.

(** The neighbor [n] of a response is built from the peer of the message
    [m], whose nested messages are there. *)
Definition built_from (env : gobgp.Env) (id : string)
    (m : gobgpapi.ListPeerResponse) (n : api.Neighbor) : Prop :=
  exists peer state conf timers timersState,
    gobgpapi.lp_Peer m = Some peer /\
    gobgpapi.State peer = Some state /\
    gobgpapi.Conf peer = Some conf /\
    gobgpapi.p_Timers peer = Some timers /\
    gobgpapi.t_State timers = Some timersState /\
    api.nID n = gobgp.PeerHash env peer /\
    api.Address n = gobgpapi.NeighborAddress state /\
    api.ASN n = gobgpapi.PeerAs state /\
    api.Description n = gobgpapi.Description conf /\
    api.RouteServerID n = id /\
    (api.State n = "up" <->
     gobgpapi.SessionState state = gobgpapi.PeerState_ESTABLISHED) /\
    (api.State n = "up" \/ api.State n = "down") /\
    (gobgpapi.Uptime timersState = None -> api.Uptime n = 0).

End more.

(** * Proofs *)

(** ** The monad *)

Section MonadLemmas.

Context {S A B : Type}.
Implicit Types (c : M S A) (k : A -> M S B).

Lemma bind_Ok_inv c k s b s' :
  bind c k s = (Ok b, s') ->
  exists a s1, c s = (Ok a, s1) /\ k a s1 = (Ok b, s').
Proof.
  unfold bind. destruct (c s) as [[a | e | r] s1]; intros H; try discriminate.
  exists a, s1. split; [reflexivity | exact H].
Qed.

Lemma bind_run_Ok c k s a s1 :
  c s = (Ok a, s1) -> bind c k s = k a s1.
Proof. intros H. unfold bind. now rewrite H. Qed.

Lemma bind_run_Err c k s e s1 :
  c s = (Err e, s1) -> bind c k s = (Err e, s1).
Proof. intros H. unfold bind. now rewrite H. Qed.

End MonadLemmas.

Lemma lift_Ok_inv {S A} (r : error + A) (s : S) a s' :
  lift r s = (Ok a, s') -> r = inr a /\ s' = s.
Proof.
  destruct r as [e | x]; cbn; intros H; inversion H; subst; auto.
Qed.

Lemma mapM_Ok_inv {S A B} (f : A -> B) (c : M S A) s b s' :
  mapM f c s = (Ok b, s') -> exists a, c s = (Ok a, s') /\ b = f a.
Proof.
  unfold mapM. intros H. apply bind_Ok_inv in H as (a & s1 & Hc & Hr).
  inversion Hr; subst. eauto.
Qed.

(** ** The caches *)

Section CacheLemmas.

Import caches.

Variable P : api.RoutesResponse -> bool.

Lemma rc_all_lookup (c : RoutesCache) :
  openbgpd.rc_all P c = true <->
  forall k e, rc_entries c !! k = Some e -> P (value (entry e)) = true.
Proof.
  unfold openbgpd.rc_all. rewrite forallb_forall. split.
  - intros H k e Hk. apply (H (k, e)).
    apply list_elem_of_In, elem_of_map_to_list. exact Hk.
  - intros H [k e] Hin. apply (H k).
    apply elem_of_map_to_list, list_elem_of_In. exact Hin.
Qed.

Lemma rc_all_with_entries m (c : RoutesCache) :
  openbgpd.rc_all P (with_entries m c) = true <->
  forall k e, m !! k = Some e -> P (value (entry e)) = true.
Proof. apply rc_all_lookup. Qed.

Lemma rc_Get_value now key (c : RoutesCache) r :
  (rc_Get now key c).1 = Some r -> rc_holds c key = Some r.
Proof.
  unfold rc_Get, rc_holds. destruct (rc_disabled c); [discriminate |].
  destruct (rc_entries c !! key) as [e |]; [| discriminate].
  destruct (expired now (entry e)); [discriminate |].
  cbn. intros H. exact H.
Qed.

Lemma rc_all_holds (c : RoutesCache) key r :
  openbgpd.rc_all P c = true -> rc_holds c key = Some r -> P r = true.
Proof.
  rewrite rc_all_lookup. unfold rc_holds. intros H Hr.
  destruct (rc_entries c !! key) as [e |] eqn:He; [| discriminate].
  inversion Hr; subst. eapply H, He.
Qed.

Lemma rc_all_Get now key (c : RoutesCache) :
  openbgpd.rc_all P c = true -> openbgpd.rc_all P (rc_Get now key c).2 = true.
Proof.
  intros H. unfold rc_Get. destruct (rc_disabled c); [exact H |].
  destruct (rc_entries c !! key) as [e |] eqn:He; [| exact H].
  destruct (expired now (entry e)); [exact H |].
  cbn. apply rc_all_with_entries. intros k e' Hk.
  rewrite rc_all_lookup in H.
  destruct (decide (key = k)) as [-> | Hne].
  - rewrite lookup_insert_eq in Hk. inversion Hk; subst. cbn. eapply H, He.
  - rewrite lookup_insert_ne in Hk by exact Hne. eapply H, Hk.
Qed.

Lemma rc_all_Set now key v (c : RoutesCache) :
  openbgpd.rc_all P c = true -> P v = true ->
  openbgpd.rc_all P (rc_Set now key v c) = true.
Proof.
  intros H Hv. unfold rc_Set. destruct (rc_disabled c); [exact H |].
  rewrite rc_all_lookup in H.
  apply rc_all_with_entries. intros k e Hk.
  destruct (decide (key = k)) as [-> | Hne].
  - rewrite lookup_insert_eq in Hk. inversion Hk; subst. exact Hv.
  - rewrite lookup_insert_ne in Hk by exact Hne.
    destruct (rc_size c <=? Z.of_nat (size (rc_entries c))); [| eapply H, Hk].
    destruct (lru (rc_entries c)) as [old |]; [| eapply H, Hk].
    destruct (decide (old = k)) as [-> | Hne'].
    + rewrite lookup_delete_eq in Hk. discriminate.
    + rewrite lookup_delete_ne in Hk by exact Hne'. eapply H, Hk.
Qed.

Lemma rc_all_write key v (c : RoutesCache) :
  openbgpd.rc_all P c = true -> P v = true ->
  openbgpd.rc_all P (rc_write key v c) = true.
Proof.
  intros H Hv. rewrite rc_all_lookup in H.
  apply rc_all_with_entries. intros k e Hk.
  apply lookup_alter_Some in Hk as [(_ & e0 & _ & ->) | (_ & Hk)].
  - exact Hv.
  - eapply H, Hk.
Qed.

Lemma rc_all_Expire now (c : RoutesCache) :
  openbgpd.rc_all P c = true -> openbgpd.rc_all P (rc_Expire now c).2 = true.
Proof.
  intros H. rewrite rc_all_lookup in H.
  apply rc_all_with_entries. intros k e Hk.
  apply map_lookup_filter_Some in Hk as [Hk _]. eapply H, Hk.
Qed.

End CacheLemmas.

Lemma rc_Get_miss now key (c : caches.RoutesCache) :
  (caches.rc_Get now key c).1 = None -> (caches.rc_Get now key c).2 = c.
Proof.
  unfold caches.rc_Get. destruct (caches.rc_disabled c); [reflexivity |].
  destruct (caches.rc_entries c !! key) as [e |]; [| reflexivity].
  destruct (caches.expired now (caches.entry e)); [reflexivity | discriminate].
Qed.

Lemma rc_Get_disabled now key (c : caches.RoutesCache) :
  caches.rc_disabled (caches.rc_Get now key c).2 = caches.rc_disabled c.
Proof.
  unfold caches.rc_Get. destruct (caches.rc_disabled c) eqn:Hd; [exact Hd |].
  destruct (caches.rc_entries c !! key) as [e |]; [| exact Hd].
  destruct (caches.expired now (caches.entry e)); [exact Hd | exact Hd].
Qed.

(** After [Set(key, v)] on an enabled cache, the cache holds [v] for
    [key]. *)
Lemma rc_Set_holds now key v (c : caches.RoutesCache) :
  caches.rc_disabled c = false ->
  caches.rc_holds (caches.rc_Set now key v c) key = Some v.
Proof.
  intros Hd. unfold caches.rc_Set, caches.rc_holds. rewrite Hd. cbn.
  rewrite lookup_insert_eq. reflexivity.
Qed.

Lemma nc_Set_holds now v (c : caches.NeighborsCache) :
  caches.nc_disabled c = false ->
  caches.nc_holds (caches.nc_Set now v c) = Some v.
Proof.
  intros Hd. unfold caches.nc_Set, caches.nc_holds. rewrite Hd. reflexivity.
Qed.

Lemma nc_Get_value now (c : caches.NeighborsCache) r :
  caches.nc_Get now c = Some r -> caches.nc_holds c = Some r.
Proof.
  unfold caches.nc_Get, caches.nc_holds. destruct (caches.nc_disabled c); [discriminate |].
  destruct (caches.nc_slot c) as [e |]; [| discriminate].
  destruct (caches.expired now e); [discriminate |]. cbn. intros H; exact H.
Qed.

Lemma nc_all_holds P (c : caches.NeighborsCache) r :
  openbgpd.nc_all P c = true -> caches.nc_holds c = Some r -> P r = true.
Proof.
  unfold openbgpd.nc_all, caches.nc_holds.
  destruct (caches.nc_slot c) as [e |]; cbn; [| discriminate].
  intros H Hr. inversion Hr; subst. exact H.
Qed.

Lemma nc_all_Set P now v (c : caches.NeighborsCache) :
  openbgpd.nc_all P c = true -> P v = true ->
  openbgpd.nc_all P (caches.nc_Set now v c) = true.
Proof.
  intros H Hv. unfold caches.nc_Set. destruct (caches.nc_disabled c); [exact H |].
  exact Hv.
Qed.

Lemma nc_all_write P v (c : caches.NeighborsCache) :
  openbgpd.nc_all P c = true -> P v = true ->
  openbgpd.nc_all P (caches.nc_write v c) = true.
Proof.
  intros H Hv. unfold caches.nc_write, openbgpd.nc_all. cbn.
  destruct (caches.nc_slot c); [exact Hv | reflexivity].
Qed.

(** ** Rules for the triples *)

Section HoareRules.

Context {S : Type}.
Implicit Types (P E : S -> Prop).

Lemma hoare_ret {A} P (a : A) (Q : A -> S -> Prop) E :
  (forall s, P s -> Q a s) -> hoare P (ret a) Q E.
Proof. intros H s Hs. cbn. auto. Qed.

Lemma hoare_fail {A} P e (Q : A -> S -> Prop) E :
  (forall s, P s -> E s) -> hoare P (fail e) Q E.
Proof. intros H s Hs. cbn. auto. Qed.

Lemma hoare_panic {A} P r (Q : A -> S -> Prop) E :
  (forall s, P s -> E s) -> hoare P (panic r) Q E.
Proof. intros H s Hs. cbn. auto. Qed.

Lemma hoare_lift {A} P (r : error + A) (Q : A -> S -> Prop) E :
  (forall s, P s -> E s) -> (forall a s, P s -> Q a s) -> hoare P (lift r) Q E.
Proof. intros HE HQ. destruct r; [apply hoare_fail | apply hoare_ret]; auto. Qed.

Lemma hoare_gets {A} P (f : S -> A) (Q : A -> S -> Prop) E :
  (forall s, P s -> Q (f s) s) -> hoare P (gets f) Q E.
Proof. intros H s Hs. cbn. auto. Qed.

Lemma hoare_modify P (f : S -> S) (Q : unit -> S -> Prop) E :
  (forall s, P s -> Q tt (f s)) -> hoare P (modify f) Q E.
Proof. intros H s Hs. cbn. auto. Qed.

Lemma hoare_bind {A B} P (c : M S A) (k : A -> M S B) Q1 Q E :
  hoare P c Q1 E -> (forall a, hoare (Q1 a) (k a) Q E) -> hoare P (bind c k) Q E.
Proof.
  intros Hc Hk s Hs. specialize (Hc s Hs). unfold bind.
  destruct (c s) as [[a | e | r] s1]; [| exact Hc | exact Hc].
  apply Hk. exact Hc.
Qed.

Lemma hoare_conseq {A} P P' (c : M S A) (Q Q' : A -> S -> Prop) E :
  hoare P' c Q' E -> (forall s, P s -> P' s) -> (forall a s, Q' a s -> Q a s) ->
  hoare P c Q E.
Proof.
  intros Hc HP HQ s Hs. specialize (Hc s (HP s Hs)).
  destruct (c s) as [[a | e | r] s1]; auto.
Qed.

Lemma hoare_assume {A} P (phi : Prop) (c : M S A) (Q : A -> S -> Prop) E :
  (phi -> hoare P c Q E) -> hoare (fun s => P s /\ phi) c Q E.
Proof. intros H s [Hs Hphi]. apply H; assumption. Qed.

Lemma hoare_Ok {A} P (c : M S A) Q E s a s' :
  hoare P c Q E -> P s -> c s = (Ok a, s') -> Q a s'.
Proof. intros Hc Hs Hrun. specialize (Hc s Hs). now rewrite Hrun in Hc. Qed.

Lemma keeps_run {A} (I : S -> Prop) (c : M S A) s :
  keeps I c -> I s -> I (c s).2.
Proof.
  intros Hc Hs. specialize (Hc s Hs). destruct (c s) as [[a | e | r] s1]; exact Hc.
Qed.

Lemma keeps_Ok {A} (I : S -> Prop) (c : M S A) s a s' :
  keeps I c -> c s = (Ok a, s') -> I s -> I s'.
Proof. intros Hc Hrun Hs. exact (hoare_Ok _ _ _ _ _ _ _ Hc Hs Hrun). Qed.

Lemma keeps_bind {A B} (I : S -> Prop) (c : M S A) (k : A -> M S B) :
  keeps I c -> (forall a, keeps I (k a)) -> keeps I (bind c k).
Proof. intros Hc Hk. eapply hoare_bind; [exact Hc | exact Hk]. Qed.

Lemma keeps_mapM {A B} (I : S -> Prop) (f : A -> B) (c : M S A) :
  keeps I c -> keeps I (mapM f c).
Proof.
  intros Hc. apply keeps_bind; [exact Hc |]. intros a. apply hoare_ret. auto.
Qed.

Lemma keeps_weaken {A} (I : S -> Prop) (c : M S A) Q :
  hoare I c Q I -> (forall a s, Q a s -> I s) -> keeps I c.
Proof. intros Hc HQ. eapply hoare_conseq; [exact Hc | auto | exact HQ]. Qed.

End HoareRules.

(** ** The openbgpd source: invariants that the cache writes respect *)

Section BgplgdFrames.

Import openbgpd.

Variable env : Env.
Variable I : St -> Prop.

Hypothesis I_tick : forall s, I s -> I (tick s).
Hypothesis I_log : forall s ev,
  I s -> I (with_world {| ticks := ticks (world s); log := log (world s) ++ [ev] |} s).
Hypothesis I_set_rc : forall f c s, I s -> I (with_this (set_rc f c (this s)) s).

Lemma keeps_time_Now : keeps I (time_Now env).
Proof. intros s Hs. cbn. auto. Qed.

Lemma keeps_http_Do req : keeps I (http_Do env req).
Proof.
  intros s Hs. unfold http_Do. destruct (Do env (world s) req); apply I_log, Hs.
Qed.

Lemma keeps_lift {A} (r : error + A) : keeps I (lift r).
Proof. apply hoare_lift; auto. Qed.

Lemma keeps_gets {A} (f : St -> A) : keeps I (gets f).
Proof. apply hoare_gets; auto. Qed.

Lemma keeps_ret {A} (a : A) : keeps I (ret a).
Proof. apply hoare_ret; auto. Qed.

Lemma keeps_makeResponseMeta : keeps I (makeResponseMeta env).
Proof.
  unfold makeResponseMeta.
  apply keeps_bind; [apply keeps_time_Now | intros t1].
  apply keeps_bind; [apply keeps_time_Now | intros t2].
  apply keeps_bind; [apply keeps_gets | intros ttl].
  apply keeps_ret.
Qed.

Lemma keeps_fetch_routes (req : M St Request) :
  keeps I req -> keeps I (fetch_routes env req).
Proof.
  intros Hreq. unfold fetch_routes.
  apply keeps_bind; [exact Hreq | intros r].
  apply keeps_bind; [apply keeps_http_Do | intros res].
  apply keeps_bind; [apply keeps_lift | intros body].
  apply keeps_lift.
Qed.

Lemma keeps_fetch_neighbors : keeps I (fetch_neighbors env).
Proof.
  unfold fetch_neighbors.
  apply keeps_bind; [apply keeps_lift | intros r].
  apply keeps_bind; [apply keeps_http_Do | intros res].
  apply keeps_bind; [apply keeps_lift | intros body].
  apply keeps_lift.
Qed.

Lemma keeps_RoutesCache_Get f key : keeps I (RoutesCache_Get env f key).
Proof.
  unfold RoutesCache_Get.
  apply keeps_bind; [apply keeps_time_Now | intros now].
  intros s Hs. destruct (caches.rc_Get now key (get_rc f (this s))) as [r c].
  apply I_set_rc, Hs.
Qed.

Lemma keeps_RoutesCache_Set f key v : keeps I (RoutesCache_Set env f key v).
Proof.
  unfold RoutesCache_Set.
  apply keeps_bind; [apply keeps_time_Now | intros now].
  apply hoare_modify. intros s Hs. apply I_set_rc, Hs.
Qed.

Lemma keeps_RoutesCache_Expire f : keeps I (RoutesCache_Expire env f).
Proof.
  unfold RoutesCache_Expire.
  apply keeps_bind; [apply keeps_time_Now | intros now].
  intros s Hs. destruct (caches.rc_Expire now (get_rc f (this s))) as [n c].
  apply I_set_rc, Hs.
Qed.

Lemma keeps_routes_hit f key r : keeps I (routes_hit f key r).
Proof.
  unfold routes_hit. destruct (api.rr_Meta r) as [m |].
  - apply keeps_bind; [| intros []; apply keeps_ret].
    apply hoare_modify. intros s Hs. apply I_set_rc, Hs.
  - apply hoare_panic; auto.
Qed.

Lemma keeps_routes_method f neighborID : keeps I (routes_method env f neighborID).
Proof.
  assert (Hreq : keeps I (ShowNeighborRIBRequest env neighborID))
    by apply keeps_lift.
  destruct f; cbn [routes_method]; unfold Routes, RoutesReceived, RoutesFiltered;
    (apply keeps_bind; [apply keeps_RoutesCache_Get | intros [response |]];
     [apply keeps_routes_hit |];
     apply keeps_bind; [apply keeps_fetch_routes, Hreq | intros routes];
     apply keeps_bind; [apply keeps_gets | intros rc];
     apply keeps_bind; [apply keeps_makeResponseMeta | intros meta];
     apply keeps_bind; [apply keeps_RoutesCache_Set | intros []];
     apply keeps_ret).
Qed.

Lemma keeps_Neighbors_loop nb : keeps I (Neighbors_loop env nb).
Proof.
  induction nb as [| n rest IH]; cbn [Neighbors_loop].
  - apply keeps_ret.
  - apply keeps_bind; [apply keeps_gets | intros id].
    apply keeps_bind; [apply (keeps_routes_method FRoutesFiltered) | intros rejectedRes].
    apply keeps_bind; [exact IH | intros rest'].
    apply keeps_ret.
Qed.

Lemma keeps_NeighborsSummary_loop nb : keeps I (NeighborsSummary_loop nb).
Proof.
  induction nb as [| n rest IH]; cbn [NeighborsSummary_loop].
  - apply keeps_ret.
  - apply keeps_bind; [apply keeps_gets | intros id].
    apply keeps_bind; [exact IH | intros rest'].
    apply keeps_ret.
Qed.

Lemma keeps_neighbors_loop f nb : keeps I (neighbors_loop env f nb).
Proof.
  destruct f; [apply keeps_Neighbors_loop | apply keeps_NeighborsSummary_loop].
Qed.

End BgplgdFrames.

(** ** The openbgpd source: the invariant of the caches *)

Section BgplgdInvariant.

Import openbgpd.

Variable env : Env.

Lemma wf_get_rc f src : wf src = true -> rc_all (shape f) (get_rc f src) = true.
Proof.
  unfold wf. rewrite !andb_true_iff. intros [[[[H1 H2] H3] H4] H5].
  destruct f; assumption.
Qed.

Lemma wf_get_nc f src : wf src = true -> nc_all neighbors_ok (get_nc f src) = true.
Proof.
  unfold wf. rewrite !andb_true_iff. intros [[[[H1 H2] H3] H4] H5].
  destruct f; assumption.
Qed.

Lemma wf_set_rc f c src :
  wf src = true -> rc_all (shape f) c = true -> wf (set_rc f c src) = true.
Proof.
  unfold wf. rewrite !andb_true_iff. intros [[[[H1 H2] H3] H4] H5] Hc.
  destruct f; cbn; auto.
Qed.

Lemma wf_set_nc f c src :
  wf src = true -> nc_all neighbors_ok c = true -> wf (set_nc f c src) = true.
Proof.
  unfold wf. rewrite !andb_true_iff. intros [[[[H1 H2] H3] H4] H5] Hc.
  destruct f; cbn; auto.
Qed.

(** A new source holds nothing. *)
Lemma wf_NewBgplgdSource cfg : wf (NewBgplgdSource cfg) = true.
Proof. reflexivity. Qed.

Lemma wf_tick s : wf_state s -> wf_state (tick s).
Proof. intros H; exact H. Qed.

Lemma wf_log s ev :
  wf_state s ->
  wf_state (with_world {| ticks := ticks (world s); log := log (world s) ++ [ev] |} s).
Proof. intros H; exact H. Qed.

Lemma shape_flagged f r m :
  api.rr_Meta r = Some m ->
  shape f {| api.rr_Meta := Some (api.set_ResultFromCache true m);
             api.Imported := api.Imported r;
             api.Filtered := api.Filtered r;
             api.NotExported := api.NotExported r |} = shape f r.
Proof.
  intros Hm. destruct f; unfold shape, routes_ok, received_ok, filtered_ok; cbn;
    rewrite Hm; reflexivity.
Qed.

Lemma shape_routes_response f rc routes meta :
  shape f (routes_response f rc routes meta) = true.
Proof. destruct f; reflexivity. Qed.

Lemma wf_RoutesCache_Get f key :
  hoare wf_state (RoutesCache_Get env f key)
    (fun r s' => wf_state s' /\ forall x, r = Some x -> shape f x = true)
    wf_state.
Proof.
  unfold RoutesCache_Get.
  eapply hoare_bind; [apply keeps_time_Now, wf_tick | intros now].
  intros s Hs.
  pose proof (wf_get_rc f _ Hs) as Hc.
  pose proof (rc_all_Get _ now key _ Hc) as Hc'.
  pose proof (rc_Get_value now key (get_rc f (this s))) as Hv.
  destruct (caches.rc_Get now key (get_rc f (this s))) as [r c]. cbn in *.
  split.
  - apply wf_set_rc; assumption.
  - intros x ->. eapply rc_all_holds; [exact Hc | apply Hv; reflexivity].
Qed.

Lemma wf_RoutesCache_Set f key v :
  shape f v = true -> keeps wf_state (RoutesCache_Set env f key v).
Proof.
  intros Hv. unfold RoutesCache_Set.
  apply keeps_bind; [apply keeps_time_Now, wf_tick | intros now].
  apply hoare_modify. intros s Hs. apply wf_set_rc; [exact Hs |].
  apply rc_all_Set; [apply wf_get_rc, Hs | exact Hv].
Qed.

Lemma wf_routes_hit f key r :
  shape f r = true ->
  hoare wf_state (routes_hit f key r)
    (fun r' s' => wf_state s' /\ shape f r' = true) wf_state.
Proof.
  intros Hr. unfold routes_hit. destruct (api.rr_Meta r) as [m |] eqn:Hm.
  - pose proof (shape_flagged f r m Hm) as Hfl. rewrite Hr in Hfl.
    eapply hoare_bind with (Q1 := fun _ => wf_state).
    + apply hoare_modify. intros s Hs. apply wf_set_rc; [exact Hs |].
      apply rc_all_write; [apply wf_get_rc, Hs | exact Hfl].
    + intros []. apply hoare_ret. intros s Hs. split; [exact Hs | exact Hfl].
  - apply hoare_panic. auto.
Qed.

(** Every routes method keeps the invariant and returns a response of
    the shape of its cache. *)
Lemma wf_routes_method f neighborID :
  hoare wf_state (routes_method env f neighborID)
    (fun r s' => wf_state s' /\ shape f r = true) wf_state.
Proof.
  assert (Hmiss : forall k : api.Routes -> M St api.RoutesResponse,
            (forall routes, hoare wf_state (k routes)
               (fun r s' => wf_state s' /\ shape f r = true) wf_state) ->
            hoare wf_state
              (routes <- fetch_routes env (ShowNeighborRIBRequest env neighborID) ;;
               k routes)
              (fun r s' => wf_state s' /\ shape f r = true) wf_state).
  { intros k Hk. eapply hoare_bind; [| exact Hk].
    apply keeps_fetch_routes; [apply wf_log |].
    apply keeps_lift. }
  assert (Hbuild : forall rc routes,
            hoare wf_state
              (meta <- makeResponseMeta env ;;
               (RoutesCache_Set env f neighborID (routes_response f rc routes meta) ;;;
                ret (routes_response f rc routes meta)))
              (fun r s' => wf_state s' /\ shape f r = true) wf_state).
  { intros rc routes.
    eapply hoare_bind; [apply keeps_makeResponseMeta, wf_tick | intros meta].
    eapply hoare_bind;
      [apply wf_RoutesCache_Set, shape_routes_response | intros []].
    apply hoare_ret. intros s Hs. split; [exact Hs | apply shape_routes_response]. }
  destruct f; cbn [routes_method]; unfold Routes, RoutesReceived, RoutesFiltered;
    (eapply hoare_bind; [apply wf_RoutesCache_Get | intros [response |]];
     [ apply hoare_assume; intros Hx; apply wf_routes_hit, Hx; reflexivity
     | apply hoare_assume; intros _; apply Hmiss; intros routes;
       eapply hoare_bind; [apply keeps_gets | intros rc; apply Hbuild] ]).
Qed.

Lemma wf_Neighbors_loop nb : keeps wf_state (Neighbors_loop env nb).
Proof.
  induction nb as [| n rest IH]; cbn [Neighbors_loop].
  - apply hoare_ret. auto.
  - apply keeps_bind; [apply keeps_gets | intros id].
    apply keeps_bind; [| intros rejectedRes].
    + eapply keeps_weaken; [apply (wf_routes_method FRoutesFiltered) |].
      intros a s [Hs _]. exact Hs.
    + apply keeps_bind; [exact IH | intros rest'].
      apply hoare_ret. auto.
Qed.

Lemma wf_neighbors_loop f nb : keeps wf_state (neighbors_loop env f nb).
Proof.
  destruct f; [apply wf_Neighbors_loop |].
  apply keeps_NeighborsSummary_loop.
Qed.

Lemma wf_NeighborsCache_Get f :
  hoare wf_state (NeighborsCache_Get env f)
    (fun r s' => wf_state s' /\ forall x, r = Some x -> neighbors_ok x = true)
    wf_state.
Proof.
  unfold NeighborsCache_Get.
  eapply hoare_bind; [apply keeps_time_Now, wf_tick | intros now].
  apply hoare_gets. intros s Hs. split; [exact Hs |].
  intros x Hx. eapply nc_all_holds; [apply wf_get_nc, Hs |].
  eapply nc_Get_value, Hx.
Qed.

Lemma wf_NeighborsCache_Set f v :
  neighbors_ok v = true -> keeps wf_state (NeighborsCache_Set env f v).
Proof.
  intros Hv. unfold NeighborsCache_Set.
  apply keeps_bind; [apply keeps_time_Now, wf_tick | intros now].
  apply hoare_modify. intros s Hs. apply wf_set_nc; [exact Hs |].
  apply nc_all_Set; [apply wf_get_nc, Hs | exact Hv].
Qed.

Lemma wf_neighbors_hit f r :
  neighbors_ok r = true -> keeps wf_state (neighbors_hit f r).
Proof.
  intros Hr. unfold neighbors_hit. destruct (api.nr_Meta r) as [m |].
  - apply keeps_bind; [| intros []; apply hoare_ret; auto].
    apply hoare_modify. intros s Hs. apply wf_set_nc; [exact Hs |].
    apply nc_all_write; [apply wf_get_nc, Hs | reflexivity].
  - apply hoare_panic. auto.
Qed.

Lemma neighbors_method_eq f :
  neighbors_method env f =
  (response <- NeighborsCache_Get env f ;;
   match response with
   | Some response => neighbors_hit f response
   | None =>
       nb <- fetch_neighbors env ;;
       nb <- neighbors_loop env f nb ;;
       meta <- makeResponseMeta env ;;
       let response := {| api.nr_Meta := Some meta; api.Neighbors := nb |} in
       NeighborsCache_Set env f response ;;;
       ret response
   end).
Proof. destruct f; reflexivity. Qed.

Lemma routes_method_eq f neighborID :
  routes_method env f neighborID =
  (response <- RoutesCache_Get env f neighborID ;;
   match response with
   | Some response => routes_hit f neighborID response
   | None =>
       routes <- fetch_routes env (ShowNeighborRIBRequest env neighborID) ;;
       rejectCommunities <- gets (fun s => RejectCommunities (cfg (this s))) ;;
       meta <- makeResponseMeta env ;;
       let response := routes_response f rejectCommunities routes meta in
       RoutesCache_Set env f neighborID response ;;;
       ret response
   end).
Proof. destruct f; reflexivity. Qed.

Lemma wf_neighbors_method f : keeps wf_state (neighbors_method env f).
Proof.
  rewrite neighbors_method_eq.
  eapply hoare_bind; [apply wf_NeighborsCache_Get | intros [response |]].
  - apply hoare_assume. intros Hx. apply wf_neighbors_hit, Hx. reflexivity.
  - apply hoare_assume. intros _.
    apply keeps_bind; [apply keeps_fetch_neighbors, wf_log | intros nb].
    apply keeps_bind; [apply wf_neighbors_loop | intros nb'].
    apply keeps_bind; [apply keeps_makeResponseMeta, wf_tick | intros meta].
    apply keeps_bind; [apply wf_NeighborsCache_Set; reflexivity | intros []].
    apply hoare_ret. auto.
Qed.

(** Every call of the interface keeps the invariant, however it ends. *)
Lemma wf_call c : keeps wf_state (call env c).
Proof.
  destruct c; cbn [call]; apply keeps_mapM.
  - unfold Status.
    apply keeps_bind; [apply keeps_makeResponseMeta, wf_tick | intros meta].
    apply hoare_ret. auto.
  - apply (wf_neighbors_method FNeighbors).
  - apply (wf_neighbors_method FNeighborsSummary).
  - unfold NeighborsStatus.
    apply keeps_bind; [apply keeps_lift | intros req].
    apply keeps_bind; [apply keeps_http_Do, wf_log | intros res].
    apply keeps_bind; [apply keeps_lift | intros body].
    apply keeps_bind; [apply keeps_lift | intros nb].
    apply keeps_bind; [apply keeps_makeResponseMeta, wf_tick | intros meta].
    apply hoare_ret. auto.
  - eapply keeps_weaken; [apply (wf_routes_method FRoutes) |].
    intros a s [Hs _]; exact Hs.
  - eapply keeps_weaken; [apply (wf_routes_method FRoutesReceived) |].
    intros a s [Hs _]; exact Hs.
  - eapply keeps_weaken; [apply (wf_routes_method FRoutesFiltered) |].
    intros a s [Hs _]; exact Hs.
  - unfold RoutesNotExported.
    apply keeps_bind; [apply keeps_makeResponseMeta, wf_tick | intros meta].
    apply hoare_ret. auto.
  - unfold AllRoutes.
    apply keeps_bind; [apply keeps_fetch_routes; [apply wf_log | apply keeps_lift] | intros routes].
    apply keeps_bind; [apply keeps_gets | intros rc].
    apply keeps_bind; [apply keeps_makeResponseMeta, wf_tick | intros meta].
    apply hoare_ret. auto.
Qed.

Lemma wf_ExpireCaches : keeps wf_state (ExpireCaches env).
Proof.
  unfold ExpireCaches.
  apply keeps_bind; [| intros n; apply hoare_ret; auto].
  unfold RoutesCache_Expire.
  apply keeps_bind; [apply keeps_time_Now, wf_tick | intros now].
  intros s Hs.
  pose proof (rc_all_Expire _ now _ (wf_get_rc FRoutesReceived _ Hs)) as Hc.
  destruct (caches.rc_Expire now (get_rc FRoutesReceived (this s))) as [n c].
  apply wf_set_rc; assumption.
Qed.

(** The invariant holds in every state the source gets into. *)
Lemma reachable_wf s : reachable env s -> wf_state s.
Proof.
  induction 1 as [cfg w | c s _ IH | s _ IH].
  - reflexivity.
  - apply keeps_run; [apply wf_call | exact IH].
  - apply keeps_run; [apply wf_ExpireCaches | exact IH].
Qed.

End BgplgdInvariant.

(** ** The openbgpd source: hits and misses *)

Section BgplgdRuns.

Import openbgpd.

Variable env : Env.

Lemma NeighborsCache_Get_run f s :
  NeighborsCache_Get env f s
  = (Ok (caches.nc_Get (clock env (ticks (world s))) (get_nc f (this s))), tick s).
Proof. reflexivity. Qed.

Lemma RoutesCache_Get_run f key s :
  RoutesCache_Get env f key s
  = (Ok (caches.rc_Get (clock env (ticks (world s))) key (get_rc f (this s))).1,
     with_this
       (set_rc f (caches.rc_Get (clock env (ticks (world s))) key (get_rc f (this s))).2
          (this s)) (tick s)).
Proof.
  unfold RoutesCache_Get, bind, time_Now. cbn.
  destruct (caches.rc_Get (clock env (ticks (world s))) key (get_rc f (this s))).
  reflexivity.
Qed.

Lemma makeResponseMeta_run s :
  makeResponseMeta env s
  = (Ok {| api.CachedAt := clock env (ticks (world s));
           api.Version := BgplgdSourceVersion;
           api.ResultFromCache := false;
           api.TTL := time_Add (clock env (S (ticks (world s)))) (CacheTTL (cfg (this s))) |},
     tick (tick s)).
Proof. reflexivity. Qed.

Lemma set_rc_get_rc f src : set_rc f (get_rc f src) src = src.
Proof. destruct f, src; reflexivity. Qed.

Lemma get_rc_set_rc f c src : get_rc f (set_rc f c src) = c.
Proof. destruct f; reflexivity. Qed.

Lemma get_nc_set_nc f c src : get_nc f (set_nc f c src) = c.
Proof. destruct f; reflexivity. Qed.

Lemma get_nc_set_rc g f c src : get_nc g (set_rc f c src) = get_nc g src.
Proof. destruct g, f; reflexivity. Qed.

(** A request that came back decoded went out: the log has one more
    entry, and nothing else changed. *)
Lemma fetch_Ok_inv {A} (rq : error + Request) (decode : JSON -> error + A) s a s' :
  (req <- lift rq ;;
   res <- http_Do env req ;;
   body <- lift (ReadJSONResponse env res) ;;
   lift (decode body)) s = (Ok a, s') ->
  exists req,
    rq = inr req /\
    s' = with_world {| ticks := ticks (world s);
                       log := log (world s) ++ [EvHttpGet (URL req)] |} s.
Proof.
  intros H.
  apply bind_Ok_inv in H as (req & s1 & Hreq & H).
  apply lift_Ok_inv in Hreq as [-> ->].
  apply bind_Ok_inv in H as (res & s2 & Hdo & H).
  apply bind_Ok_inv in H as (body & s3 & Hbody & H).
  apply lift_Ok_inv in Hbody as [_ ->].
  apply lift_Ok_inv in H as [_ ->].
  exists req. split; [reflexivity |].
  unfold http_Do in Hdo. destruct (Do env (world s) req); inversion Hdo. reflexivity.
Qed.

(** A hit: the call returns the cached response, flagged, and nothing
    goes out. *)
Lemma neighbors_method_hit f s r m :
  caches.nc_Get (clock env (ticks (world s))) (get_nc f (this s)) = Some r ->
  api.nr_Meta r = Some m ->
  exists s',
    neighbors_method env f s
    = (Ok {| api.nr_Meta := Some (api.set_ResultFromCache true m);
             api.Neighbors := api.Neighbors r |}, s') /\
    world s' = world (tick s).
Proof.
  intros Hget Hm. rewrite neighbors_method_eq.
  erewrite bind_run_Ok by apply NeighborsCache_Get_run.
  rewrite Hget. unfold neighbors_hit. rewrite Hm.
  eexists. split; reflexivity.
Qed.

Lemma routes_method_hit f key s r m :
  (caches.rc_Get (clock env (ticks (world s))) key (get_rc f (this s))).1 = Some r ->
  api.rr_Meta r = Some m ->
  exists s',
    routes_method env f key s
    = (Ok {| api.rr_Meta := Some (api.set_ResultFromCache true m);
             api.Imported := api.Imported r;
             api.Filtered := api.Filtered r;
             api.NotExported := api.NotExported r |}, s') /\
    world s' = world (tick s).
Proof.
  intros Hget Hm. rewrite routes_method_eq.
  erewrite bind_run_Ok by apply RoutesCache_Get_run.
  rewrite Hget. unfold routes_hit. rewrite Hm.
  eexists. split; reflexivity.
Qed.

(** A miss of a routes method that succeeds: one request went out, the
    response is built from what came back, and [Set] was called with
    it. *)
Lemma routes_method_miss f key s r s' :
  (caches.rc_Get (clock env (ticks (world s))) key (get_rc f (this s))).1 = None ->
  routes_method env f key s = (Ok r, s') ->
  let t := ticks (world s) in
  exists req routes,
    r = routes_response f (RejectCommunities (cfg (this s))) routes
          {| api.CachedAt := clock env (1 + t);
             api.Version := BgplgdSourceVersion;
             api.ResultFromCache := false;
             api.TTL := time_Add (clock env (2 + t)) (CacheTTL (cfg (this s))) |} /\
    this s' = set_rc f (caches.rc_Set (clock env (3 + t)) key r (get_rc f (this s))) (this s) /\
    world s' = {| ticks := 4 + t; log := log (world s) ++ [EvHttpGet (URL req)] |}.
Proof.
  intros Hget H t. rewrite routes_method_eq in H.
  erewrite bind_run_Ok in H by apply RoutesCache_Get_run.
  rewrite Hget, (rc_Get_miss _ _ _ Hget), set_rc_get_rc in H.
  apply bind_Ok_inv in H as (routes & s1 & Hfetch & H).
  apply fetch_Ok_inv in Hfetch as (req & _ & ->).
  exists req, routes.
  cbn in H. inversion H; subst; clear H. cbn.
  repeat split.
Qed.

Lemma log_extends_loop f nb l :
  keeps (log_extends l) (neighbors_loop env f nb).
Proof.
  apply keeps_neighbors_loop.
  - intros s [evs H]. exists evs. exact H.
  - intros s ev [evs H]. exists (evs ++ [ev]). cbn. rewrite H, <- app_assoc. reflexivity.
  - intros g c s [evs H]. exists evs. exact H.
Qed.

Lemma nc_disabled_loop f g nb b :
  keeps (fun s => caches.nc_disabled (get_nc g (this s)) = b) (neighbors_loop env f nb).
Proof.
  apply keeps_neighbors_loop.
  - intros s H. exact H.
  - intros s ev H. exact H.
  - intros h c s H. cbn. rewrite get_nc_set_rc. exact H.
Qed.

(** A miss of a neighbors method that succeeds. *)
Lemma neighbors_method_miss f s r s' :
  caches.nc_Get (clock env (ticks (world s))) (get_nc f (this s)) = None ->
  neighbors_method env f s = (Ok r, s') ->
  (exists m, api.nr_Meta r = Some m /\ api.ResultFromCache m = false) /\
  (exists url evs, log (world s') = log (world s) ++ EvHttpGet url :: evs) /\
  (caches.nc_disabled (get_nc f (this s)) = false ->
   caches.nc_holds (get_nc f (this s')) = Some r).
Proof.
  intros Hget H. rewrite neighbors_method_eq in H.
  erewrite bind_run_Ok in H by apply NeighborsCache_Get_run.
  rewrite Hget in H.
  apply bind_Ok_inv in H as (nb & s1 & Hfetch & H).
  apply fetch_Ok_inv in Hfetch as (req & _ & ->).
  apply bind_Ok_inv in H as (nb' & s2 & Hloop & H).
  cbn in H. inversion H; subst; clear H.
  split; [| split].
  - eexists. split; reflexivity.
  - assert (Hl : log_extends (log (world s) ++ [EvHttpGet (URL req)]) s2).
    { eapply keeps_Ok; [apply log_extends_loop | exact Hloop |].
      exists []. cbn. rewrite app_nil_r. reflexivity. }
    destruct Hl as [evs Hevs].
    exists (URL req), evs. cbn. rewrite Hevs, <- app_assoc. reflexivity.
  - intros Hd. cbn. rewrite get_nc_set_nc. apply nc_Set_holds.
    eapply (keeps_Ok _ _ _ _ _ (nc_disabled_loop f f nb false) Hloop). exact Hd.
Qed.

End BgplgdRuns.

(** ** The openbgpd source: the calls of the interface *)

Section BgplgdCalls.

Import openbgpd.

Variable env : Env.

Lemma rr_Meta_routes_response f rc routes meta :
  api.rr_Meta (routes_response f rc routes meta) = Some meta.
Proof. destruct f; reflexivity. Qed.

Lemma neighbors_call_hit f s r :
  wf_state s ->
  caches.nc_Get (clock env (ticks (world s))) (get_nc f (this s)) = Some r ->
  exists m s',
    mapM sources.OfNeighbors (neighbors_method env f) s
    = (Ok (flagged (sources.OfNeighbors r)), s') /\
    world s' = world (tick s) /\
    api.nr_Meta r = Some m.
Proof.
  intros Hwf Hget.
  assert (Hok : neighbors_ok r = true).
  { eapply nc_all_holds; [apply wf_get_nc, Hwf | eapply nc_Get_value, Hget]. }
  unfold neighbors_ok in Hok. destruct (api.nr_Meta r) as [m |] eqn:Hm; [| discriminate].
  destruct (neighbors_method_hit env f s r m Hget Hm) as (s' & Hrun & Hw).
  exists m, s'. split; [| split; [exact Hw | reflexivity]].
  unfold mapM. rewrite (bind_run_Ok _ _ _ _ _ Hrun). cbn. rewrite Hm. reflexivity.
Qed.

Lemma routes_call_hit f key s r :
  wf_state s ->
  (caches.rc_Get (clock env (ticks (world s))) key (get_rc f (this s))).1 = Some r ->
  exists m s',
    mapM sources.OfRoutes (routes_method env f key) s
    = (Ok (flagged (sources.OfRoutes r)), s') /\
    world s' = world (tick s) /\
    api.rr_Meta r = Some m.
Proof.
  intros Hwf Hget.
  assert (Hok : shape f r = true).
  { eapply rc_all_holds; [apply wf_get_rc, Hwf | eapply rc_Get_value, Hget]. }
  assert (Hm : exists m, api.rr_Meta r = Some m).
  { destruct (api.rr_Meta r) as [m |] eqn:Hm; [eauto |].
    destruct f; unfold shape, routes_ok, received_ok, filtered_ok in Hok;
      rewrite Hm in Hok; discriminate. }
  destruct Hm as [m Hm].
  destruct (routes_method_hit env f key s r m Hget Hm) as (s' & Hrun & Hw).
  exists m, s'. split; [| split; [exact Hw | exact Hm]].
  unfold mapM. rewrite (bind_run_Ok _ _ _ _ _ Hrun). cbn. rewrite Hm. reflexivity.
Qed.

(** A hit of any call: the flagged cached response, and no event. *)
Lemma call_hit c s v :
  wf_state s -> cached env c s = Some v ->
  exists m s',
    call env c s = (Ok (flagged v), s') /\
    world s' = world (tick s) /\
    sources.meta_of v = Some m /\
    sources.meta_of (flagged v) = Some (api.set_ResultFromCache true m).
Proof.
  intros Hwf Hc.
  destruct c; cbn [cached] in Hc; try discriminate.
  - destruct (caches.nc_Get _ _) as [r |] eqn:Hget; inversion Hc; subst.
    destruct (neighbors_call_hit FNeighbors s r Hwf Hget) as (m & s' & Hrun & Hw & Hm).
    exists m, s'. split; [exact Hrun |]. split; [exact Hw |].
    cbn. rewrite Hm. split; reflexivity.
  - destruct (caches.nc_Get _ _) as [r |] eqn:Hget; inversion Hc; subst.
    destruct (neighbors_call_hit FNeighborsSummary s r Hwf Hget) as (m & s' & Hrun & Hw & Hm).
    exists m, s'. split; [exact Hrun |]. split; [exact Hw |].
    cbn. rewrite Hm. split; reflexivity.
  - destruct (caches.rc_Get _ _ _).1 as [r |] eqn:Hget; inversion Hc; subst.
    destruct (routes_call_hit FRoutes neighborID s r Hwf Hget) as (m & s' & Hrun & Hw & Hm).
    exists m, s'. split; [exact Hrun |]. split; [exact Hw |].
    cbn. rewrite Hm. split; reflexivity.
  - destruct (caches.rc_Get _ _ _).1 as [r |] eqn:Hget; inversion Hc; subst.
    destruct (routes_call_hit FRoutesReceived neighborID s r Hwf Hget) as (m & s' & Hrun & Hw & Hm).
    exists m, s'. split; [exact Hrun |]. split; [exact Hw |].
    cbn. rewrite Hm. split; reflexivity.
  - destruct (caches.rc_Get _ _ _).1 as [r |] eqn:Hget; inversion Hc; subst.
    destruct (routes_call_hit FRoutesFiltered neighborID s r Hwf Hget) as (m & s' & Hrun & Hw & Hm).
    exists m, s'. split; [exact Hrun |]. split; [exact Hw |].
    cbn. rewrite Hm. split; reflexivity.
Qed.

Lemma neighbors_call_miss f s r s' :
  caches.nc_Get (clock env (ticks (world s))) (get_nc f (this s)) = None ->
  mapM sources.OfNeighbors (neighbors_method env f) s = (Ok r, s') ->
  (exists m, sources.meta_of r = Some m /\ api.ResultFromCache m = false) /\
  (exists url evs, log (world s') = log (world s) ++ EvHttpGet url :: evs) /\
  (caches.nc_disabled (get_nc f (this s)) = false ->
   sources.OfNeighbors <$> caches.nc_holds (get_nc f (this s')) = Some r).
Proof.
  intros Hget H. apply mapM_Ok_inv in H as (r0 & Hrun & ->).
  destruct (neighbors_method_miss env f s r0 s' Hget Hrun) as (Hm & Hl & Hst).
  repeat split; [exact Hm | exact Hl |].
  intros Hd. rewrite (Hst Hd). reflexivity.
Qed.

Lemma routes_call_miss f key s r s' :
  (caches.rc_Get (clock env (ticks (world s))) key (get_rc f (this s))).1 = None ->
  mapM sources.OfRoutes (routes_method env f key) s = (Ok r, s') ->
  (exists m, sources.meta_of r = Some m /\ api.ResultFromCache m = false) /\
  (exists url evs, log (world s') = log (world s) ++ EvHttpGet url :: evs) /\
  (caches.rc_disabled (get_rc f (this s)) = false ->
   sources.OfRoutes <$> caches.rc_holds (get_rc f (this s')) key = Some r).
Proof.
  intros Hget H. apply mapM_Ok_inv in H as (r0 & Hrun & ->).
  destruct (routes_method_miss env f key s r0 s' Hget Hrun)
    as (req & routes & Hr & Hthis & Hworld).
  repeat split.
  - eexists. split; [cbn; rewrite Hr; apply rr_Meta_routes_response | reflexivity].
  - exists (URL req), []. rewrite Hworld. reflexivity.
  - intros Hd. rewrite Hthis, get_rc_set_rc, rc_Set_holds by exact Hd. reflexivity.
Qed.

(** A miss of a call that goes through a cache. *)
Lemma call_miss c s r s' :
  is_cached c = true -> cached env c s = None ->
  call env c s = (Ok r, s') ->
  (exists m, sources.meta_of r = Some m /\ api.ResultFromCache m = false) /\
  (exists url evs, log (world s') = log (world s) ++ EvHttpGet url :: evs) /\
  (disabled c (this s) = false -> stored c (this s') = Some r).
Proof.
  intros Hc Hnone H.
  destruct c; try discriminate; cbn [cached] in Hnone.
  - apply (neighbors_call_miss FNeighbors); [| exact H].
    destruct (caches.nc_Get _ _); [discriminate | reflexivity].
  - apply (neighbors_call_miss FNeighborsSummary); [| exact H].
    destruct (caches.nc_Get _ _); [discriminate | reflexivity].
  - apply (routes_call_miss FRoutes); [| exact H].
    destruct (caches.rc_Get _ _ _).1; [discriminate | reflexivity].
  - apply (routes_call_miss FRoutesReceived); [| exact H].
    destruct (caches.rc_Get _ _ _).1; [discriminate | reflexivity].
  - apply (routes_call_miss FRoutesFiltered); [| exact H].
    destruct (caches.rc_Get _ _ _).1; [discriminate | reflexivity].
Qed.

(** The calls that go through no cache build a fresh envelope. *)
Lemma call_uncached_fresh c s r s' :
  is_cached c = false -> call env c s = (Ok r, s') ->
  exists m, sources.meta_of r = Some m /\ api.ResultFromCache m = false.
Proof.
  intros Hc H. destruct c; try discriminate; cbn [call] in H;
    apply mapM_Ok_inv in H as (r0 & H & ->).
  - cbn in H. inversion H; subst. eexists. split; reflexivity.
  - unfold NeighborsStatus in H.
    apply bind_Ok_inv in H as (req & s1 & _ & H).
    apply bind_Ok_inv in H as (res & s2 & _ & H).
    apply bind_Ok_inv in H as (body & s3 & _ & H).
    apply bind_Ok_inv in H as (nb & s4 & _ & H).
    cbn in H. inversion H; subst. eexists. split; reflexivity.
  - cbn in H. inversion H; subst. eexists. split; reflexivity.
  - unfold AllRoutes in H.
    apply bind_Ok_inv in H as (routes & s1 & _ & H).
    cbn in H. inversion H; subst. eexists. split; reflexivity.
Qed.

End BgplgdCalls.

(** ** The gobgp source: what the methods leave alone *)

Section GobgpFrames.

Import gobgpapi gobgp.

Variable env : Env.
Variable I : St -> Prop.

Hypothesis I_tick : forall s,
  I s -> I (with_world {| ticks := S (ticks (world s)); log := log (world s) |} s).
Hypothesis I_record : forall ev s, I s -> I (record ev s).

Lemma gkeeps_time_Now : keeps I (time_Now env).
Proof. intros s Hs. cbn. auto. Qed.

Lemma gkeeps_time_Since t : keeps I (time_Since env t).
Proof.
  unfold time_Since. apply keeps_bind; [apply gkeeps_time_Now | intros now].
  apply hoare_ret. auto.
Qed.

Lemma gkeeps_log_Print e : keeps I (log_Print e).
Proof. apply hoare_modify. intros s Hs. apply I_record, Hs. Qed.

Lemma gkeeps_call_ListPeer b : keeps I (call_ListPeer env b).
Proof.
  intros s Hs. unfold call_ListPeer.
  destruct (ListPeer env (world s) b); apply I_record, Hs.
Qed.

Lemma gkeeps_call_GetBgp : keeps I (call_GetBgp env).
Proof.
  intros s Hs. unfold call_GetBgp.
  destruct (GetBgp env (world s)); apply I_record, Hs.
Qed.

Lemma gkeeps_call_lookupNeighbor id : keeps I (call_lookupNeighbor env id).
Proof.
  intros s Hs. unfold call_lookupNeighbor.
  destruct (lookupNeighbor env (world s) id); apply I_record, Hs.
Qed.

Lemma gkeeps_call_GetNeighbors : keeps I (call_GetNeighbors env).
Proof.
  intros s Hs. unfold call_GetNeighbors.
  destruct (GetNeighbors env (world s)); apply I_record, Hs.
Qed.

Lemma gkeeps_call_GetRoutes peer tt routes : keeps I (call_GetRoutes env peer tt routes).
Proof. intros s Hs. cbn. apply I_record, Hs. Qed.

Lemma gkeeps_deref {A} expr (p : option A) : keeps I (deref expr p).
Proof. destruct p; [apply hoare_ret | apply hoare_panic]; auto. Qed.

Lemma gkeeps_status_of m : keeps I (status_of env m).
Proof.
  unfold status_of.
  apply keeps_bind; [apply gkeeps_deref | intros peer].
  apply keeps_bind; [apply gkeeps_deref | intros peerState].
  apply keeps_bind; [apply gkeeps_deref | intros timers].
  apply keeps_bind; [apply gkeeps_deref | intros timersState].
  apply keeps_bind; [| intros since; apply hoare_ret; auto].
  destruct (Uptime _); [apply gkeeps_time_Since | apply hoare_ret; auto].
Qed.

Lemma gkeeps_NeighborsStatus_loop stream : keeps I (NeighborsStatus_loop env stream).
Proof.
  induction stream as [| [m | e] rest IH]; cbn [NeighborsStatus_loop].
  - apply hoare_ret. auto.
  - apply keeps_bind; [apply gkeeps_status_of | intros ns; exact IH].
  - apply hoare_panic. auto.
Qed.

Lemma gkeeps_count_afiSafis families neigh : keeps I (count_afiSafis families neigh).
Proof.
  revert neigh. induction families as [| f rest IH]; intros neigh; cbn [count_afiSafis].
  - apply hoare_ret. auto.
  - apply keeps_bind; [apply gkeeps_deref | intros afiSafi].
    apply keeps_bind; [apply gkeeps_deref | intros state]. apply IH.
Qed.

Lemma gkeeps_neighbor_of id m : keeps I (neighbor_of env id m).
Proof.
  unfold neighbor_of.
  apply keeps_bind; [apply gkeeps_deref | intros peer].
  apply keeps_bind; [apply gkeeps_deref | intros state].
  apply keeps_bind; [apply gkeeps_deref | intros conf].
  apply keeps_bind; [apply gkeeps_count_afiSafis | intros neigh].
  apply keeps_bind; [apply gkeeps_deref | intros timers].
  apply keeps_bind; [apply gkeeps_deref | intros timersState].
  destruct (Uptime _); [| apply hoare_ret; auto].
  apply keeps_bind; [apply gkeeps_time_Since | intros d; apply hoare_ret; auto].
Qed.

Lemma gkeeps_Neighbors_loop stream acc : keeps I (Neighbors_loop env stream acc).
Proof.
  revert acc. induction stream as [| [m | e] rest IH]; intros acc; cbn [Neighbors_loop].
  - apply hoare_ret. auto.
  - apply keeps_bind; [apply hoare_gets; auto | intros id].
    apply keeps_bind; [apply gkeeps_neighbor_of | intros neigh; apply IH].
  - apply hoare_panic. auto.
Qed.

Lemma gkeeps_routes_of id tt : keeps I (routes_of env id tt).
Proof.
  unfold routes_of.
  apply keeps_bind; [apply gkeeps_call_lookupNeighbor | intros neigh].
  apply keeps_bind; [apply gkeeps_call_GetRoutes | intros r].
  destruct r.2; [apply hoare_fail | apply hoare_ret]; auto.
Qed.

Lemma gkeeps_try {A} (c : M St A) : keeps I c -> keeps I (try c).
Proof.
  intros Hc s Hs. specialize (Hc s Hs). unfold try.
  destruct (c s) as [[a | e | r] s1]; exact Hc.
Qed.

Lemma gkeeps_AllRoutes_loop peers routes : keeps I (AllRoutes_loop env peers routes).
Proof.
  revert routes. induction peers as [| peer rest IH]; intros routes; cbn [AllRoutes_loop].
  - apply hoare_ret. auto.
  - apply keeps_bind; [apply gkeeps_call_GetRoutes | intros r].
    apply keeps_bind; [| intros []; apply IH].
    destruct r.2; [apply gkeeps_log_Print | apply hoare_ret; auto].
Qed.

(** Every call of the interface keeps an invariant that clock reads and
    log entries keep: no call writes to the source. *)
Lemma gkeeps_call c : keeps I (call env c).
Proof.
  destruct c; cbn [call]; apply keeps_mapM.
  - unfold Status. apply keeps_bind; [apply gkeeps_call_GetBgp | intros resp].
    apply keeps_bind; [apply gkeeps_deref | intros global].
    apply hoare_ret. auto.
  - unfold Neighbors. apply keeps_bind; [apply gkeeps_call_ListPeer | intros resp].
    apply keeps_bind; [apply gkeeps_Neighbors_loop | intros nb]. apply hoare_ret. auto.
  - unfold NeighborsSummary, Neighbors.
    apply keeps_bind; [apply gkeeps_call_ListPeer | intros resp].
    apply keeps_bind; [apply gkeeps_Neighbors_loop | intros nb]. apply hoare_ret. auto.
  - unfold NeighborsStatus. apply keeps_bind; [apply gkeeps_call_ListPeer | intros resp].
    apply keeps_bind; [apply gkeeps_NeighborsStatus_loop | intros []].
    apply hoare_ret. auto.
  - apply gkeeps_routes_of.
  - unfold RoutesReceived. apply keeps_bind; [apply gkeeps_routes_of | intros routes].
    apply hoare_ret. auto.
  - unfold RoutesFiltered.
    apply keeps_bind; [apply gkeeps_try, gkeeps_routes_of | intros [err | routes]].
    + apply keeps_bind; [apply gkeeps_log_Print | intros []]. apply hoare_panic. auto.
    + apply hoare_ret. auto.
  - unfold RoutesNotExported. apply keeps_bind; [apply gkeeps_routes_of | intros routes].
    apply hoare_ret. auto.
  - unfold AllRoutes. apply keeps_bind; [apply gkeeps_call_GetNeighbors | intros peers].
    apply gkeeps_AllRoutes_loop.
Qed.

End GobgpFrames.

(** ** The gobgp source: every call goes to the backend *)

Section GobgpGoesOut.

Import gobgpapi gobgp.

Variable env : Env.

Lemma steady_keeps_call I c : steady I -> keeps I (call env c).
Proof. intros [Ht Hr]. apply gkeeps_call; assumption. Qed.

Lemma goes_out_call_ListPeer b : goes_out (call_ListPeer env b).
Proof.
  intros s. unfold call_ListPeer.
  destruct (ListPeer env (world s) b); cbn; (split; [reflexivity |]);
    exists "ListPeer", "", []; reflexivity.
Qed.

Lemma goes_out_call_GetBgp : goes_out (call_GetBgp env).
Proof.
  intros s. unfold call_GetBgp.
  destruct (GetBgp env (world s)); cbn; (split; [reflexivity |]);
    exists "GetBgp", "", []; reflexivity.
Qed.

Lemma goes_out_call_lookupNeighbor id : goes_out (call_lookupNeighbor env id).
Proof.
  intros s. unfold call_lookupNeighbor.
  destruct (lookupNeighbor env (world s) id); cbn; (split; [reflexivity |]);
    exists "lookupNeighbor", id, []; reflexivity.
Qed.

Lemma goes_out_call_GetNeighbors : goes_out (call_GetNeighbors env).
Proof.
  intros s. unfold call_GetNeighbors.
  destruct (GetNeighbors env (world s)); cbn; (split; [reflexivity |]);
    exists "GetNeighbors", "", []; reflexivity.
Qed.

(** What comes after the first call can only read the clock and add to
    the log. *)
Lemma goes_out_bind {A B} (c : M St A) (k : A -> M St B) :
  goes_out c -> (forall a I, steady I -> keeps I (k a)) -> goes_out (bind c k).
Proof.
  intros Hc Hk s. destruct (Hc s) as (Hthis & call & arg & evs & Hlog).
  unfold bind. destruct (c s) as [[a | e | r] s1] eqn:Hrun; cbn in Hthis, Hlog.
  2, 3: (split; [exact Hthis |]); exists call, arg, evs; exact Hlog.
  set (I := fun st : St =>
              this st = this s /\ exists more, log (world st) = log (world s1) ++ more).
  assert (HI : steady I).
  { split.
    - intros st [H1 [more H2]]. split; [exact H1 |]. exists more. exact H2.
    - intros ev st [H1 [more H2]]. split; [exact H1 |].
      exists (more ++ [ev]). cbn. rewrite H2, <- app_assoc. reflexivity. }
  assert (Hs1 : I s1).
  { split; [exact Hthis |]. exists []. now rewrite app_nil_r. }
  destruct (keeps_run I (k a) s1 (Hk a I HI) Hs1) as [H1 [more H2]].
  split; [exact H1 |].
  exists call, arg, (evs ++ more). rewrite H2, Hlog, <- app_assoc. reflexivity.
Qed.

Lemma goes_out_try {A} (c : M St A) : goes_out c -> goes_out (try c).
Proof.
  intros Hc s. specialize (Hc s). unfold try.
  destruct (c s) as [[a | e | r] s1]; exact Hc.
Qed.

Lemma goes_out_mapM {A B} (f : A -> B) (c : M St A) : goes_out c -> goes_out (mapM f c).
Proof.
  intros Hc. apply goes_out_bind; [exact Hc |].
  intros a I _. apply hoare_ret. auto.
Qed.

Lemma goes_out_routes_of id tt : goes_out (routes_of env id tt).
Proof.
  unfold routes_of. apply goes_out_bind; [apply goes_out_call_lookupNeighbor |].
  intros neigh I [Ht Hr].
  apply keeps_bind; [apply gkeeps_call_GetRoutes, Hr | intros r].
  destruct r.2; [apply hoare_fail | apply hoare_ret]; auto.
Qed.

Lemma goes_out_call c : goes_out (call env c).
Proof.
  destruct c; cbn [call]; apply goes_out_mapM.
  - apply goes_out_bind; [apply goes_out_call_GetBgp |].
    intros resp I _.
    apply keeps_bind; [apply gkeeps_deref | intros global].
    apply hoare_ret. auto.
  - apply goes_out_bind; [apply goes_out_call_ListPeer |].
    intros resp I [Ht Hr].
    apply keeps_bind; [apply gkeeps_Neighbors_loop; assumption | intros nb].
    apply hoare_ret. auto.
  - apply goes_out_bind; [apply goes_out_call_ListPeer |].
    intros resp I [Ht Hr].
    apply keeps_bind; [apply gkeeps_Neighbors_loop; assumption | intros nb].
    apply hoare_ret. auto.
  - apply goes_out_bind; [apply goes_out_call_ListPeer |].
    intros resp I [Ht Hr].
    apply keeps_bind; [apply gkeeps_NeighborsStatus_loop; assumption | intros []].
    apply hoare_ret. auto.
  - apply goes_out_routes_of.
  - apply goes_out_bind; [apply goes_out_routes_of |].
    intros routes I _. apply hoare_ret. auto.
  - apply goes_out_bind; [apply goes_out_try, goes_out_routes_of |].
    intros [err | routes] I [Ht Hr].
    + apply keeps_bind; [apply gkeeps_log_Print, Hr | intros []].
      apply hoare_panic. auto.
    + apply hoare_ret. auto.
  - apply goes_out_bind; [apply goes_out_routes_of |].
    intros routes I _. apply hoare_ret. auto.
  - apply goes_out_bind; [apply goes_out_call_GetNeighbors |].
    intros peers I [Ht Hr]. apply gkeeps_AllRoutes_loop, Hr.
Qed.

End GobgpGoesOut.

(** ** Loops and errors *)

Section BgplgdLoop.

Import openbgpd.

Variable env : Env.

Lemma Neighbors_loop_cons n rest :
  Neighbors_loop env (n :: rest) =
  (id <- gets (fun s => cfg_ID (cfg (this s))) ;;
   rejectedRes <- RoutesFiltered env (api.nID n) ;;
   rest' <- Neighbors_loop env rest ;;
   ret (set_RoutesFiltered (len (api.Filtered rejectedRes))
          (set_RouteServerID id n) :: rest')).
Proof. reflexivity. Qed.

(** The loop of [Neighbors] ends at the first neighbor whose
    [RoutesFiltered] fails, with that error, in the state of the
    failure. *)
Lemma Neighbors_loop_abort pre n post s pre' s1 e s2 :
  Neighbors_loop env pre s = (Ok pre', s1) ->
  RoutesFiltered env (api.nID n) s1 = (Err e, s2) ->
  Neighbors_loop env (pre ++ n :: post) s = (Err e, s2).
Proof.
  revert s pre'. induction pre as [| p pre IH]; intros s pre' Hpre Hfail.
  - cbn in Hpre. inversion Hpre; subst. cbn [app].
    rewrite Neighbors_loop_cons. unfold gets at 1. unfold bind at 1.
    apply bind_run_Err. exact Hfail.
  - rewrite Neighbors_loop_cons in Hpre.
    apply bind_Ok_inv in Hpre as (id & sa & Hid & Hpre).
    cbn in Hid. inversion Hid; subst; clear Hid.
    apply bind_Ok_inv in Hpre as (rr & sb & Hrf & Hpre).
    apply bind_Ok_inv in Hpre as (rest' & sc & Hrest & Hpre).
    cbn in Hpre. inversion Hpre; subst; clear Hpre.
    cbn [app]. rewrite Neighbors_loop_cons. unfold gets at 1. unfold bind at 1.
    rewrite (bind_run_Ok _ _ _ _ _ Hrf).
    apply bind_run_Err. eapply IH; [exact Hrest | exact Hfail].
Qed.

(** An error of the loop is the error of [Neighbors], and nothing has
    been written to [neighborsCache]. *)
Lemma Neighbors_abort s nb s1 e s2 :
  cached env sources.Neighbors s = None ->
  fetch_neighbors env (tick s) = (Ok nb, s1) ->
  Neighbors_loop env nb s1 = (Err e, s2) ->
  Neighbors env s = (Err e, s2) /\
  neighborsCache (this s2) = neighborsCache (this s).
Proof.
  intros Hc Hfetch Hloop. split.
  - change (Neighbors env) with (neighbors_method env FNeighbors).
    rewrite neighbors_method_eq.
    erewrite bind_run_Ok by apply NeighborsCache_Get_run.
    cbn [cached] in Hc. cbn [get_nc].
    destruct (caches.nc_Get _ _); [discriminate |].
    rewrite (bind_run_Ok _ _ _ _ _ Hfetch).
    apply bind_run_Err. exact Hloop.
  - set (I := fun st : St => neighborsCache (this st) = neighborsCache (this s)).
    assert (H1 : I s1).
    { eapply (keeps_Ok I); [apply keeps_fetch_neighbors | exact Hfetch | reflexivity].
      intros st ev H. exact H. }
    pose proof (keeps_run I _ s1 (keeps_Neighbors_loop env I
                  (fun st H => H) (fun st ev H => H)
                  (fun f c st H => eq_trans (get_nc_set_rc FNeighbors f c (this st)) H) nb) H1)
      as H2.
    rewrite Hloop in H2. exact H2.
Qed.

End BgplgdLoop.

Section GobgpLoop.

Import gobgpapi gobgp.

Variable env : Env.

(** The loop of [AllRoutes] never fails. *)
Lemma AllRoutes_loop_Ok peers routes s :
  exists r s', AllRoutes_loop env peers routes s = (Ok r, s').
Proof.
  revert routes s. induction peers as [| peer rest IH]; intros routes s.
  - do 2 eexists. reflexivity.
  - cbn [AllRoutes_loop]. unfold bind at 1, call_GetRoutes.
    destruct (GetRoutes env (world s) peer TableType_ADJ_IN routes) as [routes1 [e |]];
      cbn; apply IH.
Qed.

(** After an error of [GetRoutes] for a peer, the loop prints it and goes
    on with the next peer and the response as [GetRoutes] left it. *)
Lemma AllRoutes_loop_continues peer rest routes s routes1 e :
  GetRoutes env (world s) peer TableType_ADJ_IN routes = (routes1, Some e) ->
  AllRoutes_loop env (peer :: rest) routes s
  = AllRoutes_loop env rest routes1
      (record (EvLog e) (record (EvRpc "GetRoutes" (address_of peer)) s)).
Proof.
  intros H. cbn [AllRoutes_loop]. unfold bind at 1, call_GetRoutes.
  rewrite H. reflexivity.
Qed.

Lemma RoutesReceived_nil id s r s' :
  RoutesReceived env id s = (Ok r, s') -> api.Filtered r = nil_slice.
Proof.
  unfold RoutesReceived. intros H.
  apply bind_Ok_inv in H as (routes & s1 & _ & H).
  inversion H; subst. reflexivity.
Qed.

Lemma RoutesFiltered_nil id s r s' :
  RoutesFiltered env id s = (Ok r, s') -> api.Imported r = nil_slice.
Proof.
  unfold RoutesFiltered. intros H.
  apply bind_Ok_inv in H as ([err | routes] & s1 & _ & H).
  - cbn in H. discriminate.
  - inversion H; subst. reflexivity.
Qed.

(** A response of the three shared lines is the response [GetRoutes]
    filled for the neighbor that was looked up. *)
Lemma routes_of_Ok_inv id tableType s r s' :
  routes_of env id tableType s = (Ok r, s') ->
  exists neigh,
    lookupNeighbor env (world s) id = inr neigh /\
    GetRoutes env (world (record (EvRpc "lookupNeighbor" id) s)) neigh tableType
      (NewRoutesResponse env) = (r, None).
Proof.
  unfold routes_of, bind, call_lookupNeighbor, call_GetRoutes.
  destruct (lookupNeighbor env (world s) id) as [e | neigh]; [discriminate |].
  destruct (GetRoutes env _ neigh tableType (NewRoutesResponse env)) as [r0 [e0 |]] eqn:Hget;
    cbn; intros H; inversion H; subst.
  exists neigh. split; [reflexivity | exact Hget].
Qed.

Lemma RoutesReceived_filled id s r s' :
  RoutesReceived env id s = (Ok r, s') ->
  exists neigh routes,
    lookupNeighbor env (world s) id = inr neigh /\
    GetRoutes env (world (record (EvRpc "lookupNeighbor" id) s)) neigh TableType_ADJ_IN
      (NewRoutesResponse env) = (routes, None) /\
    r = set_Filtered nil_slice routes.
Proof.
  unfold RoutesReceived. intros H.
  apply bind_Ok_inv in H as (routes & s1 & Hr & H).
  inversion H; subst.
  apply routes_of_Ok_inv in Hr as (neigh & Hl & Hg).
  exists neigh, routes. repeat split; assumption.
Qed.

Lemma RoutesFiltered_filled id s r s' :
  RoutesFiltered env id s = (Ok r, s') ->
  exists neigh routes,
    lookupNeighbor env (world s) id = inr neigh /\
    GetRoutes env (world (record (EvRpc "lookupNeighbor" id) s)) neigh TableType_ADJ_IN
      (NewRoutesResponse env) = (routes, None) /\
    r = set_Imported nil_slice routes.
Proof.
  unfold RoutesFiltered, getRoutes. intros H.
  apply bind_Ok_inv in H as ([err | routes] & s1 & Ht & H).
  - cbn in H. discriminate.
  - inversion H; subst.
    assert (Hr : routes_of env id TableType_ADJ_IN s = (Ok routes, s')).
    { unfold try in Ht.
      destruct (routes_of env id TableType_ADJ_IN s) as [[a | e | p] s0];
        inversion Ht; subst; reflexivity. }
    apply routes_of_Ok_inv in Hr as (neigh & Hl & Hg).
    exists neigh, routes. repeat split; assumption.
Qed.

End GobgpLoop.

Lemma empty_not_nil_eq {A} (s : slice A) :
  openbgpd.empty_not_nil s = true -> s = make_slice [].
Proof. destruct s as [| [| x l]]; cbn; intros H; try discriminate. reflexivity. Qed.

(** ** The classification is a partition *)

Lemma classified_once policy routes (x : api.Route) :
  In x (elems (openbgpd.filterReceivedRoutes policy routes)) ->
  In x (elems (openbgpd.filterRejectedRoutes policy routes)) ->
  False.
Proof.
  unfold openbgpd.filterReceivedRoutes, openbgpd.filterRejectedRoutes. cbn.
  rewrite !filter_In. intros [_ H1] [_ H2]. rewrite H2 in H1. discriminate.
Qed.

Lemma classified_somewhere policy routes (x : api.Route) :
  In x (elems routes) ->
  In x (elems (openbgpd.filterReceivedRoutes policy routes)) \/
  In x (elems (openbgpd.filterRejectedRoutes policy routes)).
Proof.
  unfold openbgpd.filterReceivedRoutes, openbgpd.filterRejectedRoutes. cbn.
  rewrite !filter_In. intros Hx.
  destruct (openbgpd.is_rejected policy x); [right | left]; auto.
Qed.

(** ** Some methods in general *)

Section General.

Import gobgpapi.

(** [ExpireCaches] of the openbgpd source returns the count of
    [routesReceivedCache] and leaves the four other caches alone. *)
Lemma bgplgd_ExpireCaches_run (env : openbgpd.Env) s :
  let now := openbgpd.clock env (ticks (openbgpd.world s)) in
  let src := openbgpd.this s in
  let s' := (openbgpd.ExpireCaches env s).2 in
  (openbgpd.ExpireCaches env s).1
  = Ok (caches.rc_Expire now (openbgpd.routesReceivedCache src)).1 /\
  openbgpd.neighborsCache (openbgpd.this s') = openbgpd.neighborsCache src /\
  openbgpd.neighborsSummaryCache (openbgpd.this s') = openbgpd.neighborsSummaryCache src /\
  openbgpd.routesCache (openbgpd.this s') = openbgpd.routesCache src /\
  openbgpd.routesFilteredCache (openbgpd.this s') = openbgpd.routesFilteredCache src.
Proof.
  cbv zeta. unfold openbgpd.ExpireCaches, openbgpd.RoutesCache_Expire, bind,
    openbgpd.time_Now. cbn.
  repeat split.
Qed.

Variable env : gobgp.Env.

(** [NeighborsStatus] of the gobgp source never returns an entry. *)
Lemma gobgp_NeighborsStatus_empty s r s' :
  gobgp.NeighborsStatus env s = (Ok r, s') -> api.ns_Neighbors r = [].
Proof.
  unfold gobgp.NeighborsStatus. intros H.
  apply bind_Ok_inv in H as (resp & s1 & _ & H).
  apply bind_Ok_inv in H as ([] & s2 & _ & H).
  inversion H; subst. reflexivity.
Qed.

(** [RoutesNotExported] of the gobgp source returns the filtered
    routes twice. *)
Lemma gobgp_RoutesNotExported_alias id s r s' :
  gobgp.RoutesNotExported env id s = (Ok r, s') ->
  api.NotExported r = api.Filtered r.
Proof.
  unfold gobgp.RoutesNotExported. intros H.
  apply bind_Ok_inv in H as (routes & s1 & _ & H).
  inversion H; subst. reflexivity.
Qed.

(** [RoutesFiltered] of the gobgp source panics whenever the neighbor
    lookup fails. *)
Lemma gobgp_RoutesFiltered_panics id s e :
  gobgp.lookupNeighbor env (gobgp.world s) id = inl e ->
  (gobgp.RoutesFiltered env id s).1 = Panic "nil pointer dereference: routes.Imported".
Proof.
  intros H. unfold gobgp.RoutesFiltered, gobgp.getRoutes, gobgp.routes_of, bind,
    gobgp.try, gobgp.call_lookupNeighbor.
  rewrite H. reflexivity.
Qed.

Lemma wrap64_idem x : wrap64 (wrap64 x) = wrap64 x.
Proof.
  unfold wrap64.
  replace ((x + 2 ^ 63) mod 2 ^ 64 - 2 ^ 63 + 2 ^ 63) with ((x + 2 ^ 63) mod 2 ^ 64) by lia.
  rewrite Z.mod_mod by lia. reflexivity.
Qed.

Lemma int_add_wrap a b : int_add a (int_of_uint64 b) = wrap64 (a + b).
Proof.
  unfold int_add, int_of_uint64, wrap64.
  replace (a + ((b + 2 ^ 63) mod 2 ^ 64 - 2 ^ 63) + 2 ^ 63)
    with (a + (b + 2 ^ 63) mod 2 ^ 64) by lia.
  rewrite Zplus_mod_idemp_r. f_equal. f_equal. lia.
Qed.

Lemma wrap64_add_l a b : wrap64 (wrap64 a + b) = wrap64 (a + b).
Proof.
  unfold wrap64.
  replace ((a + 2 ^ 63) mod 2 ^ 64 - 2 ^ 63 + b + 2 ^ 63)
    with ((a + 2 ^ 63) mod 2 ^ 64 + b) by lia.
  rewrite Zplus_mod_idemp_l. f_equal. f_equal. lia.
Qed.

(** The loop over the address families sums the received, exported and
    accepted counters (as Go's [int] adds). *)
Lemma count_afiSafi_sums families neigh :
  wrap64 (api.RoutesReceived neigh) = api.RoutesReceived neigh ->
  wrap64 (api.RoutesExported neigh) = api.RoutesExported neigh ->
  wrap64 (api.RoutesAccepted neigh) = api.RoutesAccepted neigh ->
  let n := fold_left gobgp.count_afiSafi families neigh in
  api.RoutesReceived n
  = wrap64 (api.RoutesReceived neigh + gobgp.sum_of Received families) /\
  api.RoutesExported n
  = wrap64 (api.RoutesExported neigh + gobgp.sum_of Advertised families) /\
  api.RoutesAccepted n
  = wrap64 (api.RoutesAccepted neigh + gobgp.sum_of Accepted families).
Proof.
  revert neigh. induction families as [| a rest IH]; intros neigh Hr He Ha; cbn zeta.
  - cbn. rewrite !Z.add_0_r. auto.
  - cbn [fold_left gobgp.sum_of fold_right].
    destruct (IH (gobgp.count_afiSafi neigh a)) as (H1 & H2 & H3).
    1-3: cbn; rewrite int_add_wrap; apply wrap64_idem.
    rewrite H1, H2, H3. cbn. rewrite !int_add_wrap, !wrap64_add_l, !Z.add_assoc.
    auto.
Qed.

End General.

(** * The claims *)

Import examples.

(** C1. [ExpireCaches] of the openbgpd source sweeps [routesReceivedCache]
    only.  In the state reached by [Routes("n1")], read after the entry's
    TTL, a sweep of the five caches removes one entry; [ExpireCaches]
    returns 0 and the expired entry stays in [routesCache]. *)
Theorem C1_ExpireCaches_skips_caches :
  let s := bgplgd.s_routes_late in
  let now := openbgpd.clock bgplgd.env0 (ticks (openbgpd.world s)) in
  openbgpd.expire_all now (openbgpd.this s) = 1 /\
  (openbgpd.ExpireCaches bgplgd.env0 s).1 = Ok 0 /\
  openbgpd.routesCache (openbgpd.this (openbgpd.ExpireCaches bgplgd.env0 s).2)
  = openbgpd.routesCache (openbgpd.this s) /\
  (caches.rc_Expire now (openbgpd.routesCache (openbgpd.this s))).1 = 1.
Proof. vm_compute. repeat split; reflexivity. Qed.

(** C2. [RoutesNotExported] of the gobgp source assigns [routes.Filtered]
    to [routes.NotExported] and leaves [routes.Filtered] as it is: the
    filtered route of the peer is in both sequences of the response. *)
Theorem C2_RoutesNotExported_repeats_filtered :
  exists r s',
    gobgp.RoutesNotExported gobgpd.env0 "192.0.2.1" gobgpd.s0 = (Ok r, s') /\
    elems (api.Filtered r) = [route_b] /\
    elems (api.NotExported r) = [route_b] /\
    elems (api.Imported r) = [route_a].
Proof. do 2 eexists. vm_compute. repeat split; reflexivity. Qed.

(** Against C3 as stated: [RoutesReceived] of the gobgp source returns a
    response whose [Filtered] is nil. *)
Lemma C3_counterexample :
  ~ (forall r s',
       gobgp.call gobgpd.env0 (sources.RoutesReceived "192.0.2.1") gobgpd.s0 = (Ok r, s') ->
       claims.unrequested_empty (sources.RoutesReceived "192.0.2.1") r).
Proof.
  intros H.
  specialize (H _ _ eq_refl). vm_compute in H. destruct H as [H _]. discriminate.
Qed.

(** C3. The sequences a call did not ask for.  In the openbgpd source a
    successful [RoutesReceived] has empty, non-nil [Filtered] and
    [NotExported], and a successful [RoutesFiltered] has empty, non-nil
    [Imported] and [NotExported], on a hit as on a miss.  In the gobgp
    source the sequence that is not asked for is set to nil: [Filtered]
    of a successful [RoutesReceived] and [Imported] of a successful
    [RoutesFiltered] are nil; [NotExported], like the sequence that was
    asked for, is as [GetRoutes] filled it for the neighbor that was
    looked up.  ([wf_state] holds in every state the openbgpd source
    gets into, see [reachable_wf].) *)
Theorem C3_unrequested_sequences :
  (forall (env : openbgpd.Env) c s r s',
     openbgpd.wf_state s ->
     openbgpd.call env c s = (Ok r, s') ->
     claims.unrequested_empty c r) /\
  (forall (env : gobgp.Env) neighborID s r s',
     gobgp.RoutesReceived env neighborID s = (Ok r, s') ->
     api.Filtered r = nil_slice /\ len (api.Filtered r) = 0 /\
     exists neigh routes,
       gobgp.lookupNeighbor env (gobgp.world s) neighborID = inr neigh /\
       gobgp.GetRoutes env
         (gobgp.world (gobgp.record (EvRpc "lookupNeighbor" neighborID) s))
         neigh gobgpapi.TableType_ADJ_IN (gobgp.NewRoutesResponse env)
       = (routes, None) /\
       api.NotExported r = api.NotExported routes /\
       api.Imported r = api.Imported routes) /\
  (forall (env : gobgp.Env) neighborID s r s',
     gobgp.RoutesFiltered env neighborID s = (Ok r, s') ->
     api.Imported r = nil_slice /\ len (api.Imported r) = 0 /\
     exists neigh routes,
       gobgp.lookupNeighbor env (gobgp.world s) neighborID = inr neigh /\
       gobgp.GetRoutes env
         (gobgp.world (gobgp.record (EvRpc "lookupNeighbor" neighborID) s))
         neigh gobgpapi.TableType_ADJ_IN (gobgp.NewRoutesResponse env)
       = (routes, None) /\
       api.NotExported r = api.NotExported routes /\
       api.Filtered r = api.Filtered routes).
Proof.
  split; [| split].
  - intros env c s r s' Hwf Hrun.
    destruct c; try exact I; cbn [openbgpd.call] in Hrun;
      apply mapM_Ok_inv in Hrun as (r0 & Hrun & ->); cbn.
    + pose proof (hoare_Ok _ _ _ _ _ _ _
                    (wf_routes_method env openbgpd.FRoutesReceived neighborID) Hwf Hrun)
        as [_ Hshape].
      cbn in Hshape. unfold openbgpd.received_ok in Hshape.
      apply andb_true_iff in Hshape as [Hshape H3].
      apply andb_true_iff in Hshape as [_ H2].
      split; apply empty_not_nil_eq; assumption.
    + pose proof (hoare_Ok _ _ _ _ _ _ _
                    (wf_routes_method env openbgpd.FRoutesFiltered neighborID) Hwf Hrun)
        as [_ Hshape].
      cbn in Hshape. unfold openbgpd.filtered_ok in Hshape.
      apply andb_true_iff in Hshape as [Hshape H3].
      apply andb_true_iff in Hshape as [_ H2].
      split; apply empty_not_nil_eq; assumption.
  - intros env id s r s' Hrun.
    destruct (RoutesReceived_filled env id s r s' Hrun) as (neigh & routes & Hl & Hg & ->).
    split; [reflexivity |]. split; [reflexivity |].
    exists neigh, routes. repeat split; assumption.
  - intros env id s r s' Hrun.
    destruct (RoutesFiltered_filled env id s r s' Hrun) as (neigh & routes & Hl & Hg & ->).
    split; [reflexivity |]. split; [reflexivity |].
    exists neigh, routes. repeat split; assumption.
Qed.

Lemma C3_unrequested_sequences_witness :
  let s := examples.bgplgd.s_received in
  openbgpd.wf_state s /\
  exists r s',
    openbgpd.call examples.bgplgd.env0 (sources.RoutesReceived "n1") s = (Ok r, s') /\
    claims.unrequested_empty (sources.RoutesReceived "n1") r.
Proof.
  assert (Hwf : openbgpd.wf_state examples.bgplgd.s_received) by reflexivity.
  split; [exact Hwf |].
  destruct (openbgpd.call examples.bgplgd.env0 (sources.RoutesReceived "n1")
              examples.bgplgd.s_received) as [[r | e | p] s'] eqn:Hrun;
    [| vm_compute in Hrun; discriminate | vm_compute in Hrun; discriminate].
  exists r, s'. split; [reflexivity |].
  exact (proj1 C3_unrequested_sequences examples.bgplgd.env0 _ _ r s' Hwf Hrun).
Defined.

(** Against C4 as stated: [Routes] of the gobgp source succeeds and no
    cache holds the response. *)
Lemma C4_counterexample :
  ~ claims.gobgp_stores gobgpd.env0 (sources.Routes "192.0.2.1") gobgpd.s0.
Proof.
  intros H. specialize (H _ _ eq_refl). vm_compute in H. discriminate.
Qed.

(** C4. The skeleton of the calls.  In the openbgpd source, [Neighbors],
    [NeighborsSummary], [Routes], [RoutesReceived] and [RoutesFiltered]
    first ask their cache: on a hit they return the cached response and
    send nothing; on a miss, a call that succeeds has sent its request
    to the backend and has stored the response it returns in the cache
    (unless the cache is disabled).  [RoutesNotExported] of the openbgpd
    source builds an empty response without cache and without request.
    In the gobgp source no call reads or writes a cache: every call
    starts with a call to the backend and leaves the source as it is.
    ([wf_state] holds in every state the openbgpd source gets into, see
    [reachable_wf].) *)
Theorem C4_cache_skeleton :
  (forall (env : openbgpd.Env) c s,
     openbgpd.wf_state s ->
     openbgpd.is_cached c = true ->
     match openbgpd.cached env c s with
     | Some v =>
         exists s',
           openbgpd.call env c s = (Ok (openbgpd.flagged v), s') /\
           log (openbgpd.world s') = log (openbgpd.world s)
     | None =>
         forall r s',
           openbgpd.call env c s = (Ok r, s') ->
           (exists url evs,
              log (openbgpd.world s') = log (openbgpd.world s) ++ EvHttpGet url :: evs) /\
           (openbgpd.disabled c (openbgpd.this s) = false ->
            openbgpd.stored c (openbgpd.this s') = Some r)
     end) /\
  (forall (env : openbgpd.Env) neighborID s,
     exists r s',
       openbgpd.RoutesNotExported env neighborID s = (Ok r, s') /\
       openbgpd.this s' = openbgpd.this s /\
       log (openbgpd.world s') = log (openbgpd.world s) /\
       elems (api.Imported r) = [] /\ elems (api.Filtered r) = [] /\
       elems (api.NotExported r) = []) /\
  (forall (env : gobgp.Env) c, gobgp.goes_out (gobgp.call env c)).
Proof.
  split; [| split].
  - intros env c s Hwf Hk.
    destruct (openbgpd.cached env c s) as [v |] eqn:Hc.
    + destruct (call_hit env c s v Hwf Hc) as (m & s' & Hrun & Hw & _).
      exists s'. split; [exact Hrun | now rewrite Hw].
    + intros r s' Hrun.
      destruct (call_miss env c s r s' Hk Hc Hrun) as (_ & Hlog & Hst).
      split; assumption.
  - intros env id s. unfold openbgpd.RoutesNotExported.
    erewrite bind_run_Ok by apply makeResponseMeta_run.
    do 2 eexists. split; [reflexivity |]. cbn. repeat split.
  - intros env c. apply goes_out_call.
Qed.

Lemma C4_cache_skeleton_witness :
  let s := examples.bgplgd.s0 in
  let c := sources.Routes "n1" in
  openbgpd.wf_state s /\
  openbgpd.is_cached c = true /\
  openbgpd.cached examples.bgplgd.env0 c s = None /\
  exists r s',
    openbgpd.call examples.bgplgd.env0 c s = (Ok r, s') /\
    (exists url evs,
       log (openbgpd.world s') = log (openbgpd.world s) ++ EvHttpGet url :: evs) /\
    openbgpd.stored c (openbgpd.this s') = Some r.
Proof.
  assert (Hwf : openbgpd.wf_state examples.bgplgd.s0) by reflexivity.
  split; [exact Hwf |]. split; [reflexivity |]. split; [reflexivity |].
  pose proof (proj1 C4_cache_skeleton examples.bgplgd.env0 (sources.Routes "n1")
                examples.bgplgd.s0 Hwf eq_refl) as H.
  change (openbgpd.cached examples.bgplgd.env0 (sources.Routes "n1") examples.bgplgd.s0)
    with (@None sources.Response) in H.
  destruct (openbgpd.call examples.bgplgd.env0 (sources.Routes "n1")
              examples.bgplgd.s0) as [[r | e | p] s'] eqn:Hrun;
    [| vm_compute in Hrun; discriminate | vm_compute in Hrun; discriminate].
  destruct (H r s' eq_refl) as [Hlog Hst].
  exists r, s'. split; [reflexivity |]. split; [exact Hlog |].
  apply Hst. reflexivity.
Defined.

(** C5. In the openbgpd source, the only one whose methods go through a
    cache: when the cache of a call holds a value for the request, the
    call returns that value with [ResultFromCache] set and [CachedAt]
    and [TTL] as stored, and the log of backend calls is unchanged; when
    it holds none (and for the calls that have no cache), a response
    that is returned has [ResultFromCache] false.  ([wf_state] holds in
    every state the source gets into, see [reachable_wf].) *)
Theorem C5_cache_hit_envelope (env : openbgpd.Env) (c : sources.Call) (s : openbgpd.St) :
  openbgpd.wf_state s ->
  match openbgpd.cached env c s with
  | Some v =>
      exists m s',
        openbgpd.call env c s = (Ok (openbgpd.flagged v), s') /\
        log (openbgpd.world s') = log (openbgpd.world s) /\
        sources.meta_of v = Some m /\
        sources.meta_of (openbgpd.flagged v)
        = Some {| api.CachedAt := api.CachedAt m;
                  api.Version := api.Version m;
                  api.ResultFromCache := true;
                  api.TTL := api.TTL m |}
  | None =>
      forall r s',
        openbgpd.call env c s = (Ok r, s') ->
        exists m, sources.meta_of r = Some m /\ api.ResultFromCache m = false
  end.
Proof.
  intros Hwf. destruct (openbgpd.cached env c s) as [v |] eqn:Hc.
  - destruct (call_hit env c s v Hwf Hc) as (m & s' & Hrun & Hw & Hm & Hfl).
    exists m, s'. split; [exact Hrun |]. split; [now rewrite Hw |].
    split; [exact Hm | exact Hfl].
  - intros r s' Hrun.
    destruct (openbgpd.is_cached c) eqn:Hk.
    + apply (call_miss env c s r s' Hk Hc Hrun).
    + apply (call_uncached_fresh env c s r s' Hk Hrun).
Qed.

Lemma C5_cache_hit_envelope_witness :
  let s := examples.bgplgd.s_routes in
  openbgpd.wf_state s /\
  exists v m s',
    openbgpd.cached examples.bgplgd.env0 (sources.Routes "n1") s = Some v /\
    openbgpd.call examples.bgplgd.env0 (sources.Routes "n1") s
    = (Ok (openbgpd.flagged v), s') /\
    log (openbgpd.world s') = log (openbgpd.world s) /\
    sources.meta_of v = Some m /\
    api.ResultFromCache m = false /\
    api.CachedAt m = 1 * examples.second /\
    api.TTL m = 7 * examples.second.
Proof.
  assert (Hwf : openbgpd.wf_state examples.bgplgd.s_routes) by reflexivity.
  split; [exact Hwf |].
  pose proof (C5_cache_hit_envelope examples.bgplgd.env0 (sources.Routes "n1")
                examples.bgplgd.s_routes Hwf) as H.
  destruct (openbgpd.cached examples.bgplgd.env0 (sources.Routes "n1")
              examples.bgplgd.s_routes) as [v |] eqn:Hc; [| vm_compute in Hc; discriminate].
  destruct H as (m & s' & Hrun & Hlog & Hm & _).
  exists v, m, s'. split; [reflexivity |]. split; [exact Hrun |].
  split; [exact Hlog |]. split; [exact Hm |].
  vm_compute in Hc. inversion Hc; subst. cbn in Hm. inversion Hm; subst.
  repeat split.
Defined.

(** C6. [RoutesFiltered] of the gobgp source dereferences the nil response
    after a failed neighbor lookup, and [Neighbors] the nil message after
    a failed [Recv]: both panic instead of returning the error. *)
Theorem C6_gobgp_panics_on_errors :
  gobgp.lookupNeighbor gobgpd.env0 w0 "unknown" = inl "could not lookup neighbor" /\
  (gobgp.RoutesFiltered gobgpd.env0 "unknown" gobgpd.s0).1
  = Panic "nil pointer dereference: routes.Imported" /\
  (gobgp.Neighbors gobgpd.env_broken_stream gobgpd.s0).1
  = Panic "nil pointer dereference: _resp.Peer" /\
  (gobgp.NeighborsStatus gobgpd.env_broken_stream gobgpd.s0).1
  = Panic "nil pointer dereference: _resp.Peer".
Proof. vm_compute. repeat split; reflexivity. Qed.

(** Against C7 as stated: in [AllRoutes] of the gobgp source,
    [GetRoutes] fails for the first peer and the call succeeds with the
    routes of the second. *)
Lemma C7_counterexample :
  ~ claims.gobgp_AllRoutes_aborts gobgpd.env0 gobgpd.s0.
Proof.
  intros H.
  destruct (H gobgpd.peer_b [gobgpd.peer_a] gobgpd.empty_response
              "rpc error: deadline exceeded" eq_refl eq_refl) as (s' & Hrun).
  vm_compute in Hrun. discriminate.
Qed.

(** C7. Errors inside the loops.  In the openbgpd source, the loop of
    [Neighbors] ends at the first neighbor whose [RoutesFiltered] fails:
    no later neighbor is asked for, [Neighbors] returns that error and
    nothing is written to the neighbors cache.  In the gobgp source,
    [AllRoutes] returns the error of [GetNeighbors]; once the neighbors
    are listed it always succeeds: an error of [GetRoutes] for a peer is
    printed and the loop goes on with the next peer and the response as
    it is. *)
Theorem C7_errors_in_loops :
  (forall (env : openbgpd.Env) pre n post s pre' s1 e s2,
     openbgpd.Neighbors_loop env pre s = (Ok pre', s1) ->
     openbgpd.RoutesFiltered env (api.nID n) s1 = (Err e, s2) ->
     openbgpd.Neighbors_loop env (pre ++ n :: post) s = (Err e, s2)) /\
  (forall (env : openbgpd.Env) s nb s1 e s2,
     openbgpd.cached env sources.Neighbors s = None ->
     openbgpd.fetch_neighbors env (openbgpd.tick s) = (Ok nb, s1) ->
     openbgpd.Neighbors_loop env nb s1 = (Err e, s2) ->
     openbgpd.Neighbors env s = (Err e, s2) /\
     openbgpd.neighborsCache (openbgpd.this s2)
     = openbgpd.neighborsCache (openbgpd.this s)) /\
  (forall (env : gobgp.Env) s e,
     gobgp.GetNeighbors env (gobgp.world s) = inl e ->
     exists s', gobgp.AllRoutes env s = (Err e, s')) /\
  (forall (env : gobgp.Env) s peers,
     gobgp.GetNeighbors env (gobgp.world s) = inr peers ->
     exists r s', gobgp.AllRoutes env s = (Ok r, s')) /\
  (forall (env : gobgp.Env) peer rest routes s routes1 e,
     gobgp.GetRoutes env (gobgp.world s) peer gobgpapi.TableType_ADJ_IN routes
     = (routes1, Some e) ->
     gobgp.AllRoutes_loop env (peer :: rest) routes s
     = gobgp.AllRoutes_loop env rest routes1
         (gobgp.record (EvLog e)
            (gobgp.record (EvRpc "GetRoutes" (gobgpapi.address_of peer)) s))).
Proof.
  split; [| split; [| split; [| split]]].
  - intros env pre n post s pre' s1 e s2. apply Neighbors_loop_abort.
  - intros env s nb s1 e s2. apply Neighbors_abort.
  - intros env s e H. unfold gobgp.AllRoutes, bind, gobgp.call_GetNeighbors.
    rewrite H. eexists. reflexivity.
  - intros env s peers H. unfold gobgp.AllRoutes, bind at 1, gobgp.call_GetNeighbors.
    rewrite H. apply AllRoutes_loop_Ok.
  - intros env peer rest routes s routes1 e. apply AllRoutes_loop_continues.
Qed.

Lemma C7_errors_in_loops_witness :
  let env := examples.bgplgd.env_n2_down in
  let s := (openbgpd.fetch_neighbors env (openbgpd.tick examples.bgplgd.s0)).2 in
  exists pre' s1 s2,
    openbgpd.Neighbors_loop env [examples.neighbor "n1"] s = (Ok pre', s1) /\
    openbgpd.RoutesFiltered env "n2" s1 = (Err "connection refused", s2) /\
    openbgpd.Neighbors_loop env [examples.neighbor "n1"; examples.neighbor "n2"] s
    = (Err "connection refused", s2).
Proof.
  cbv zeta.
  set (env := examples.bgplgd.env_n2_down).
  set (s := (openbgpd.fetch_neighbors env (openbgpd.tick examples.bgplgd.s0)).2).
  destruct (openbgpd.Neighbors_loop env [examples.neighbor "n1"] s)
    as [[pre' | e | p] s1] eqn:Hpre;
    [| vm_compute in Hpre; discriminate | vm_compute in Hpre; discriminate].
  destruct (openbgpd.RoutesFiltered env "n2" s1) as [[r | e | p] s2] eqn:Hfail.
  - exfalso. revert Hfail. vm_compute in Hpre. inversion Hpre; subst.
    vm_compute. discriminate.
  - assert (He : e = "connection refused").
    { revert Hfail. vm_compute in Hpre. inversion Hpre; subst.
      vm_compute. intros H. inversion H. reflexivity. }
    subst e. exists pre', s1, s2. split; [reflexivity |]. split; [exact Hfail |].
    exact (proj1 C7_errors_in_loops env [examples.neighbor "n1"] (examples.neighbor "n2")
             [] s pre' s1 _ s2 Hpre Hfail).
  - exfalso. revert Hfail. vm_compute in Hpre. inversion Hpre; subst.
    vm_compute. discriminate.
Defined.

(** C8. [NeighborsStatus] of the gobgp source builds a status for each
    peer of the stream and appends none of them: with two peers reported,
    the response has no entry. *)
Theorem C8_gobgp_NeighborsStatus_is_empty :
  gobgp.ListPeer gobgpd.env0 w0 false
  = inr [gobgpapi.RecvMsg {| gobgpapi.lp_Peer := Some gobgpd.peer_a |};
         gobgpapi.RecvMsg {| gobgpapi.lp_Peer := Some gobgpd.peer_b |}] /\
  (gobgp.NeighborsStatus gobgpd.env0 gobgpd.s0).1
  = Ok {| api.ns_Meta := None; api.ns_Neighbors := [] |}.
Proof. vm_compute. split; reflexivity. Qed.

(** C9. For a peer with the address families (received 10, accepted 8)
    and (received 5, accepted 5), [Neighbors] of the gobgp source reports
    15 received, 13 accepted, and 4 filtered: the running totals are
    subtracted once per family, where received minus accepted is 2. *)
Theorem C9_gobgp_filtered_counter :
  exists n rest s',
    gobgp.Neighbors gobgpd.env0 gobgpd.s0
    = (Ok {| api.nr_Meta := None; api.Neighbors := n :: rest |}, s') /\
    api.nID n = "192.0.2.1" /\
    api.RoutesReceived n = 15 /\
    api.RoutesAccepted n = 13 /\
    api.RoutesExported n = 4 /\
    api.RoutesFiltered n = 4 /\
    api.RoutesReceived n - api.RoutesAccepted n = 2.
Proof. do 3 eexists. vm_compute. repeat split; reflexivity. Qed.

(** C10. [Status] of the openbgpd source sends nothing to the backend and
    cannot fail: whatever the surroundings and the state, it returns a
    response with version [openbgpd] and the message
    [openbgpd up and running], the log of backend calls and the source
    are as before. *)
Theorem C10_Status_never_fails (env : openbgpd.Env) (s : openbgpd.St) :
  exists resp s',
    openbgpd.Status env s = (Ok resp, s') /\
    log (openbgpd.world s') = log (openbgpd.world s) /\
    openbgpd.this s' = openbgpd.this s /\
    api.sVersion (api.st_Status resp) = "openbgpd" /\
    api.Message (api.st_Status resp) = "openbgpd up and running".
Proof.
  unfold openbgpd.Status.
  erewrite bind_run_Ok by apply makeResponseMeta_run.
  do 2 eexists. split; [reflexivity |]. cbn. repeat split.
Qed.

(** * Further properties of the two sources *)

(** ** The gobgp source *)

Section GobgpMore.

Import gobgpapi gobgp.

Variable env : Env.

(** X1. [Routes], [RoutesRequired], [RoutesReceived] and [RoutesFiltered]
    of the gobgp source are views of one fetch.  When [Routes] returns a
    response, [RoutesRequired] returns the same, [RoutesReceived] the same
    with [Filtered] set to nil and [RoutesFiltered] the same with
    [Imported] set to nil, all in the same final state.  When [Routes]
    returns an error, [RoutesRequired] and [RoutesReceived] return it
    too, and [RoutesFiltered] prints it and panics.  [Routes] itself never
    panics. *)
Theorem X1_gobgp_views_of_one_fetch neighborID s :
  match Routes env neighborID s with
  | (Ok r, s') =>
      RoutesRequired env neighborID s = (Ok r, s') /\
      RoutesReceived env neighborID s = (Ok (set_Filtered nil_slice r), s') /\
      RoutesFiltered env neighborID s = (Ok (set_Imported nil_slice r), s')
  | (Err e, s') =>
      RoutesRequired env neighborID s = (Err e, s') /\
      RoutesReceived env neighborID s = (Err e, s') /\
      RoutesFiltered env neighborID s
      = (Panic "nil pointer dereference: routes.Imported", record (EvLog e) s')
  | (Panic _, _) => False
  end.
Proof.
  unfold RoutesRequired, getRoutes, Routes.
  destruct (routes_of env neighborID TableType_ADJ_IN s) as [[r | e | p] s'] eqn:Hrun.
  - split; [reflexivity |]. split.
    + unfold RoutesReceived. rewrite (bind_run_Ok _ _ _ _ _ Hrun). reflexivity.
    + unfold RoutesFiltered, getRoutes.
      assert (Htry : try (routes_of env neighborID TableType_ADJ_IN) s = (Ok (inr r), s'))
        by (unfold try; rewrite Hrun; reflexivity).
      rewrite (bind_run_Ok _ _ _ _ _ Htry). reflexivity.
  - split; [reflexivity |]. split.
    + unfold RoutesReceived. rewrite (bind_run_Err _ _ _ _ _ Hrun). reflexivity.
    + unfold RoutesFiltered, getRoutes.
      assert (Htry : try (routes_of env neighborID TableType_ADJ_IN) s = (Ok (inl e), s'))
        by (unfold try; rewrite Hrun; reflexivity).
      rewrite (bind_run_Ok _ _ _ _ _ Htry). reflexivity.
  - revert Hrun. unfold routes_of, bind, call_lookupNeighbor, call_GetRoutes.
    destruct (lookupNeighbor env (world s) neighborID); [discriminate |].
    destruct (GetRoutes env _ _ _ _) as [r0 [e0 |]]; discriminate.
Qed.

Lemma count_afiSafi_keeps_identity states neigh :
  let n := fold_left count_afiSafi states neigh in
  api.nID n = api.nID neigh /\ api.Address n = api.Address neigh /\
  api.ASN n = api.ASN neigh /\ api.State n = api.State neigh /\
  api.Description n = api.Description neigh /\
  api.RouteServerID n = api.RouteServerID neigh /\
  api.Uptime n = api.Uptime neigh.
Proof.
  revert neigh. induction states as [| f rest IH]; intros neigh; cbn zeta.
  - repeat split.
  - cbn [fold_left]. destruct (IH (count_afiSafi neigh f)) as (H1 & H2 & H3 & H4 & H5 & H6 & H7).
    rewrite H1, H2, H3, H4, H5, H6, H7. repeat split.
Qed.

Lemma state_of_up st : state_of st = "up" <-> st = PeerState_ESTABLISHED.
Proof. destruct st; cbn; split; intros H; try discriminate; reflexivity. Qed.

Lemma state_of_cases st : state_of st = "up" \/ state_of st = "down".
Proof. destruct st; cbn; auto. Qed.

Lemma panics_bind {A B} (c : M St A) (k : A -> M St B) s :
  more.panics (c s).1 = true -> more.panics (bind c k s).1 = true.
Proof.
  unfold bind. destruct (c s) as [[a | e | p] s1]; cbn; intros H;
    [discriminate | discriminate | reflexivity].
Qed.

(** The loop over the address families returns when every family and
    its state are there, and panics otherwise. *)
Lemma count_afiSafis_Ok families states neigh s :
  more.states_of families = Some states ->
  count_afiSafis families neigh s = (Ok (fold_left count_afiSafi states neigh), s).
Proof.
  revert states neigh.
  induction families as [| [[[state |]] |] rest IH]; intros states neigh H; cbn in H.
  - inversion H. reflexivity.
  - destruct (more.states_of rest) as [sts |] eqn:Hr; [| discriminate].
    inversion H; subst. cbn [count_afiSafis fold_left]. apply (IH sts). reflexivity.
  - discriminate.
  - discriminate.
Qed.

Lemma count_afiSafis_panics families neigh s :
  more.states_of families = None ->
  more.panics (count_afiSafis families neigh s).1 = true.
Proof.
  revert neigh.
  induction families as [| [[[state |]] |] rest IH]; intros neigh H; cbn in H.
  - discriminate.
  - destruct (more.states_of rest) as [sts |] eqn:Hr; [discriminate |].
    cbn [count_afiSafis]. apply (IH _ eq_refl).
  - reflexivity.
  - reflexivity.
Qed.

(** What [complete] says, message by message. *)
Lemma complete_inv m :
  more.complete m = true ->
  exists peer state conf states timers timersState,
    lp_Peer m = Some peer /\ State peer = Some state /\ Conf peer = Some conf /\
    more.states_of (AfiSafis peer) = Some states /\
    p_Timers peer = Some timers /\ t_State timers = Some timersState.
Proof.
  unfold more.complete, more.complete_status.
  destruct (lp_Peer m) as [peer |]; [| discriminate].
  destruct (State peer) as [state |] eqn:Hst; [| discriminate].
  destruct (p_Timers peer) as [timers |] eqn:Ht; [| discriminate].
  destruct (t_State timers) as [timersState |] eqn:Hts; [| discriminate].
  destruct (Conf peer) as [conf |] eqn:Hc; [| discriminate].
  destruct (more.states_of (AfiSafis peer)) as [states |] eqn:Hfam; [| discriminate].
  intros _. exists peer, state, conf, states, timers, timersState.
  repeat split; assumption.
Qed.

Lemma complete_status_inv m :
  more.complete_status m = true ->
  exists peer state timers timersState,
    lp_Peer m = Some peer /\ State peer = Some state /\
    p_Timers peer = Some timers /\ t_State timers = Some timersState.
Proof.
  unfold more.complete_status.
  destruct (lp_Peer m) as [peer |]; [| discriminate].
  destruct (State peer) as [state |] eqn:Hst; [| discriminate].
  destruct (p_Timers peer) as [timers |] eqn:Ht; [| discriminate].
  destruct (t_State timers) as [timersState |] eqn:Hts; [| discriminate].
  intros _. exists peer, state, timers, timersState.
  repeat split; assumption.
Qed.

(** One round of [Neighbors] for a message whose nested messages are
    there: the neighbor is the one the counters were added to, but for
    its uptime. *)
Lemma neighbor_of_run id m peer state conf states timers timersState s :
  lp_Peer m = Some peer -> State peer = Some state -> Conf peer = Some conf ->
  more.states_of (AfiSafis peer) = Some states ->
  p_Timers peer = Some timers -> t_State timers = Some timersState ->
  exists n s',
    neighbor_of env id m s = (Ok n, s') /\
    this s' = this s /\ log (world s') = log (world s) /\
    n = set_Uptime (api.Uptime n)
          (fold_left count_afiSafi states
             {| api.nID := PeerHash env peer;
                api.Address := NeighborAddress state;
                api.ASN := PeerAs state;
                api.State := state_of (SessionState state);
                api.Description := Description conf;
                api.RouteServerID := id;
                api.RoutesReceived := 0; api.RoutesFiltered := 0;
                api.RoutesExported := 0; api.RoutesAccepted := 0;
                api.Uptime := 0 |}) /\
    (Uptime timersState = None -> api.Uptime n = 0).
Proof.
  intros Hp Hst Hc Hfam Ht Hts. unfold neighbor_of.
  rewrite Hp. cbn [deref]. unfold bind at 1. cbn [ret].
  rewrite Hst. cbn [deref]. unfold bind at 1. cbn [ret].
  rewrite Hc. cbn [deref]. unfold bind at 1. cbn [ret].
  unfold bind at 1. rewrite (count_afiSafis_Ok _ _ _ _ Hfam).
  rewrite Ht. cbn [deref]. unfold bind at 1. cbn [ret].
  rewrite Hts. cbn [deref]. unfold bind at 1. cbn [ret].
  set (n0 := fold_left count_afiSafi states _).
  destruct (Uptime timersState) as [up |].
  - unfold time_Since, time_Now, bind, ret. do 2 eexists.
    split; [reflexivity |]. cbn. repeat split. discriminate.
  - exists n0, s. split; [reflexivity |]. split; [reflexivity |]. split; [reflexivity |].
    assert (H0 : api.Uptime n0 = 0).
    { subst n0. apply count_afiSafi_keeps_identity. }
    split; [| intros _; exact H0].
    destruct n0; reflexivity.
Qed.

Lemma neighbor_of_incomplete id m s :
  more.complete m = false ->
  more.panics (neighbor_of env id m s).1 = true.
Proof.
  unfold more.complete, more.complete_status, neighbor_of.
  destruct (lp_Peer m) as [peer |]; [| reflexivity].
  cbn [deref]. unfold bind at 1. cbn [ret].
  destruct (State peer) as [state |]; [| reflexivity].
  cbn [deref]. unfold bind at 1. cbn [ret].
  destruct (Conf peer) as [conf |]; [| reflexivity].
  cbn [deref]. unfold bind at 1. cbn [ret].
  destruct (more.states_of (AfiSafis peer)) as [states |] eqn:Hfam.
  - unfold bind at 1. rewrite (count_afiSafis_Ok _ _ _ _ Hfam).
    destruct (p_Timers peer) as [timers |]; [| reflexivity].
    cbn [deref]. unfold bind at 1. cbn [ret].
    destruct (t_State timers) as [timersState |]; [discriminate | reflexivity].
  - intros _. apply panics_bind, count_afiSafis_panics, Hfam.
Qed.

Lemma neighbor_of_built_from id m s n s' :
  more.complete m = true ->
  neighbor_of env id m s = (Ok n, s') ->
  more.built_from env id m n /\ this s' = this s /\ log (world s') = log (world s).
Proof.
  intros Hm Hrun.
  destruct (complete_inv m Hm)
    as (peer & state & conf & states & timers & timersState & Hp & Hst & Hc & Hfam & Ht & Hts).
  destruct (neighbor_of_run id m peer state conf states timers timersState s
              Hp Hst Hc Hfam Ht Hts) as (n1 & s1 & Hrun1 & Hthis & Hlog & Hn & Hup).
  rewrite Hrun in Hrun1. inversion Hrun1; subst n1 s1; clear Hrun1.
  split; [| split; [exact Hthis | exact Hlog]].
  exists peer, state, conf, timers, timersState.
  destruct (count_afiSafi_keeps_identity states
              {| api.nID := PeerHash env peer;
                 api.Address := NeighborAddress state;
                 api.ASN := PeerAs state;
                 api.State := state_of (SessionState state);
                 api.Description := Description conf;
                 api.RouteServerID := id;
                 api.RoutesReceived := 0; api.RoutesFiltered := 0;
                 api.RoutesExported := 0; api.RoutesAccepted := 0;
                 api.Uptime := 0 |})
    as (H1 & H2 & H3 & H4 & H5 & H6 & _).
  cbn in H1, H2, H3, H4, H5, H6.
  rewrite Hn. cbn [set_Uptime api.nID api.Address api.ASN api.State api.Description
                   api.RouteServerID api.Uptime].
  rewrite H1, H2, H3, H4, H5, H6.
  repeat split; try assumption; try reflexivity.
  - apply state_of_up.
  - apply state_of_up.
  - apply state_of_cases.
Qed.

Lemma Neighbors_loop_messages msgs acc s :
  forallb more.complete msgs = true ->
  exists nb s',
    Neighbors_loop env (map RecvMsg msgs) acc s = (Ok (acc ++ nb), s') /\
    Forall2 (more.built_from env (cfg_ID (config (this s)))) msgs nb /\
    this s' = this s /\ log (world s') = log (world s).
Proof.
  revert acc s. induction msgs as [| m rest IH]; intros acc s Hall.
  - exists [], s. cbn. rewrite app_nil_r. repeat split. constructor.
  - cbn in Hall. apply andb_true_iff in Hall as [Hm Hrest].
    cbn [map Neighbors_loop]. unfold gets, bind at 1.
    destruct (complete_inv m Hm)
      as (peer & state & conf & states & timers & timersState & Hp & Hst & Hc & Hfam & Ht & Hts).
    destruct (neighbor_of_run (cfg_ID (config (this s))) m peer state conf states timers
                timersState s Hp Hst Hc Hfam Ht Hts)
      as (n & s1 & Hrun & _ & _ & _ & _).
    destruct (neighbor_of_built_from _ m s n s1 Hm Hrun) as (Hbuilt & Hthis1 & Hlog1).
    unfold bind at 1. rewrite Hrun.
    destruct (IH (acc ++ [n]) s1 Hrest) as (nb & s' & Hloop & Hall & Hthis & Hlog).
    exists (n :: nb), s'. rewrite Hloop, <- app_assoc. repeat split.
    + constructor; [exact Hbuilt |]. rewrite <- Hthis1. exact Hall.
    + rewrite Hthis. exact Hthis1.
    + rewrite Hlog. exact Hlog1.
Qed.

(** X2. When the peer stream delivers only messages, with their nested
    messages all there, [Neighbors] of the gobgp source returns one
    neighbor per message, in the order of the stream: each has the hash,
    address, ASN and description of its peer and the ID of the route
    server, its state is [up] exactly when the session is established
    and [down] otherwise, and its uptime is zero when the peer has no
    uptime.  The response has no envelope, the source is unchanged and
    one call has gone out. *)
Theorem X2_gobgp_Neighbors_one_per_peer s msgs :
  ListPeer env (world s) true = inr (map RecvMsg msgs) ->
  forallb more.complete msgs = true ->
  exists nb s',
    Neighbors env s = (Ok {| api.nr_Meta := None; api.Neighbors := nb |}, s') /\
    Forall2 (more.built_from env (cfg_ID (config (this s)))) msgs nb /\
    this s' = this s /\
    log (world s') = log (world s) ++ [EvRpc "ListPeer" ""].
Proof.
  intros Hlist Hall. unfold Neighbors, bind at 1, call_ListPeer. rewrite Hlist.
  destruct (Neighbors_loop_messages msgs [] (record (EvRpc "ListPeer" "") s) Hall)
    as (nb & s' & Hrun & Hbuilt & Hthis & Hlog).
  exists nb, s'. unfold bind. rewrite Hrun. cbn. repeat split; assumption.
Qed.

End GobgpMore.

Lemma X2_gobgp_Neighbors_one_per_peer_witness :
  let msgs := [{| gobgpapi.lp_Peer := Some examples.gobgpd.peer_a |};
               {| gobgpapi.lp_Peer := Some examples.gobgpd.peer_b |}] in
  forallb more.complete msgs = true /\
  exists nb s',
    gobgp.Neighbors examples.gobgpd.env0 examples.gobgpd.s0
    = (Ok {| api.nr_Meta := None; api.Neighbors := nb |}, s') /\
    Forall2 (more.built_from examples.gobgpd.env0 "rs2") msgs nb /\
    length nb = 2%nat.
Proof.
  cbv zeta. split; [reflexivity |].
  destruct (X2_gobgp_Neighbors_one_per_peer examples.gobgpd.env0 examples.gobgpd.s0
              [{| gobgpapi.lp_Peer := Some examples.gobgpd.peer_a |};
               {| gobgpapi.lp_Peer := Some examples.gobgpd.peer_b |}] eq_refl eq_refl)
    as (nb & s' & H1 & H2 & _ & _).
  exists nb, s'. split; [exact H1 |]. split; [exact H2 |].
  apply Forall2_length in H2. now rewrite <- H2.
Defined.

Section GobgpOutcomes.

Import gobgpapi gobgp.

Variable env : Env.

Lemma delivers_messages ok stream :
  more.delivers ok stream = true ->
  exists msgs, stream = map RecvMsg msgs /\ forallb ok msgs = true.
Proof.
  induction stream as [| [m | e] rest IH]; cbn; intros H.
  - exists []. split; reflexivity.
  - apply andb_true_iff in H as [Hm Hrest]. destruct (IH Hrest) as (msgs & -> & Hall).
    exists (m :: msgs). split; [reflexivity |]. cbn. rewrite Hm. exact Hall.
  - discriminate.
Qed.

Lemma Neighbors_loop_broken stream acc s :
  more.delivers more.complete stream = false ->
  more.panics (Neighbors_loop env stream acc s).1 = true.
Proof.
  revert acc s. induction stream as [| [m | e] rest IH]; intros acc s H.
  - discriminate.
  - cbn in H. cbn [Neighbors_loop]. unfold gets, bind at 1.
    destruct (more.complete m) eqn:Hm.
    + destruct (complete_inv m Hm)
        as (peer & state & conf & states & timers & timersState
            & Hp & Hst & Hc & Hfam & Ht & Hts).
      destruct (neighbor_of_run env (cfg_ID (config (this s))) m peer state conf states
                  timers timersState s Hp Hst Hc Hfam Ht Hts)
        as (n & s1 & Hrun & _).
      unfold bind at 1. rewrite Hrun. apply IH, H.
    + apply panics_bind, neighbor_of_incomplete, Hm.
  - reflexivity.
Qed.

(** One round of [NeighborsStatus]. *)
Lemma status_of_complete m s :
  more.complete_status m = true ->
  exists ns s', status_of env m s = (Ok ns, s') /\ this s' = this s.
Proof.
  intros Hm.
  destruct (complete_status_inv m Hm)
    as (peer & state & timers & timersState & Hp & Hst & Ht & Hts).
  unfold status_of.
  rewrite Hp. cbn [deref]. unfold bind at 1. cbn [ret].
  rewrite Hst. cbn [deref]. unfold bind at 1. cbn [ret].
  rewrite Ht. cbn [deref]. unfold bind at 1. cbn [ret].
  rewrite Hts. cbn [deref]. unfold bind at 1. cbn [ret].
  destruct (Uptime timersState) as [up |]; cbn; do 2 eexists; split; reflexivity.
Qed.

Lemma status_of_incomplete m s :
  more.complete_status m = false ->
  more.panics (status_of env m s).1 = true.
Proof.
  unfold more.complete_status, status_of.
  destruct (lp_Peer m) as [peer |]; [| reflexivity].
  cbn [deref]. unfold bind at 1. cbn [ret].
  destruct (State peer) as [state |]; [| reflexivity].
  cbn [deref]. unfold bind at 1. cbn [ret].
  destruct (p_Timers peer) as [timers |]; [| reflexivity].
  cbn [deref]. unfold bind at 1. cbn [ret].
  destruct (t_State timers) as [timersState |]; [discriminate | reflexivity].
Qed.

Lemma NeighborsStatus_loop_broken stream s :
  more.delivers more.complete_status stream = false ->
  more.panics (NeighborsStatus_loop env stream s).1 = true.
Proof.
  revert s. induction stream as [| [m | e] rest IH]; intros s H.
  - discriminate.
  - cbn in H. cbn [NeighborsStatus_loop].
    destruct (more.complete_status m) eqn:Hm.
    + destruct (status_of_complete m s Hm) as (ns & s1 & Hrun & _).
      unfold bind at 1. rewrite Hrun. apply IH, H.
    + apply panics_bind, status_of_incomplete, Hm.
  - reflexivity.
Qed.

Lemma NeighborsStatus_loop_sound stream s :
  more.delivers more.complete_status stream = true ->
  exists s', NeighborsStatus_loop env stream s = (Ok tt, s') /\ this s' = this s.
Proof.
  revert s. induction stream as [| [m | e] rest IH]; intros s H.
  - exists s. split; reflexivity.
  - cbn in H. apply andb_true_iff in H as [Hm Hrest]. cbn [NeighborsStatus_loop].
    destruct (status_of_complete m s Hm) as (ns & s1 & Hrun & Hthis1).
    unfold bind at 1. rewrite Hrun.
    destruct (IH s1 Hrest) as (s' & Hloop & Hthis).
    exists s'. split; [exact Hloop |]. rewrite Hthis. exact Hthis1.
  - discriminate.
Qed.

(** X3. How [Neighbors] and [NeighborsStatus] of the gobgp source end.
    They return an error exactly when [ListPeer] itself fails, and then
    that error.  They succeed exactly when every [Recv] before [io.EOF]
    delivers a message with the nested messages the method reads: the
    peer, its state, its timers and their state, and for [Neighbors]
    also the configuration of the peer and every address family with
    its state.  In every other case (an error of a [Recv], whatever it
    is and wherever in the stream, or a message with one of these
    pointers nil) nothing is returned: the call panics.  ([PeerHash],
    which is outside the sources, is taken to return for every peer
    that is not nil.) *)
Theorem X3_gobgp_stream_outcomes s :
  match ListPeer env (world s) true with
  | inl e => (Neighbors env s).1 = Err e
  | inr stream =>
      if more.delivers more.complete stream
      then exists r, (Neighbors env s).1 = Ok r
      else more.panics (Neighbors env s).1 = true
  end /\
  match ListPeer env (world s) false with
  | inl e => (NeighborsStatus env s).1 = Err e
  | inr stream =>
      if more.delivers more.complete_status stream
      then (NeighborsStatus env s).1 = Ok {| api.ns_Meta := None; api.ns_Neighbors := [] |}
      else more.panics (NeighborsStatus env s).1 = true
  end.
Proof.
  split.
  - destruct (ListPeer env (world s) true) as [e | stream] eqn:Hlist.
    + unfold Neighbors, bind, call_ListPeer. rewrite Hlist. reflexivity.
    + destruct (more.delivers more.complete stream) eqn:Hok.
      * destruct (delivers_messages _ stream Hok) as (msgs & -> & Hall).
        unfold Neighbors, bind at 1, call_ListPeer. rewrite Hlist.
        destruct (Neighbors_loop_messages env msgs [] (record (EvRpc "ListPeer" "") s) Hall)
          as (nb & s' & Hrun & _).
        eexists. unfold bind. rewrite Hrun. reflexivity.
      * unfold Neighbors, bind at 1, call_ListPeer. rewrite Hlist.
        apply panics_bind, Neighbors_loop_broken, Hok.
  - destruct (ListPeer env (world s) false) as [e | stream] eqn:Hlist.
    + unfold NeighborsStatus, bind, call_ListPeer. rewrite Hlist. reflexivity.
    + destruct (more.delivers more.complete_status stream) eqn:Hok;
        unfold NeighborsStatus, bind at 1, call_ListPeer; rewrite Hlist.
      * destruct (NeighborsStatus_loop_sound stream (record (EvRpc "ListPeer" "") s) Hok)
          as (s' & Hrun & _).
        unfold bind. rewrite Hrun. reflexivity.
      * apply panics_bind, NeighborsStatus_loop_broken, Hok.
Qed.

(** A message without its timers, and an answer of [GetBgp] without its
    [Global]: the three methods that read through these pointers
    panic. *)
Lemma gobgp_nil_messages_panic :
  let env := examples.gobgpd.env_nil_timers in
  let s := examples.gobgpd.s0 in
  (Neighbors env s).1 = Panic "nil pointer dereference: _resp.Peer.Timers.State" /\
  (NeighborsStatus env s).1 = Panic "nil pointer dereference: _resp.Peer.Timers.State" /\
  (Status env s).1 = Panic "nil pointer dereference: resp.Global.RouterId".
Proof. vm_compute. repeat split. Qed.

(** [time.Unix] wraps around at the end of the range of the seconds:
    the instant lies far in the past, and [time.Since] of it is the
    longest duration. *)
Lemma time_Unix_wraps (now : Time) :
  0 <= now < 2 ^ 62 ->
  time_Unix 100 5 = 100000000005 /\
  time_Unix 100 (-1) = 99999999999 /\
  time_Sub now (time_Unix (2 ^ 63 - 1) 0) = maxDuration.
Proof.
  intros H. split; [reflexivity |]. split; [reflexivity |].
  assert (Ht : time_Unix (2 ^ 63 - 1) 0 = (62135596799 - 2 ^ 63 - 62135596800) * 1000000000)
    by reflexivity.
  rewrite Ht. unfold time_Sub, maxDuration, minDuration. lia.
Qed.

Lemma calls_of_app name l1 l2 :
  more.calls_of name (l1 ++ l2) = more.calls_of name l1 ++ more.calls_of name l2.
Proof. unfold more.calls_of. apply flat_map_app. Qed.

Lemma AllRoutes_loop_asks_all peers routes s :
  exists r s' evs,
    AllRoutes_loop env peers routes s = (Ok r, s') /\
    this s' = this s /\
    log (world s') = log (world s) ++ evs /\
    more.calls_of "GetRoutes" evs = map address_of peers /\
    more.calls_of "GetNeighbors" evs = [].
Proof.
  revert routes s. induction peers as [| peer rest IH]; intros routes s.
  - exists routes, s, []. cbn. rewrite app_nil_r. repeat split.
  - cbn [AllRoutes_loop]. unfold bind at 1, call_GetRoutes.
    destruct (GetRoutes env (world s) peer TableType_ADJ_IN routes) as [routes1 [e |]]; cbn.
    + destruct (IH routes1
                  (record (EvLog e) (record (EvRpc "GetRoutes" (address_of peer)) s)))
        as (r & s' & evs & Hrun & Hthis & Hlog & Hcalls & Hnone).
      exists r, s', ([EvRpc "GetRoutes" (address_of peer); EvLog e] ++ evs).
      split; [exact Hrun |]. split; [exact Hthis |]. split.
      * rewrite Hlog. cbn. rewrite <- !app_assoc. reflexivity.
      * rewrite !calls_of_app, Hcalls, Hnone. split; reflexivity.
    + destruct (IH routes1 (record (EvRpc "GetRoutes" (address_of peer)) s))
        as (r & s' & evs & Hrun & Hthis & Hlog & Hcalls & Hnone).
      exists r, s', ([EvRpc "GetRoutes" (address_of peer)] ++ evs).
      split; [exact Hrun |]. split; [exact Hthis |]. split.
      * rewrite Hlog. cbn. rewrite <- !app_assoc. reflexivity.
      * rewrite !calls_of_app, Hcalls, Hnone. split; reflexivity.
Qed.

(** X4. Once [GetNeighbors] has listed the peers, [AllRoutes] of the
    gobgp source calls [GetRoutes] exactly once for every listed peer, in
    the order of the list, whether earlier calls failed or not; it lists
    the neighbors once, succeeds, and leaves the source as it is. *)
Theorem X4_gobgp_AllRoutes_asks_every_peer s peers :
  GetNeighbors env (world s) = inr peers ->
  exists r s' evs,
    AllRoutes env s = (Ok r, s') /\
    this s' = this s /\
    log (world s') = log (world s) ++ evs /\
    more.calls_of "GetNeighbors" evs = [""] /\
    more.calls_of "GetRoutes" evs = map address_of peers.
Proof.
  intros Hn. unfold AllRoutes, bind at 1, call_GetNeighbors. rewrite Hn.
  destruct (AllRoutes_loop_asks_all peers (NewRoutesResponse env)
              (record (EvRpc "GetNeighbors" "") s))
    as (r & s' & evs & Hrun & Hthis & Hlog & Hcalls & Hnone).
  exists r, s', ([EvRpc "GetNeighbors" ""] ++ evs).
  split; [exact Hrun |]. split; [exact Hthis |]. split.
  - rewrite Hlog. cbn. rewrite <- app_assoc. reflexivity.
  - rewrite !calls_of_app, Hcalls, Hnone. split; reflexivity.
Qed.

End GobgpOutcomes.

Lemma X4_gobgp_AllRoutes_asks_every_peer_witness :
  exists r s' evs,
    gobgp.AllRoutes examples.gobgpd.env0 examples.gobgpd.s0 = (Ok r, s') /\
    log (gobgp.world s') = evs /\
    more.calls_of "GetRoutes" evs = ["192.0.2.2"; "192.0.2.1"].
Proof.
  destruct (X4_gobgp_AllRoutes_asks_every_peer examples.gobgpd.env0 examples.gobgpd.s0
              [examples.gobgpd.peer_b; examples.gobgpd.peer_a] eq_refl)
    as (r & s' & evs & Hrun & _ & Hlog & _ & Hcalls).
  exists r, s', evs. split; [exact Hrun |]. split; [exact Hlog |]. exact Hcalls.
Defined.

Section GobgpStateless.

Import gobgpapi gobgp.

Variable env : Env.

Lemma rc_Expire_new now disabled size :
  caches.rc_Expire now (caches.NewRoutesCache disabled size)
  = (0, caches.NewRoutesCache disabled size).
Proof.
  unfold caches.rc_Expire, caches.NewRoutesCache, caches.with_entries. cbn.
  rewrite map_filter_empty. reflexivity.
Qed.

Lemma RoutesCache_Expire_run get set s :
  RoutesCache_Expire env get set s
  = (Ok (caches.rc_Expire (clock env (ticks (world s))) (get (this s))).1,
     with_this (set (caches.rc_Expire (clock env (ticks (world s))) (get (this s))).2 (this s))
       (with_world {| ticks := S (ticks (world s)); log := log (world s) |} s)).
Proof.
  unfold RoutesCache_Expire, bind, time_Now. cbn -[caches.rc_Expire].
  destruct (caches.rc_Expire _ _). reflexivity.
Qed.

Lemma ExpireCaches_new conf s :
  this s = NewGoBGP conf ->
  (ExpireCaches env s).1 = Ok 0 /\ this (ExpireCaches env s).2 = NewGoBGP conf.
Proof.
  intros H. unfold ExpireCaches.
  rewrite (bind_run_Ok _ _ _ _ _ (RoutesCache_Expire_run _ _ s)).
  rewrite (bind_run_Ok _ _ _ _ _ (RoutesCache_Expire_run _ _ _)).
  cbn [ret fst snd this with_this with_world world]. rewrite H.
  cbn [routesRequiredCache routesNotExportedCache NewGoBGP set_routesRequiredCache
       set_routesNotExportedCache config neighborsCache routesReceivedCache
       routesFilteredCache].
  rewrite !rc_Expire_new. cbn [fst snd]. split; reflexivity.
Qed.

Lemma gobgp_reachable_new_source s :
  more.gobgp_reachable env s -> exists config, this s = NewGoBGP config.
Proof.
  induction 1 as [config w | c s _ [config IH] | prefix s _ [config IH] | s _ [config IH]].
  - exists config. reflexivity.
  - exists config.
    apply (keeps_run (fun st => this st = NewGoBGP config) (call env c) s); [| exact IH].
    apply gkeeps_call; intros; assumption.
  - exists config. exact IH.
  - exists config. apply ExpireCaches_new, IH.
Qed.

(** X5. The gobgp source never stores anything.  In every state it gets
    into, by whatever calls of its methods, the source is as [NewGoBGP]
    made it: the five caches are empty, no cache holds a response for
    any call, and [ExpireCaches] returns 0.  [LookupPrefix] returns its
    error and changes nothing. *)
Theorem X5_gobgp_never_stores s :
  more.gobgp_reachable env s ->
  (exists config, this s = NewGoBGP config) /\
  (forall c, stored c (this s) = None) /\
  (ExpireCaches env s).1 = Ok 0 /\
  (forall prefix, LookupPrefix prefix s = (Err "not implemented: LookupPrefix", s)).
Proof.
  intros Hs. destruct (gobgp_reachable_new_source s Hs) as [config Hc].
  split; [exists config; exact Hc |]. split; [| split].
  - intros c. rewrite Hc. destruct c; reflexivity.
  - apply (ExpireCaches_new config s Hc).
  - intros prefix. reflexivity.
Qed.

End GobgpStateless.

Lemma X5_gobgp_never_stores_witness :
  let s := (gobgp.call examples.gobgpd.env0 (sources.Routes "192.0.2.1")
              (gobgp.call examples.gobgpd.env0 sources.Neighbors examples.gobgpd.s0).2).2 in
  more.gobgp_reachable examples.gobgpd.env0 s /\
  (gobgp.ExpireCaches examples.gobgpd.env0 s).1 = Ok 0.
Proof.
  cbv zeta.
  assert (Hs : more.gobgp_reachable examples.gobgpd.env0
                 (gobgp.call examples.gobgpd.env0 (sources.Routes "192.0.2.1")
                    (gobgp.call examples.gobgpd.env0 sources.Neighbors
                       examples.gobgpd.s0).2).2).
  { apply more.gobgp_reachable_call, more.gobgp_reachable_call.
    apply (more.gobgp_reachable_new examples.gobgpd.env0 examples.gobgpd.cfg0 examples.w0). }
  split; [exact Hs |].
  apply (X5_gobgp_never_stores examples.gobgpd.env0 _ Hs).
Defined.

Section GobgpCounters.

Import gobgpapi gobgp.

Variable env : Env.

Lemma wrap64_ex x : exists k, wrap64 x = x + 2 ^ 64 * k.
Proof.
  exists (- ((x + 2 ^ 63) / 2 ^ 64)). unfold wrap64.
  pose proof (Z.div_mod (x + 2 ^ 63) (2 ^ 64)) as H. lia.
Qed.

Lemma wrap64_shift x k : wrap64 (x + 2 ^ 64 * k) = wrap64 x.
Proof.
  unfold wrap64. replace (x + 2 ^ 64 * k + 2 ^ 63) with (x + 2 ^ 63 + k * 2 ^ 64) by lia.
  rewrite Z_mod_plus_full. reflexivity.
Qed.

Lemma wrap64_small x : - 2 ^ 63 <= x < 2 ^ 63 -> wrap64 x = x.
Proof. intros H. unfold wrap64. rewrite Z.mod_small; lia. Qed.

Lemma count_afiSafi_filtered families neigh :
  wrap64 (api.RoutesFiltered neigh) = api.RoutesFiltered neigh ->
  let n := fold_left count_afiSafi families neigh in
  wrap64 (api.RoutesFiltered n) = api.RoutesFiltered n /\
  exists k,
    api.RoutesFiltered n
    = api.RoutesFiltered neigh
      + Z.of_nat (length families) * (api.RoutesReceived neigh - api.RoutesAccepted neigh)
      + more.running_excess families + 2 ^ 64 * k.
Proof.
  revert neigh. induction families as [| f rest IH]; intros neigh HF; cbn zeta.
  - split; [exact HF |]. exists 0. cbn. lia.
  - cbn [fold_left].
    set (r := Received f). set (a := Accepted f).
    set (neigh1 := count_afiSafi neigh f).
    assert (HR : exists k, api.RoutesReceived neigh1 = api.RoutesReceived neigh + r + 2 ^ 64 * k).
    { subst neigh1. cbn. rewrite int_add_wrap. apply wrap64_ex. }
    assert (HA : exists k, api.RoutesAccepted neigh1 = api.RoutesAccepted neigh + a + 2 ^ 64 * k).
    { subst neigh1. cbn. rewrite int_add_wrap. apply wrap64_ex. }
    assert (HF1 : wrap64 (api.RoutesFiltered neigh1) = api.RoutesFiltered neigh1
                  /\ exists k, api.RoutesFiltered neigh1
                               = api.RoutesFiltered neigh
                                 + (api.RoutesReceived neigh1 - api.RoutesAccepted neigh1)
                                 + 2 ^ 64 * k).
    { subst neigh1. cbn. fold r a. unfold int_sub. split; [apply wrap64_idem |].
      destruct (wrap64_ex (int_add (api.RoutesReceived neigh) (int_of_uint64 r)
                           - int_add (api.RoutesAccepted neigh) (int_of_uint64 a))) as [k3 H3].
      destruct (wrap64_ex (api.RoutesFiltered neigh
                           + wrap64 (int_add (api.RoutesReceived neigh) (int_of_uint64 r)
                                     - int_add (api.RoutesAccepted neigh) (int_of_uint64 a))))
        as [k4 H4].
      exists (k3 + k4). unfold int_add at 1. rewrite H4, H3. ring. }
    destruct HF1 as [Hw1 [k34 HF1]].
    destruct (IH neigh1 Hw1) as [Hw [k5 Hn]].
    split; [exact Hw |].
    destruct HR as [k1 HR]. destruct HA as [k2 HA].
    exists ((1 + Z.of_nat (length rest)) * (k1 - k2) + k34 + k5).
    rewrite Hn, HF1, HR, HA.
    cbn [length more.running_excess]. fold r a. rewrite Nat2Z.inj_succ. ring.
Qed.

Lemma counters_closed_form states :
  let n := fold_left count_afiSafi states
             {| api.nID := ""; api.Address := ""; api.ASN := 0; api.State := "";
                api.Description := ""; api.RouteServerID := "";
                api.RoutesReceived := 0; api.RoutesFiltered := 0;
                api.RoutesExported := 0; api.RoutesAccepted := 0;
                api.Uptime := 0 |} in
  api.RoutesReceived n = wrap64 (sum_of Received states) /\
  api.RoutesExported n = wrap64 (sum_of Advertised states) /\
  api.RoutesAccepted n = wrap64 (sum_of Accepted states) /\
  api.RoutesFiltered n = wrap64 (more.running_excess states).
Proof.
  cbv zeta.
  match goal with
  | |- context [fold_left count_afiSafi states ?n0] =>
      destruct (count_afiSafi_sums states n0 eq_refl eq_refl eq_refl) as (H1 & H2 & H3);
      destruct (count_afiSafi_filtered states n0 eq_refl) as [Hw [k Hk]]
  end.
  cbn [api.RoutesReceived api.RoutesExported api.RoutesAccepted api.RoutesFiltered]
    in H1, H2, H3, Hk.
  rewrite H1, H2, H3. repeat split.
  rewrite <- Hw, Hk, wrap64_shift. f_equal. lia.
Qed.

(** The counters of the fold do not depend on the other fields of the
    neighbor it starts from. *)
Lemma count_afiSafi_counters states n1 n2 :
  api.RoutesReceived n1 = api.RoutesReceived n2 ->
  api.RoutesExported n1 = api.RoutesExported n2 ->
  api.RoutesAccepted n1 = api.RoutesAccepted n2 ->
  api.RoutesFiltered n1 = api.RoutesFiltered n2 ->
  let m1 := fold_left count_afiSafi states n1 in
  let m2 := fold_left count_afiSafi states n2 in
  api.RoutesReceived m1 = api.RoutesReceived m2 /\
  api.RoutesExported m1 = api.RoutesExported m2 /\
  api.RoutesAccepted m1 = api.RoutesAccepted m2 /\
  api.RoutesFiltered m1 = api.RoutesFiltered m2.
Proof.
  revert n1 n2. induction states as [| f rest IH]; intros n1 n2 H1 H2 H3 H4; cbn zeta.
  - cbn. auto.
  - cbn [fold_left]. apply IH; cbn; rewrite ?H1, ?H2, ?H3, ?H4; reflexivity.
Qed.

(** The round of [Neighbors] for a message whose nested messages are
    there returns a neighbor with these counters. *)
Lemma neighbor_of_counters id m s :
  more.complete m = true ->
  exists n s' peer families,
    neighbor_of env id m s = (Ok n, s') /\
    lp_Peer m = Some peer /\
    more.states_of (AfiSafis peer) = Some families /\
    api.RoutesReceived n = wrap64 (sum_of Received families) /\
    api.RoutesExported n = wrap64 (sum_of Advertised families) /\
    api.RoutesAccepted n = wrap64 (sum_of Accepted families) /\
    api.RoutesFiltered n = wrap64 (more.running_excess families).
Proof.
  intros Hm.
  destruct (complete_inv m Hm)
    as (peer & state & conf & families & timers & timersState
        & Hp & Hst & Hc & Hfam & Ht & Hts).
  destruct (neighbor_of_run env id m peer state conf families timers timersState s
              Hp Hst Hc Hfam Ht Hts) as (n & s' & Hrun & _ & _ & Hn & _).
  exists n, s', peer, families.
  split; [exact Hrun |]. split; [exact Hp |]. split; [exact Hfam |].
  destruct (counters_closed_form families) as (H1 & H2 & H3 & H4).
  match type of Hn with
  | _ = set_Uptime _ (fold_left count_afiSafi families ?n1) =>
      match type of H1 with
      | api.RoutesReceived (fold_left count_afiSafi families ?n2) = _ =>
          destruct (count_afiSafi_counters families n1 n2 eq_refl eq_refl eq_refl eq_refl)
            as (E1 & E2 & E3 & E4)
      end
  end.
  split; [rewrite Hn; cbn [set_Uptime api.RoutesReceived]; rewrite E1; exact H1 |].
  split; [rewrite Hn; cbn [set_Uptime api.RoutesExported]; rewrite E2; exact H2 |].
  split; [rewrite Hn; cbn [set_Uptime api.RoutesAccepted]; rewrite E3; exact H3 |].
  rewrite Hn. cbn [set_Uptime api.RoutesFiltered]. rewrite E4. exact H4.
Qed.

(** The counters of a neighbor of [Neighbors]: three sums. *)
Lemma neighbor_of_sums id m s n s' :
  neighbor_of env id m s = (Ok n, s') ->
  exists peer families,
    lp_Peer m = Some peer /\
    more.states_of (AfiSafis peer) = Some families /\
    api.RoutesReceived n = wrap64 (sum_of Received families) /\
    api.RoutesExported n = wrap64 (sum_of Advertised families) /\
    api.RoutesAccepted n = wrap64 (sum_of Accepted families).
Proof.
  intros Hrun. destruct (more.complete m) eqn:Hm.
  - destruct (neighbor_of_counters id m s Hm)
      as (n1 & s1 & peer & families & Hrun1 & Hp & Hfam & H1 & H2 & H3 & _).
    rewrite Hrun in Hrun1. inversion Hrun1; subst n1 s1.
    exists peer, families. repeat split; assumption.
  - pose proof (neighbor_of_incomplete env id m s Hm) as H.
    rewrite Hrun in H. discriminate.
Qed.

(** X6. The counters of a neighbor of the gobgp source, in closed form
    (with the wrap-around of Go's [int]), for every message of the
    stream.  When the round returns a neighbor, every address family of
    the peer and its state are there; [RoutesReceived], [RoutesExported]
    and [RoutesAccepted] are the sums of the counters of the families,
    and [RoutesFiltered] is the sum, over the families, of received
    minus accepted, each family counted once for itself and once for
    every family after it; for a peer with at most one address family
    this is received minus accepted.  The round returns no error; it
    panics exactly when one of the nested messages it reads is nil. *)
Theorem X6_gobgp_counters_closed_form id (m : ListPeerResponse) (s : St) :
  match neighbor_of env id m s with
  | (Ok n, _) =>
      more.complete m = true /\
      exists peer families,
        lp_Peer m = Some peer /\
        more.states_of (AfiSafis peer) = Some families /\
        api.RoutesReceived n = wrap64 (sum_of Received families) /\
        api.RoutesExported n = wrap64 (sum_of Advertised families) /\
        api.RoutesAccepted n = wrap64 (sum_of Accepted families) /\
        api.RoutesFiltered n = wrap64 (more.running_excess families) /\
        ((length families <= 1)%nat ->
         api.RoutesFiltered n
         = wrap64 (sum_of Received families - sum_of Accepted families))
  | (Err _, _) => False
  | (Panic _, _) => more.complete m = false
  end.
Proof.
  destruct (more.complete m) eqn:Hm.
  - destruct (neighbor_of_counters id m s Hm)
      as (n & s' & peer & families & Hrun & Hp & Hfam & H1 & H2 & H3 & HF).
    rewrite Hrun. split; [reflexivity |].
    exists peer, families. split; [exact Hp |]. split; [exact Hfam |].
    split; [exact H1 |]. split; [exact H2 |]. split; [exact H3 |]. split; [exact HF |].
    intros Hlen. rewrite HF. f_equal.
    destruct families as [| f [| g rest]]; cbn in *; lia.
  - pose proof (neighbor_of_incomplete env id m s Hm) as H.
    destruct (neighbor_of env id m s) as [[n | e | p] s']; cbn in H;
      [discriminate | discriminate | reflexivity].
Qed.

End GobgpCounters.

(** ** The openbgpd source: invariants by the caches a method goes through *)

Section BgplgdBy.

Import openbgpd.

Variable env : Env.
Variable I : St -> Prop.

Hypothesis I_tick : forall s, I s -> I (tick s).
Hypothesis I_log : forall s ev,
  I s -> I (with_world {| ticks := ticks (world s); log := log (world s) ++ [ev] |} s).

Lemma keeps_NeighborsCache_Get g : keeps I (NeighborsCache_Get env g).
Proof.
  unfold NeighborsCache_Get.
  apply keeps_bind; [apply keeps_time_Now, I_tick | intros now].
  apply keeps_gets.
Qed.

Lemma keeps_uncached c : is_cached c = false -> keeps I (call env c).
Proof.
  intros Hc. destruct c; try discriminate; cbn [call]; apply keeps_mapM.
  - unfold Status.
    apply keeps_bind; [apply keeps_makeResponseMeta, I_tick | intros meta].
    apply keeps_ret.
  - unfold NeighborsStatus.
    apply keeps_bind; [apply keeps_lift | intros req].
    apply keeps_bind; [apply keeps_http_Do, I_log | intros res].
    apply keeps_bind; [apply keeps_lift | intros body].
    apply keeps_bind; [apply keeps_lift | intros nb].
    apply keeps_bind; [apply keeps_makeResponseMeta, I_tick | intros meta].
    apply keeps_ret.
  - unfold RoutesNotExported.
    apply keeps_bind; [apply keeps_makeResponseMeta, I_tick | intros meta].
    apply keeps_ret.
  - unfold AllRoutes.
    apply keeps_bind;
      [apply keeps_fetch_routes; [exact I_log | apply keeps_lift] | intros routes].
    apply keeps_bind; [apply keeps_gets | intros rc].
    apply keeps_bind; [apply keeps_makeResponseMeta, I_tick | intros meta].
    apply keeps_ret.
Qed.

Section Routes.

Variable f : RField.

Hypothesis I_Get : forall key, keeps I (RoutesCache_Get env f key).
Hypothesis I_Set : forall key v, keeps I (RoutesCache_Set env f key v).
Hypothesis I_hit : forall key r, keeps I (routes_hit f key r).

Lemma keeps_routes_method_by key : keeps I (routes_method env f key).
Proof.
  rewrite routes_method_eq.
  apply keeps_bind; [apply I_Get | intros [response |]]; [apply I_hit |].
  apply keeps_bind;
    [apply keeps_fetch_routes; [exact I_log | apply keeps_lift] | intros routes].
  apply keeps_bind; [apply keeps_gets | intros rc].
  apply keeps_bind; [apply keeps_makeResponseMeta, I_tick | intros meta].
  apply keeps_bind; [apply I_Set | intros []].
  apply keeps_ret.
Qed.

End Routes.

Lemma keeps_Neighbors_loop_by nb :
  (forall key, keeps I (routes_method env FRoutesFiltered key)) ->
  keeps I (Neighbors_loop env nb).
Proof.
  intros Hrf. induction nb as [| n rest IH]; cbn [Neighbors_loop].
  - apply keeps_ret.
  - apply keeps_bind; [apply keeps_gets | intros id].
    apply keeps_bind; [apply (Hrf _) | intros rejectedRes].
    apply keeps_bind; [exact IH | intros rest'].
    apply keeps_ret.
Qed.

Lemma keeps_neighbors_method_by g :
  (forall v, keeps I (NeighborsCache_Set env g v)) ->
  (forall r, keeps I (neighbors_hit g r)) ->
  (g = FNeighbors -> forall key, keeps I (routes_method env FRoutesFiltered key)) ->
  keeps I (neighbors_method env g).
Proof.
  intros HSet Hhit Hrf. rewrite neighbors_method_eq.
  apply keeps_bind; [apply keeps_NeighborsCache_Get | intros [response |]]; [apply Hhit |].
  apply keeps_bind; [apply keeps_fetch_neighbors, I_log | intros nb].
  apply keeps_bind; [| intros nb'].
  { destruct g; cbn [neighbors_loop].
    - apply keeps_Neighbors_loop_by, Hrf. reflexivity.
    - apply keeps_NeighborsSummary_loop. }
  apply keeps_bind; [apply keeps_makeResponseMeta, I_tick | intros meta].
  apply keeps_bind; [apply HSet | intros []].
  apply keeps_ret.
Qed.

(** An invariant that the writes to the cache [f] respect is kept by the
    operations on [f]. *)
Section Writes.

Variable f : RField.

Hypothesis I_set : forall c s, I s -> I (with_this (set_rc f c (this s)) s).

Lemma keeps_Get_of_set key : keeps I (RoutesCache_Get env f key).
Proof.
  unfold RoutesCache_Get.
  apply keeps_bind; [apply keeps_time_Now, I_tick | intros now].
  intros s Hs. destruct (caches.rc_Get now key (get_rc f (this s))) as [r c].
  apply I_set, Hs.
Qed.

Lemma keeps_Set_of_set key v : keeps I (RoutesCache_Set env f key v).
Proof.
  unfold RoutesCache_Set.
  apply keeps_bind; [apply keeps_time_Now, I_tick | intros now].
  apply hoare_modify. intros s Hs. apply I_set, Hs.
Qed.

Lemma keeps_hit_of_set key r : keeps I (routes_hit f key r).
Proof.
  unfold routes_hit. destruct (api.rr_Meta r) as [m |].
  - apply keeps_bind; [| intros []; apply keeps_ret].
    apply hoare_modify. intros s Hs. apply I_set, Hs.
  - apply hoare_panic; auto.
Qed.

Lemma keeps_routes_method_of_set key : keeps I (routes_method env f key).
Proof.
  apply keeps_routes_method_by;
    [apply keeps_Get_of_set | apply keeps_Set_of_set | apply keeps_hit_of_set].
Qed.

End Writes.

Lemma keeps_neighbors_method_of_set g :
  (forall c s, I s -> I (with_this (set_nc g c (this s)) s)) ->
  (g = FNeighbors ->
   forall c s, I s -> I (with_this (set_rc FRoutesFiltered c (this s)) s)) ->
  keeps I (neighbors_method env g).
Proof.
  intros Hnc Hrc. apply keeps_neighbors_method_by.
  - intros v. unfold NeighborsCache_Set.
    apply keeps_bind; [apply keeps_time_Now, I_tick | intros now].
    apply hoare_modify. intros s Hs. apply Hnc, Hs.
  - intros r. unfold neighbors_hit. destruct (api.nr_Meta r) as [m |].
    + apply keeps_bind; [| intros []; apply keeps_ret].
      apply hoare_modify. intros s Hs. apply Hnc, Hs.
    + apply hoare_panic; auto.
  - intros Hg key. apply keeps_routes_method_of_set. apply Hrc, Hg.
Qed.

End BgplgdBy.

Section BgplgdFrame.

Import openbgpd.

Variable env : Env.

Lemma frame_refl c src : more.frame c src src.
Proof. repeat split. Qed.

Lemma frame_set_rc c f x src0 src :
  more.writes_rc c f = true -> more.frame c src0 src -> more.frame c src0 (set_rc f x src).
Proof.
  intros Hw (Hcfg & Hnc & Hrc). split; [| split].
  - destruct f; exact Hcfg.
  - intros g Hg. rewrite get_nc_set_rc. apply Hnc, Hg.
  - intros g Hg. rewrite <- (Hrc g Hg).
    destruct f, g; try reflexivity; congruence.
Qed.

Lemma frame_set_nc c f x src0 src :
  more.writes_nc c f = true -> more.frame c src0 src -> more.frame c src0 (set_nc f x src).
Proof.
  intros Hw (Hcfg & Hnc & Hrc). split; [| split].
  - destruct f; exact Hcfg.
  - intros g Hg. rewrite <- (Hnc g Hg).
    destruct f, g; try reflexivity; congruence.
  - intros g Hg. rewrite <- (Hrc g Hg). destruct f, g; reflexivity.
Qed.

Lemma keeps_frame c src0 : keeps (fun s => more.frame c src0 (this s)) (call env c).
Proof.
  set (I := fun s => more.frame c src0 (this s)).
  assert (I_tick : forall s, I s -> I (tick s)) by (intros s H; exact H).
  assert (I_log : forall s ev,
             I s -> I (with_world {| ticks := ticks (world s);
                                     log := log (world s) ++ [ev] |} s))
    by (intros s ev H; exact H).
  assert (Hrc : forall f, more.writes_rc c f = true ->
                          forall x s, I s -> I (with_this (set_rc f x (this s)) s)).
  { intros f Hw x s Hs. apply frame_set_rc; assumption. }
  assert (Hnc : forall g, more.writes_nc c g = true ->
                          forall x s, I s -> I (with_this (set_nc g x (this s)) s)).
  { intros g Hw x s Hs. apply frame_set_nc; assumption. }
  destruct c;
    try (apply keeps_uncached; [exact I_tick | exact I_log | reflexivity]);
    cbn [call]; apply keeps_mapM.
  - apply (keeps_neighbors_method_of_set env I I_tick I_log FNeighbors).
    + apply Hnc. reflexivity.
    + intros _. apply Hrc. reflexivity.
  - apply (keeps_neighbors_method_of_set env I I_tick I_log FNeighborsSummary).
    + apply Hnc. reflexivity.
    + discriminate.
  - apply (keeps_routes_method_of_set env I I_tick I_log FRoutes). apply Hrc. reflexivity.
  - apply (keeps_routes_method_of_set env I I_tick I_log FRoutesReceived).
    apply Hrc. reflexivity.
  - apply (keeps_routes_method_of_set env I I_tick I_log FRoutesFiltered).
    apply Hrc. reflexivity.
Qed.

(** X7. What a call of the openbgpd source writes, however it ends: the
    configuration and every cache the call does not go through are as
    before.  A call goes through its own cache, [Neighbors] also through
    the cache of [RoutesFiltered]; [Status], [NeighborsStatus],
    [RoutesNotExported] and [AllRoutes] leave the source as it is. *)
Theorem X7_bgplgd_call_writes_own_cache (c : sources.Call) (s : St) :
  let src' := this (call env c s).2 in
  more.frame c (this s) src' /\
  (is_cached c = false -> src' = this s).
Proof.
  cbv zeta.
  assert (H : more.frame c (this s) (this (call env c s).2)).
  { apply (keeps_run _ _ _ (keeps_frame c (this s))). apply frame_refl. }
  split; [exact H |].
  intros Hc. destruct H as (Hcfg & Hnc & Hrc).
  assert (Hn : forall g, more.writes_nc c g = false)
    by (destruct c, g; try reflexivity; discriminate).
  assert (Hr : forall f, more.writes_rc c f = false)
    by (destruct c, f; try reflexivity; discriminate).
  pose proof (Hnc FNeighbors (Hn _)) as H1. pose proof (Hnc FNeighborsSummary (Hn _)) as H2.
  pose proof (Hrc FRoutes (Hr _)) as H3. pose proof (Hrc FRoutesReceived (Hr _)) as H4.
  pose proof (Hrc FRoutesFiltered (Hr _)) as H5.
  cbn in H1, H2, H3, H4, H5.
  destruct (this (call env c s).2), (this s). cbn in *. congruence.
Qed.

End BgplgdFrame.

(** ** The openbgpd source without caching *)

Section BgplgdDisabled.

Import openbgpd.

Variable env : Env.
Variable cf : Config.

Hypothesis Hcf : CacheTTL cf = 0.

Lemma New_get_rc f :
  get_rc f (NewBgplgdSource cf) = caches.NewRoutesCache true (RoutesCacheSize cf).
Proof. unfold NewBgplgdSource. rewrite Hcf. destruct f; reflexivity. Qed.

Lemma New_get_nc g :
  get_nc g (NewBgplgdSource cf) = caches.NewNeighborsCache true.
Proof. unfold NewBgplgdSource. rewrite Hcf. destruct g; reflexivity. Qed.

Lemma New_set_rc f :
  set_rc f (caches.NewRoutesCache true (RoutesCacheSize cf)) (NewBgplgdSource cf)
  = NewBgplgdSource cf.
Proof. rewrite <- (New_get_rc f). apply set_rc_get_rc. Qed.

Lemma New_set_nc g :
  set_nc g (caches.NewNeighborsCache true) (NewBgplgdSource cf) = NewBgplgdSource cf.
Proof. rewrite <- (New_get_nc g). destruct g; reflexivity. Qed.

Lemma disabled_Get f key :
  keeps (fun s => this s = NewBgplgdSource cf) (RoutesCache_Get env f key).
Proof.
  intros s Hs. rewrite RoutesCache_Get_run. cbn [this with_this].
  rewrite Hs, New_get_rc. cbn [caches.rc_Get caches.NewRoutesCache caches.rc_disabled snd].
  apply New_set_rc.
Qed.

Lemma disabled_Set f key v :
  keeps (fun s => this s = NewBgplgdSource cf) (RoutesCache_Set env f key v).
Proof.
  intros s Hs. cbn. rewrite Hs, New_get_rc. apply New_set_rc.
Qed.

Lemma disabled_hit f key r :
  keeps (fun s => this s = NewBgplgdSource cf) (routes_hit f key r).
Proof.
  intros s Hs. unfold routes_hit. destruct (api.rr_Meta r) as [m |]; [| exact Hs].
  cbn. rewrite Hs, New_get_rc.
  unfold caches.rc_write, caches.with_entries. cbn. rewrite alter_empty.
  apply New_set_rc.
Qed.

Lemma disabled_routes_method f key :
  keeps (fun s => this s = NewBgplgdSource cf) (routes_method env f key).
Proof.
  apply keeps_routes_method_by;
    [ intros s H; exact H | intros s ev H; exact H
    | apply disabled_Get | apply disabled_Set | apply disabled_hit ].
Qed.

Lemma disabled_neighbors_method g :
  keeps (fun s => this s = NewBgplgdSource cf) (neighbors_method env g).
Proof.
  apply keeps_neighbors_method_by.
  - intros s H; exact H.
  - intros s ev H; exact H.
  - intros v s Hs. cbn. rewrite Hs, New_get_nc. apply New_set_nc.
  - intros r s Hs. unfold neighbors_hit. destruct (api.nr_Meta r) as [m |]; [| exact Hs].
    cbn. rewrite Hs, New_get_nc. apply New_set_nc.
  - intros _ key. apply disabled_routes_method.
Qed.

Lemma disabled_call c :
  keeps (fun s => this s = NewBgplgdSource cf) (call env c).
Proof.
  destruct (is_cached c) eqn:Hc.
  - destruct c; try discriminate; cbn [call]; apply keeps_mapM.
    + apply (disabled_neighbors_method FNeighbors).
    + apply (disabled_neighbors_method FNeighborsSummary).
    + apply (disabled_routes_method FRoutes).
    + apply (disabled_routes_method FRoutesReceived).
    + apply (disabled_routes_method FRoutesFiltered).
  - apply keeps_uncached; [intros s H; exact H | intros s ev H; exact H | exact Hc].
Qed.

Lemma disabled_ExpireCaches s :
  this s = NewBgplgdSource cf ->
  (ExpireCaches env s).1 = Ok 0 /\ this (ExpireCaches env s).2 = NewBgplgdSource cf.
Proof.
  intros Hs. unfold ExpireCaches, RoutesCache_Expire, bind, time_Now.
  cbn -[caches.rc_Expire]. rewrite Hs.
  change (routesReceivedCache (NewBgplgdSource cf))
    with (get_rc FRoutesReceived (NewBgplgdSource cf)).
  rewrite New_get_rc, rc_Expire_new. cbn.
  split; [reflexivity |]. apply (New_set_rc FRoutesReceived).
Qed.

Lemma disabled_cached c s :
  this s = NewBgplgdSource cf -> cached env c s = None /\ stored c (this s) = None.
Proof.
  intros Hs. unfold cached, stored. rewrite Hs.
  pose proof (New_get_nc FNeighbors) as H1. pose proof (New_get_nc FNeighborsSummary) as H2.
  pose proof (New_get_rc FRoutes) as H3. pose proof (New_get_rc FRoutesReceived) as H4.
  pose proof (New_get_rc FRoutesFiltered) as H5.
  cbn [get_nc get_rc] in H1, H2, H3, H4, H5.
  destruct c; rewrite ?H1, ?H2, ?H3, ?H4, ?H5; split; reflexivity.
Qed.

End BgplgdDisabled.

Section BgplgdUncached.

Import openbgpd.

Variable env : Env.

Lemma cfg_call c s : cfg (this (call env c s).2) = cfg (this s).
Proof.
  assert (H : more.frame c (this s) (this (call env c s).2)).
  { apply (keeps_run _ _ _ (keeps_frame env c (this s))). apply frame_refl. }
  apply H.
Qed.

Lemma cfg_ExpireCaches s : cfg (this (ExpireCaches env s).2) = cfg (this s).
Proof.
  unfold ExpireCaches, RoutesCache_Expire, bind, time_Now. cbn -[caches.rc_Expire].
  destruct (caches.rc_Expire _ _). reflexivity.
Qed.

Lemma reachable_disabled s :
  reachable env s -> CacheTTL (cfg (this s)) = 0 ->
  this s = NewBgplgdSource (cfg (this s)).
Proof.
  induction 1 as [cf w | c s _ IH | s _ IH].
  - reflexivity.
  - rewrite cfg_call. intros H0.
    apply (keeps_run _ _ _ (disabled_call env _ H0 c)). apply IH, H0.
  - rewrite cfg_ExpireCaches. intros H0.
    apply (disabled_ExpireCaches env _ H0). apply IH, H0.
Qed.

(** X8. With [CacheTTL] zero, [NewBgplgdSource] disables the five caches,
    and the source never caches: in every state it gets into, the source
    is as [NewBgplgdSource] made it, no [Get] finds a response and no
    cache holds one, whatever calls came before; a call leaves the
    source as it is, and [ExpireCaches] returns 0. *)
Theorem X8_bgplgd_zero_ttl_never_caches (s : St) :
  reachable env s -> CacheTTL (cfg (this s)) = 0 ->
  this s = NewBgplgdSource (cfg (this s)) /\
  (forall c, cached env c s = None /\ stored c (this s) = None /\
             this (call env c s).2 = this s) /\
  (ExpireCaches env s).1 = Ok 0.
Proof.
  intros Hs H0. pose proof (reachable_disabled s Hs H0) as Hnew.
  split; [exact Hnew |]. split.
  - intros c. destruct (disabled_cached env _ H0 c s Hnew) as [H1 H2].
    split; [exact H1 |]. split; [exact H2 |].
    etransitivity; [| symmetry; exact Hnew].
    apply (keeps_run _ _ _ (disabled_call env _ H0 c)). exact Hnew.
  - apply (disabled_ExpireCaches env _ H0 s Hnew).
Qed.

End BgplgdUncached.

Lemma X8_bgplgd_zero_ttl_never_caches_witness :
  let env := examples.bgplgd.env0 in
  let s := (openbgpd.call env (sources.Routes "n1")
              (openbgpd.call env sources.Neighbors examples.bgplgd.s_uncached).2).2 in
  openbgpd.reachable env s /\
  openbgpd.CacheTTL (openbgpd.cfg (openbgpd.this s)) = 0 /\
  openbgpd.this s = openbgpd.NewBgplgdSource examples.bgplgd.cfg_uncached /\
  openbgpd.cached env (sources.Routes "n1") s = None.
Proof.
  cbv zeta.
  assert (Hs : openbgpd.reachable examples.bgplgd.env0
                 (openbgpd.call examples.bgplgd.env0 (sources.Routes "n1")
                    (openbgpd.call examples.bgplgd.env0 sources.Neighbors
                       examples.bgplgd.s_uncached).2).2).
  { apply openbgpd.reachable_call, openbgpd.reachable_call.
    apply (openbgpd.reachable_new examples.bgplgd.env0 examples.bgplgd.cfg_uncached
             examples.w0). }
  assert (H0 : openbgpd.CacheTTL
                 (openbgpd.cfg
                    (openbgpd.this
                       (openbgpd.call examples.bgplgd.env0 (sources.Routes "n1")
                          (openbgpd.call examples.bgplgd.env0 sources.Neighbors
                             examples.bgplgd.s_uncached).2).2)) = 0)
    by (vm_compute; reflexivity).
  split; [exact Hs |]. split; [exact H0 |].
  destruct (X8_bgplgd_zero_ttl_never_caches examples.bgplgd.env0 _ Hs H0) as (Hnew & Hc & _).
  split.
  - rewrite Hnew. reflexivity.
  - apply (Hc (sources.Routes "n1")).
Defined.

(** ** The openbgpd source does not panic *)

Section Calm.

Context {S : Type}.

Lemma never_bind {A B} (c : M S A) (k : A -> M S B) :
  (forall s, more.panics (c s).1 = false) ->
  (forall a s, more.panics (k a s).1 = false) ->
  forall s, more.panics (bind c k s).1 = false.
Proof.
  intros Hc Hk s. unfold bind. specialize (Hc s).
  destruct (c s) as [[a | e | r] s1]; [apply Hk | reflexivity | exact Hc].
Qed.

Lemma never_lift {A} (r : error + A) (s : S) : more.panics (lift r s).1 = false.
Proof. destruct r; reflexivity. Qed.

Lemma calm_never {A} (I : S -> Prop) (c : M S A) :
  (forall s, more.panics (c s).1 = false) -> more.calm I c.
Proof. intros H s _. apply H. Qed.

Lemma calm_bind {A B} (P : S -> Prop) (c : M S A) (k : A -> M S B) Q1 E :
  hoare P c Q1 E -> more.calm P c -> (forall a, more.calm (Q1 a) (k a)) ->
  more.calm P (bind c k).
Proof.
  intros Hh Hc Hk s Hs. specialize (Hh s Hs). specialize (Hc s Hs). unfold bind.
  destruct (c s) as [[a | e | r] s1]; [apply (Hk a), Hh | reflexivity | exact Hc].
Qed.

Lemma calm_mapM {A B} (I : S -> Prop) (f : A -> B) (c : M S A) :
  more.calm I c -> more.calm I (mapM f c).
Proof.
  intros Hc s Hs. specialize (Hc s Hs). unfold mapM, bind.
  destruct (c s) as [[a | e | r] s1]; [reflexivity | reflexivity | exact Hc].
Qed.

End Calm.

Section BgplgdCalm.

Import openbgpd.

Variable env : Env.

Lemma never_http_Do req s : more.panics (http_Do env req s).1 = false.
Proof. unfold http_Do. destruct (Do env (world s) req); reflexivity. Qed.

Lemma never_fetch {A} (rq : error + Request) (decode : JSON -> error + A) s :
  more.panics
    ((req <- lift rq ;;
      res <- http_Do env req ;;
      body <- lift (ReadJSONResponse env res) ;;
      lift (decode body)) s).1 = false.
Proof.
  revert s. apply never_bind; [apply never_lift | intros req].
  apply never_bind; [apply never_http_Do | intros res].
  apply never_bind; [apply never_lift | intros body].
  apply never_lift.
Qed.

Lemma never_routes_miss f key rq s :
  more.panics
    ((routes <- fetch_routes env (lift rq) ;;
      rejectCommunities <- gets (fun s => RejectCommunities (cfg (this s))) ;;
      meta <- makeResponseMeta env ;;
      let response := routes_response f rejectCommunities routes meta in
      RoutesCache_Set env f key response ;;;
      ret response) s).1 = false.
Proof.
  revert s. apply never_bind; [apply never_fetch | intros routes s]. reflexivity.
Qed.

Lemma calm_routes_method f key : more.calm wf_state (routes_method env f key).
Proof.
  intros s Hwf. rewrite routes_method_eq. unfold bind at 1.
  rewrite RoutesCache_Get_run.
  destruct (caches.rc_Get (clock env (ticks (world s))) key (get_rc f (this s))).1
    as [r |] eqn:Hget.
  - assert (Hok : shape f r = true).
    { eapply rc_all_holds; [apply wf_get_rc, Hwf | eapply rc_Get_value, Hget]. }
    unfold routes_hit.
    destruct (api.rr_Meta r) as [m |] eqn:Hm; [reflexivity |].
    destruct f; unfold shape, routes_ok, received_ok, filtered_ok in Hok;
      rewrite Hm in Hok; discriminate.
  - apply never_routes_miss.
Qed.

Lemma calm_Neighbors_loop nb : more.calm wf_state (Neighbors_loop env nb).
Proof.
  induction nb as [| n rest IH]; cbn [Neighbors_loop].
  - apply calm_never. reflexivity.
  - eapply calm_bind; [apply keeps_gets | apply calm_never; reflexivity | intros id].
    eapply calm_bind with (Q1 := fun _ => wf_state);
      [| apply (calm_routes_method FRoutesFiltered) | intros rejectedRes].
    { eapply keeps_weaken; [apply (wf_routes_method env FRoutesFiltered) |].
      intros a s [Hs _]. exact Hs. }
    eapply calm_bind;
      [apply wf_Neighbors_loop | exact IH | intros rest'; apply calm_never; reflexivity].
Qed.

Lemma never_NeighborsSummary_loop nb s :
  more.panics (NeighborsSummary_loop nb s).1 = false.
Proof.
  revert s. induction nb as [| n rest IH]; intros s; cbn [NeighborsSummary_loop].
  - reflexivity.
  - revert s. apply never_bind; [reflexivity | intros id].
    apply never_bind; [exact IH | reflexivity].
Qed.

Lemma calm_neighbors_method g : more.calm wf_state (neighbors_method env g).
Proof.
  intros s Hwf. rewrite neighbors_method_eq. unfold bind at 1.
  rewrite NeighborsCache_Get_run.
  destruct (caches.nc_Get (clock env (ticks (world s))) (get_nc g (this s)))
    as [r |] eqn:Hget.
  - assert (Hok : neighbors_ok r = true).
    { eapply nc_all_holds; [apply wf_get_nc, Hwf | eapply nc_Get_value, Hget]. }
    unfold neighbors_hit, neighbors_ok in *.
    destruct (api.nr_Meta r) as [m |]; [reflexivity | discriminate].
  - assert (Hrest : more.calm wf_state
              (nb <- fetch_neighbors env ;;
               nb <- neighbors_loop env g nb ;;
               meta <- makeResponseMeta env ;;
               let response := {| api.nr_Meta := Some meta; api.Neighbors := nb |} in
               NeighborsCache_Set env g response ;;;
               ret response)).
    { eapply calm_bind;
        [apply keeps_fetch_neighbors, wf_log
        | apply calm_never; intros s0; apply never_fetch | intros nb].
      eapply calm_bind; [apply wf_neighbors_loop | | intros nb'].
      - destruct g; cbn [neighbors_loop];
          [apply calm_Neighbors_loop | apply calm_never, never_NeighborsSummary_loop].
      - apply calm_never. reflexivity. }
    apply Hrest. apply wf_tick, Hwf.
Qed.

Lemma calm_call c : more.calm wf_state (call env c).
Proof.
  destruct c; cbn [call]; apply calm_mapM.
  - apply calm_never. reflexivity.
  - apply (calm_neighbors_method FNeighbors).
  - apply (calm_neighbors_method FNeighborsSummary).
  - apply calm_never. intros s. apply never_bind; [apply never_lift | intros req].
    apply never_bind; [apply never_http_Do | intros res].
    apply never_bind; [apply never_lift | intros body].
    apply never_bind; [apply never_lift | reflexivity].
  - apply (calm_routes_method FRoutes).
  - apply (calm_routes_method FRoutesReceived).
  - apply (calm_routes_method FRoutesFiltered).
  - apply calm_never. reflexivity.
  - apply calm_never. intros s.
    apply never_bind; [intros s0; apply never_fetch | reflexivity].
Qed.

Lemma never_ExpireCaches s : more.panics (ExpireCaches env s).1 = false.
Proof.
  unfold ExpireCaches, RoutesCache_Expire, bind, time_Now. cbn -[caches.rc_Expire].
  destruct (caches.rc_Expire _ _). reflexivity.
Qed.

(** X9. The openbgpd source does not panic.  In every state the source
    gets into, every call of the interface returns a response or an
    error, and so does [ExpireCaches]: the cached responses all have
    their envelope, so that [response.Meta.ResultFromCache = true] on a
    hit never meets a nil [Meta]. *)
Theorem X9_bgplgd_never_panics (s : St) :
  reachable env s ->
  (forall c, more.panics (call env c s).1 = false) /\
  more.panics (ExpireCaches env s).1 = false.
Proof.
  intros Hs. split.
  - intros c. apply calm_call. apply (reachable_wf env), Hs.
  - apply never_ExpireCaches.
Qed.

End BgplgdCalm.

Lemma X9_bgplgd_never_panics_witness :
  let env := examples.bgplgd.env_n2_down in
  let s := (openbgpd.call env sources.Neighbors examples.bgplgd.s0).2 in
  openbgpd.reachable env s /\
  more.panics (openbgpd.call env (sources.RoutesFiltered "n1") s).1 = false /\
  more.panics (openbgpd.call env (sources.RoutesFiltered "n2") s).1 = false.
Proof.
  cbv zeta.
  assert (Hs : openbgpd.reachable examples.bgplgd.env_n2_down
                 (openbgpd.call examples.bgplgd.env_n2_down sources.Neighbors
                    examples.bgplgd.s0).2).
  { apply openbgpd.reachable_call.
    apply (openbgpd.reachable_new examples.bgplgd.env_n2_down examples.bgplgd.cfg0
             examples.w0). }
  split; [exact Hs |].
  destruct (X9_bgplgd_never_panics examples.bgplgd.env_n2_down _ Hs) as [H _].
  split; apply H.
Defined.

(** ** The openbgpd source: what a miss does *)

Section BgplgdMisses.

Import openbgpd.

Variable env : Env.

Lemma mapM_Err_inv {S A B} (f : A -> B) (c : M S A) s e s' :
  mapM f c s = (Err e, s') -> c s = (Err e, s').
Proof.
  unfold mapM, bind. destruct (c s) as [[a | e0 | r] s1]; cbn; intros H;
    [discriminate | inversion H; reflexivity | discriminate].
Qed.

Lemma set_rc_set_rc f x y src : set_rc f x (set_rc f y src) = set_rc f x src.
Proof. destruct f; reflexivity. Qed.

(** The request, sent and decoded: one event at most, and nothing else
    changes. *)
Lemma fetch_state {A} (rq : error + Request) (decode : JSON -> error + A) s :
  let s' := ((req <- lift rq ;;
              res <- http_Do env req ;;
              body <- lift (ReadJSONResponse env res) ;;
              lift (decode body)) s).2 in
  this s' = this s /\ ticks (world s') = ticks (world s) /\
  exists evs, log (world s') = log (world s) ++ evs /\ (length evs <= 1)%nat.
Proof.
  cbv zeta. destruct rq as [e | req]; cbn [lift].
  - cbn. split; [reflexivity | split; [reflexivity |]].
    exists []. rewrite app_nil_r. split; [reflexivity | cbn; lia].
  - unfold bind, ret, http_Do.
    destruct (Do env (world s) req) as [e | res]; cbn;
      [| destruct (ReadJSONResponse env res) as [e | body]; cbn;
         [| destruct (decode body) as [e | a]; cbn]];
      (split; [reflexivity | split; [reflexivity |]]);
      exists [EvHttpGet (URL req)]; (split; [reflexivity | cbn; lia]).
Qed.

Lemma NeighborsSummary_loop_run nb s :
  NeighborsSummary_loop nb s
  = (Ok (map (set_RouteServerID (cfg_ID (cfg (this s)))) nb), s).
Proof.
  induction nb as [| n rest IH]; cbn [NeighborsSummary_loop map].
  - reflexivity.
  - unfold bind, gets. rewrite IH. reflexivity.
Qed.

Lemma routes_method_cfg f key s :
  cfg (this (routes_method env f key s).2) = cfg (this s).
Proof.
  apply (keeps_run (fun st => cfg (this st) = cfg (this s))); [| reflexivity].
  apply keeps_routes_method_of_set.
  - intros st H; exact H.
  - intros st ev H; exact H.
  - intros c st H. destruct f; exact H.
Qed.

Lemma routes_method_log f key s :
  exists evs,
    log (world (routes_method env f key s).2) = log (world s) ++ evs /\
    (length evs <= 1)%nat.
Proof.
  rewrite routes_method_eq. unfold bind at 1. rewrite RoutesCache_Get_run.
  destruct (caches.rc_Get (clock env (ticks (world s))) key (get_rc f (this s))).1
    as [r |].
  - exists []. rewrite app_nil_r. split; [| cbn; lia].
    unfold routes_hit. destruct (api.rr_Meta r); reflexivity.
  - match goal with
    | |- context [bind (fetch_routes env ?rq) ?k ?st] =>
        destruct (fetch_state (NewRequestWithContext env http_MethodGet
                                 (APIURL env "/rib?neighbor=%s" [key]))
                    (decodeRoutes env) st) as (_ & _ & evs & Hlog & Hlen);
        exists evs; split; [| exact Hlen];
        unfold bind at 1;
        change (fetch_routes env rq st)
          with ((req <- lift (NewRequestWithContext env http_MethodGet
                                (APIURL env "/rib?neighbor=%s" [key])) ;;
                 res <- http_Do env req ;;
                 body <- lift (ReadJSONResponse env res) ;;
                 lift (decodeRoutes env body)) st) in *;
        destruct ((req <- lift (NewRequestWithContext env http_MethodGet
                                  (APIURL env "/rib?neighbor=%s" [key])) ;;
                   res <- http_Do env req ;;
                   body <- lift (ReadJSONResponse env res) ;;
                   lift (decodeRoutes env body)) st) as [[routes | e | p] s1]
    end; cbn in *; exact Hlog.
Qed.

Lemma Neighbors_loop_log nb s :
  exists evs,
    log (world (Neighbors_loop env nb s).2) = log (world s) ++ evs /\
    (length evs <= length nb)%nat.
Proof.
  revert s. induction nb as [| n rest IH]; intros s.
  - exists []. rewrite app_nil_r. split; [reflexivity | cbn; lia].
  - rewrite Neighbors_loop_cons. unfold gets at 1. unfold bind at 1.
    destruct (routes_method_log FRoutesFiltered (api.nID n) s) as (evs1 & H1 & L1).
    cbn [routes_method] in H1. unfold bind at 1.
    destruct (RoutesFiltered env (api.nID n) s) as [[rr | e | p] s1];
      cbn [snd] in H1; [| exists evs1; split; [exact H1 | cbn; lia] ..].
    destruct (IH s1) as (evs2 & H2 & L2). unfold bind.
    destruct (Neighbors_loop env rest s1) as [[rest' | e | p] s2]; cbn [snd] in H2;
      cbn [ret snd]; exists (evs1 ++ evs2); rewrite H2, H1, <- app_assoc;
      (split; [reflexivity | rewrite length_app; cbn [length]; lia]).
Qed.

Lemma Neighbors_loop_enriched nb s nb' s' :
  Neighbors_loop env nb s = (Ok nb', s') ->
  more.enriched env (cfg_ID (cfg (this s))) s nb nb' s'.
Proof.
  revert s nb'. induction nb as [| n rest IH]; intros s nb' H.
  - cbn in H. inversion H. constructor.
  - rewrite Neighbors_loop_cons in H.
    apply bind_Ok_inv in H as (id & sa & Hid & H).
    cbn in Hid. inversion Hid; subst; clear Hid.
    apply bind_Ok_inv in H as (rr & sb & Hrf & H).
    apply bind_Ok_inv in H as (rest' & sc & Hrest & H).
    cbn in H. inversion H; subst; clear H.
    change (api.nID (set_RouteServerID (cfg_ID (cfg (this sa))) n)) with (api.nID n) in Hrf.
    apply (more.enriched_cons env _ sa n rest rr sb rest' s' Hrf).
    pose proof (routes_method_cfg FRoutesFiltered (api.nID n) sa) as Hcfg.
    cbn [routes_method] in Hcfg. rewrite Hrf in Hcfg. cbn [snd] in Hcfg.
    rewrite <- Hcfg. apply IH, Hrest.
Qed.

Lemma enriched_length id s nb nb' s' :
  more.enriched env id s nb nb' s' -> length nb' = length nb.
Proof. induction 1; cbn; congruence. Qed.

End BgplgdMisses.

Section BgplgdNeighbors.

Import openbgpd.

Variable env : Env.

Lemma neighbors_method_miss_run g s :
  caches.nc_Get (clock env (ticks (world s))) (get_nc g (this s)) = None ->
  neighbors_method env g s
  = (nb <- fetch_neighbors env ;;
     nb <- neighbors_loop env g nb ;;
     meta <- makeResponseMeta env ;;
     let response := {| api.nr_Meta := Some meta; api.Neighbors := nb |} in
     NeighborsCache_Set env g response ;;;
     ret response) (tick s).
Proof.
  intros Hget. rewrite neighbors_method_eq.
  erewrite bind_run_Ok by apply NeighborsCache_Get_run.
  rewrite Hget. reflexivity.
Qed.

Lemma fetch_neighbors_never s : more.panics (fetch_neighbors env s).1 = false.
Proof.
  apply (never_fetch env (NewRequestWithContext env http_MethodGet
                            (APIURL env "/neighbors" [])) (decodeNeighbors env) s).
Qed.

Lemma fetch_neighbors_this s : this (fetch_neighbors env s).2 = this s.
Proof.
  apply (fetch_state env (NewRequestWithContext env http_MethodGet
                            (APIURL env "/neighbors" [])) (decodeNeighbors env) s).
Qed.

(** X10. [NeighborsSummary] of the openbgpd source on a miss.  It asks
    the backend for [/neighbors], the request of [Neighbors], and its
    outcome is the outcome of that request: when the neighbors are
    decoded, the call succeeds, with one request sent; the response
    lists the decoded neighbors in order, with [RouteServerID] set to
    the ID of the configuration and everything else as decoded
    ([RoutesFiltered] is not computed), and the routes caches are as
    before.  When the request fails the call returns its error and
    leaves the source as it is. *)
Theorem X10_bgplgd_NeighborsSummary_miss (s : St) :
  cached env sources.NeighborsSummary s = None ->
  match fetch_neighbors env (tick s) with
  | (Ok nb, _) =>
      exists req r s',
        NewRequestWithContext env "GET" (APIURL env "/neighbors" []) = inr req /\
        NeighborsSummary env s = (Ok r, s') /\
        api.Neighbors r = map (set_RouteServerID (cfg_ID (cfg (this s)))) nb /\
        log (world s') = log (world s) ++ [EvHttpGet (URL req)] /\
        forall f, get_rc f (this s') = get_rc f (this s)
  | (Err e, _) =>
      exists s', NeighborsSummary env s = (Err e, s') /\ this s' = this s
  | (Panic _, _) => False
  end.
Proof.
  intros Hc. cbn [cached] in Hc.
  assert (Hget : caches.nc_Get (clock env (ticks (world s)))
                   (get_nc FNeighborsSummary (this s)) = None).
  { cbn [get_nc]. destruct (caches.nc_Get _ _); [discriminate | reflexivity]. }
  pose proof (neighbors_method_miss_run FNeighborsSummary s Hget) as Hrun.
  cbn [neighbors_method neighbors_loop] in Hrun.
  pose proof (fetch_neighbors_never (tick s)) as Hnever.
  pose proof (fetch_neighbors_this (tick s)) as Hthis.
  destruct (fetch_neighbors env (tick s)) as [[nb | e | p] s1] eqn:Hf.
  - pose proof Hf as Hf'. apply fetch_Ok_inv in Hf' as (req & Hreq & ->).
    rewrite (bind_run_Ok _ _ _ _ _ Hf) in Hrun.
    rewrite (bind_run_Ok _ _ _ _ _ (NeighborsSummary_loop_run _ _)) in Hrun.
    cbn in Hrun.
    exists req. do 2 eexists. split; [exact Hreq |]. split; [exact Hrun |].
    cbn. split; [reflexivity |]. split; [reflexivity |].
    intros f. destruct f; reflexivity.
  - rewrite (bind_run_Err _ _ _ _ _ Hf) in Hrun.
    exists s1. split; [exact Hrun | exact Hthis].
  - cbn in Hnever. discriminate.
Qed.

(** X11. [Neighbors] of the openbgpd source on a miss that succeeds.
    The neighbors were asked for and decoded, and the response lists
    what the loop made of them, round by round from the state the
    request left: the round of a neighbor calls [RoutesFiltered] for its
    ID in the state the round before left, and the neighbor of the
    response is the decoded one with [RouteServerID] set to the ID of
    the configuration and [RoutesFiltered] set to the number of routes
    that very call returned as filtered.  The response has as many
    neighbors as were decoded, in their order.  After the request for
    the neighbors, the loop sent at most one request for each
    neighbor, and nothing is sent after the loop. *)
Theorem X11_bgplgd_Neighbors_miss (s : St) r s' :
  cached env sources.Neighbors s = None ->
  Neighbors env s = (Ok r, s') ->
  exists req nb s1 s2 evs,
    NewRequestWithContext env "GET" (APIURL env "/neighbors" []) = inr req /\
    fetch_neighbors env (tick s) = (Ok nb, s1) /\
    more.enriched env (cfg_ID (cfg (this s))) s1 nb (api.Neighbors r) s2 /\
    length (api.Neighbors r) = length nb /\
    log (world s2) = log (world s') /\
    log (world s') = log (world s) ++ EvHttpGet (URL req) :: evs /\
    (length evs <= length nb)%nat.
Proof.
  intros Hc H. cbn [cached] in Hc.
  assert (Hget : caches.nc_Get (clock env (ticks (world s)))
                   (get_nc FNeighbors (this s)) = None).
  { cbn [get_nc]. destruct (caches.nc_Get _ _); [discriminate | reflexivity]. }
  pose proof (neighbors_method_miss_run FNeighbors s Hget) as Hrun.
  cbn [neighbors_method neighbors_loop] in Hrun. rewrite H in Hrun. symmetry in Hrun.
  apply bind_Ok_inv in Hrun as (nb & s1 & Hf & Hrun).
  pose proof Hf as Hf'. apply fetch_Ok_inv in Hf' as (req & Hreq & Hs1).
  apply bind_Ok_inv in Hrun as (nb' & s2 & Hloop & Hrun).
  cbn in Hrun. inversion Hrun; subst r s'; clear Hrun.
  destruct (Neighbors_loop_log env nb s1) as (evs & Hlog & Hlen).
  rewrite Hloop in Hlog. cbn [snd] in Hlog.
  assert (Hen : more.enriched env (cfg_ID (cfg (this s))) s1 nb nb' s2).
  { apply Neighbors_loop_enriched in Hloop. rewrite Hs1 in Hloop. cbn in Hloop.
    rewrite Hs1. exact Hloop. }
  exists req, nb, s1, s2, evs. split; [exact Hreq |]. split; [exact Hf |].
  split; [exact Hen |]. split; [exact (enriched_length env _ _ _ _ _ Hen) |].
  split; [reflexivity |]. split; [| exact Hlen].
  cbn. rewrite Hlog, Hs1. cbn. rewrite <- app_assoc. reflexivity.
Qed.

Lemma routes_method_Err f key s e s' :
  routes_method env f key s = (Err e, s') -> this s' = this s.
Proof.
  intros H. rewrite routes_method_eq in H. unfold bind at 1 in H.
  rewrite RoutesCache_Get_run in H.
  destruct (caches.rc_Get (clock env (ticks (world s))) key (get_rc f (this s))).1
    as [r |] eqn:Hget.
  - unfold routes_hit in H. destruct (api.rr_Meta r); cbn in H; discriminate.
  - rewrite (rc_Get_miss _ _ _ Hget), set_rc_get_rc in H.
    match type of H with
    | bind (fetch_routes env ?rq) ?k ?st = _ =>
        pose proof (fetch_state env (NewRequestWithContext env http_MethodGet
                                       (APIURL env "/rib?neighbor=%s" [key]))
                      (decodeRoutes env) st) as (Hthis & _);
        change ((req <- lift (NewRequestWithContext env http_MethodGet
                                (APIURL env "/rib?neighbor=%s" [key])) ;;
                 res <- http_Do env req ;;
                 body <- lift (ReadJSONResponse env res) ;;
                 lift (decodeRoutes env body)) st)
          with (fetch_routes env rq st) in Hthis;
        unfold bind at 1 in H;
        destruct (fetch_routes env rq st) as [[routes | e0 | p] s1]
    end.
    + cbn in H. discriminate.
    + inversion H; subst. exact Hthis.
    + discriminate.
Qed.

Lemma neighbors_method_Err g s e s' :
  neighbors_method env g s = (Err e, s') ->
  (g = FNeighborsSummary -> this s' = this s) /\
  exists rfc, this s' = set_rc FRoutesFiltered rfc (this s).
Proof.
  intros H. rewrite neighbors_method_eq in H. unfold bind at 1 in H.
  rewrite NeighborsCache_Get_run in H.
  destruct (caches.nc_Get (clock env (ticks (world s))) (get_nc g (this s))) as [r |].
  - unfold neighbors_hit in H. destruct (api.nr_Meta r); cbn in H; discriminate.
  - pose proof (fetch_neighbors_this (tick s)) as Hthis.
    unfold bind at 1 in H.
    destruct (fetch_neighbors env (tick s)) as [[nb | e0 | p] s1]; [| | discriminate].
    + cbn [snd] in Hthis. unfold bind at 1 in H.
      destruct g; cbn [neighbors_loop] in H.
      * set (I := fun st : St => exists rfc, this st = set_rc FRoutesFiltered rfc (this s)).
        assert (HI : I (Neighbors_loop env nb s1).2).
        { apply keeps_run.
          - apply keeps_Neighbors_loop_by. intros key.
            apply keeps_routes_method_of_set.
            + intros st Hst; exact Hst.
            + intros st ev Hst; exact Hst.
            + intros c st [rfc Hst]. exists c. cbn. rewrite Hst. reflexivity.
          - exists (routesFilteredCache (this s)). rewrite Hthis.
            symmetry. apply (set_rc_get_rc FRoutesFiltered). }
        destruct (Neighbors_loop env nb s1) as [[nb' | e1 | p] s2];
          [cbn in H; discriminate | | discriminate].
        inversion H; subst. split; [discriminate | exact HI].
      * rewrite NeighborsSummary_loop_run in H. cbn in H. discriminate.
    + inversion H; subst. cbn [snd] in Hthis. split; [intros _; exact Hthis |].
      exists (routesFilteredCache (this s)). rewrite Hthis.
      symmetry. apply (set_rc_get_rc FRoutesFiltered).
Qed.

(** X12. The openbgpd source caches no error.  A call that returns an
    error leaves the source as it was, whatever the backend answered:
    nothing is stored, nothing is removed, and no entry is touched.
    The one exception is [Neighbors], whose loop calls [RoutesFiltered]:
    when it fails, [routesFilteredCache] may hold the responses of the
    rounds that succeeded, and everything else is as before. *)
Theorem X12_bgplgd_errors_not_cached (c : sources.Call) (s : St) e s' :
  call env c s = (Err e, s') ->
  (c <> sources.Neighbors -> this s' = this s) /\
  exists rfc, this s' = set_rc FRoutesFiltered rfc (this s).
Proof.
  intros H.
  assert (Hsame : this s' = this s ->
                  exists rfc, this s' = set_rc FRoutesFiltered rfc (this s)).
  { intros Hs. exists (routesFilteredCache (this s)). rewrite Hs.
    symmetry. apply (set_rc_get_rc FRoutesFiltered). }
  destruct (is_cached c) eqn:Hc.
  - destruct c; try discriminate; cbn [call] in H; apply mapM_Err_inv in H.
    + destruct (neighbors_method_Err FNeighbors s e s' H) as [_ Hrfc].
      split; [intros Hne; contradiction Hne; reflexivity | exact Hrfc].
    + destruct (neighbors_method_Err FNeighborsSummary s e s' H) as [Hs _].
      split; [intros _; apply Hs; reflexivity | apply Hsame, Hs; reflexivity].
    + pose proof (routes_method_Err FRoutes _ s e s' H) as Hs.
      split; [intros _; exact Hs | apply Hsame, Hs].
    + pose proof (routes_method_Err FRoutesReceived _ s e s' H) as Hs.
      split; [intros _; exact Hs | apply Hsame, Hs].
    + pose proof (routes_method_Err FRoutesFiltered _ s e s' H) as Hs.
      split; [intros _; exact Hs | apply Hsame, Hs].
  - assert (Hs : this s' = this s).
    { pose proof (keeps_run (fun st => this st = this s) (call env c) s
                    (keeps_uncached env (fun st => this st = this s)
                       (fun st H => H) (fun st ev H => H) c Hc)
                    eq_refl) as Hk.
      rewrite H in Hk. exact Hk. }
    split; [intros _; exact Hs | apply Hsame, Hs].
Qed.

End BgplgdNeighbors.

Lemma X10_bgplgd_NeighborsSummary_miss_witness :
  let env := examples.bgplgd.env0 in
  let s := examples.bgplgd.s0 in
  openbgpd.cached env sources.NeighborsSummary s = None /\
  exists r s',
    openbgpd.NeighborsSummary env s = (Ok r, s') /\
    map api.RouteServerID (api.Neighbors r) = ["rs1"; "rs1"] /\
    map api.RoutesFiltered (api.Neighbors r) = [0; 0] /\
    log (openbgpd.world s') = [EvHttpGet "http://bgplgd/neighbors"].
Proof.
  cbv zeta. split; [reflexivity |].
  pose proof (X10_bgplgd_NeighborsSummary_miss examples.bgplgd.env0 examples.bgplgd.s0
                eq_refl) as H.
  destruct (openbgpd.fetch_neighbors examples.bgplgd.env0
              (openbgpd.tick examples.bgplgd.s0)) as [[nb | e | p] s1] eqn:Hf;
    [| vm_compute in Hf; discriminate | contradiction].
  destruct H as (req & r & s' & Hreq & Hrun & Hnb & Hlog & _).
  exists r, s'. split; [exact Hrun |].
  vm_compute in Hf. inversion Hf; subst nb.
  vm_compute in Hreq. inversion Hreq; subst req.
  rewrite Hnb, Hlog. repeat split.
Defined.

Lemma X11_bgplgd_Neighbors_miss_witness :
  let env := examples.bgplgd.env0 in
  let s := examples.bgplgd.s0 in
  openbgpd.cached env sources.Neighbors s = None /\
  exists r s' nb s1 s2 evs,
    openbgpd.Neighbors env s = (Ok r, s') /\
    more.enriched env "rs1" s1 nb (api.Neighbors r) s2 /\
    map api.RoutesFiltered (api.Neighbors r) = [1; 1] /\
    log (openbgpd.world s') = EvHttpGet "http://bgplgd/neighbors" :: evs /\
    (length evs <= length nb)%nat.
Proof.
  cbv zeta. split; [reflexivity |].
  destruct (openbgpd.Neighbors examples.bgplgd.env0 examples.bgplgd.s0)
    as [[r | e | p] s'] eqn:Hrun;
    [| vm_compute in Hrun; discriminate | vm_compute in Hrun; discriminate].
  destruct (X11_bgplgd_Neighbors_miss examples.bgplgd.env0 examples.bgplgd.s0 r s'
              eq_refl Hrun)
    as (req & nb & s1 & s2 & evs & Hreq & _ & Hnb & _ & _ & Hlog & Hlen).
  exists r, s', nb, s1, s2, evs. split; [reflexivity |]. split; [exact Hnb |].
  split; [| split; [| exact Hlen]].
  - vm_compute in Hrun. inversion Hrun. reflexivity.
  - vm_compute in Hreq. inversion Hreq; subst req. exact Hlog.
Defined.

Lemma X12_bgplgd_errors_not_cached_witness :
  let env := examples.bgplgd.env_n2_down in
  let s := examples.bgplgd.s_routes in
  exists e s',
    openbgpd.call env (sources.RoutesFiltered "n2") s = (Err e, s') /\
    openbgpd.this s' = openbgpd.this s.
Proof.
  cbv zeta.
  destruct (openbgpd.call examples.bgplgd.env_n2_down (sources.RoutesFiltered "n2")
              examples.bgplgd.s_routes) as [[r | e | p] s'] eqn:Hrun;
    [vm_compute in Hrun; discriminate | | vm_compute in Hrun; discriminate].
  exists e, s'. split; [reflexivity |].
  apply (X12_bgplgd_errors_not_cached examples.bgplgd.env_n2_down _ _ e s' Hrun).
  discriminate.
Defined.

Section BgplgdRoutes.

Import openbgpd.

Variable env : Env.

Lemma routes_method_miss_run f key s :
  (caches.rc_Get (clock env (ticks (world s))) key (get_rc f (this s))).1 = None ->
  routes_method env f key s
  = (routes <- fetch_routes env (ShowNeighborRIBRequest env key) ;;
     rejectCommunities <- gets (fun s => RejectCommunities (cfg (this s))) ;;
     meta <- makeResponseMeta env ;;
     let response := routes_response f rejectCommunities routes meta in
     RoutesCache_Set env f key response ;;;
     ret response) (tick s).
Proof.
  intros Hget. rewrite routes_method_eq.
  erewrite bind_run_Ok by apply RoutesCache_Get_run.
  rewrite Hget, (rc_Get_miss _ _ _ Hget), set_rc_get_rc. reflexivity.
Qed.

Lemma fetch_routes_never rq s : more.panics (fetch_routes env (lift rq) s).1 = false.
Proof. apply (never_fetch env rq (decodeRoutes env) s). Qed.

Lemma fetch_routes_this rq s : this (fetch_routes env (lift rq) s).2 = this s.
Proof. apply (fetch_state env rq (decodeRoutes env) s). Qed.

(** X13. [Routes], [RoutesReceived] and [RoutesFiltered] of the openbgpd
    source on a miss.  The three send the same request, for the RIB of
    the neighbor, and the outcome of the call is the outcome of that
    request.  When the routes are decoded the call succeeds, with one
    request sent, and the three classify the same list with the reject
    communities of the configuration: [Imported] of [Routes] and of
    [RoutesReceived] is [filterReceivedRoutes] of the decoded routes,
    [Filtered] of [Routes] and of [RoutesFiltered] is
    [filterRejectedRoutes] of them, and [NotExported] is empty.  When the
    request fails the call returns its error and leaves the source as it
    is. *)
Theorem X13_bgplgd_routes_miss (f : RField) (key : string) (s : St) :
  (caches.rc_Get (clock env (ticks (world s))) key (get_rc f (this s))).1 = None ->
  let policy := RejectCommunities (cfg (this s)) in
  match fetch_routes env (ShowNeighborRIBRequest env key) (tick s) with
  | (Ok routes, _) =>
      exists req r s',
        NewRequestWithContext env "GET" (APIURL env "/rib?neighbor=%s" [key]) = inr req /\
        routes_method env f key s = (Ok r, s') /\
        api.Imported r
        = match f with
          | FRoutesFiltered => make_slice []
          | _ => filterReceivedRoutes policy routes
          end /\
        api.Filtered r
        = match f with
          | FRoutesReceived => make_slice []
          | _ => filterRejectedRoutes policy routes
          end /\
        api.NotExported r = make_slice [] /\
        log (world s') = log (world s) ++ [EvHttpGet (URL req)]
  | (Err e, _) =>
      exists s', routes_method env f key s = (Err e, s') /\ this s' = this s
  | (Panic _, _) => False
  end.
Proof.
  intros Hget policy.
  pose proof (routes_method_miss_run f key s Hget) as Hrun.
  pose proof (fetch_routes_never
                (NewRequestWithContext env http_MethodGet
                   (APIURL env "/rib?neighbor=%s" [key])) (tick s)) as Hnever.
  pose proof (fetch_routes_this
                (NewRequestWithContext env http_MethodGet
                   (APIURL env "/rib?neighbor=%s" [key])) (tick s)) as Hthis.
  change (lift (NewRequestWithContext env http_MethodGet
                  (APIURL env "/rib?neighbor=%s" [key])))
    with (ShowNeighborRIBRequest env key) in Hnever, Hthis.
  destruct (fetch_routes env (ShowNeighborRIBRequest env key) (tick s))
    as [[routes | e | p] s1] eqn:Hf.
  - pose proof Hf as Hf'. apply fetch_Ok_inv in Hf' as (req & Hreq & ->).
    rewrite (bind_run_Ok _ _ _ _ _ Hf) in Hrun. cbn in Hrun.
    exists req. do 2 eexists. split; [exact Hreq |]. split; [exact Hrun |].
    subst policy. destruct f; cbn; repeat split.
  - rewrite (bind_run_Err _ _ _ _ _ Hf) in Hrun.
    exists s1. split; [exact Hrun | exact Hthis].
  - cbn in Hnever. discriminate.
Qed.

End BgplgdRoutes.

Lemma X13_bgplgd_routes_miss_witness :
  let env := examples.bgplgd.env0 in
  let s := examples.bgplgd.s0 in
  (caches.rc_Get (openbgpd.clock env (ticks (openbgpd.world s))) "n1"
     (openbgpd.get_rc openbgpd.FRoutes (openbgpd.this s))).1 = None /\
  exists r s',
    openbgpd.Routes env "n1" s = (Ok r, s') /\
    elems (api.Imported r) = [examples.route_a] /\
    elems (api.Filtered r) = [examples.route_b] /\
    log (openbgpd.world s') = [EvHttpGet "http://bgplgd/rib?neighbor=n1"].
Proof.
  cbv zeta. split; [reflexivity |].
  pose proof (X13_bgplgd_routes_miss examples.bgplgd.env0 openbgpd.FRoutes "n1"
                examples.bgplgd.s0 eq_refl) as H.
  cbv zeta in H.
  destruct (openbgpd.fetch_routes examples.bgplgd.env0
              (openbgpd.ShowNeighborRIBRequest examples.bgplgd.env0 "n1")
              (openbgpd.tick examples.bgplgd.s0)) as [[routes | e | p] s1] eqn:Hf;
    [| vm_compute in Hf; discriminate | contradiction].
  destruct H as (req & r & s' & Hreq & Hrun & Himp & Hfil & _ & Hlog).
  exists r, s'. split; [exact Hrun |].
  vm_compute in Hf. inversion Hf; subst routes.
  vm_compute in Hreq. inversion Hreq; subst req.
  rewrite Himp, Hfil, Hlog. repeat split.
Defined.

(** ** The openbgpd source: the envelope of a new response *)

Section BgplgdEnvelope.

Import openbgpd.

Variable env : Env.
Variable cf : Config.
Variable t0 : nat.

Hypothesis clock_mono : forall i j, (i <= j)%nat -> clock env i <= clock env j.

Lemma started_tick s : more.started cf t0 s -> more.started cf t0 (tick s).
Proof. intros [H1 H2]. split; [exact H1 | cbn; lia]. Qed.

Lemma started_log s ev :
  more.started cf t0 s ->
  more.started cf t0
    (with_world {| ticks := ticks (world s); log := log (world s) ++ [ev] |} s).
Proof. intros H; exact H. Qed.

Lemma started_set_rc f c s :
  more.started cf t0 s -> more.started cf t0 (with_this (set_rc f c (this s)) s).
Proof. intros [H1 H2]. split; [destruct f; exact H1 | exact H2]. Qed.

Lemma started_set_nc g c s :
  more.started cf t0 s -> more.started cf t0 (with_this (set_nc g c (this s)) s).
Proof. intros [H1 H2]. split; [destruct g; exact H1 | exact H2]. Qed.

Lemma makeResponseMeta_fresh :
  hoare (more.started cf t0) (makeResponseMeta env)
    (fun m st => more.started cf t0 st /\ more.fresh_envelope env t0 (CacheTTL cf) m)
    (more.started cf t0).
Proof.
  intros s [Hc Ht]. rewrite makeResponseMeta_run. split.
  - split; [exact Hc | cbn; lia].
  - unfold more.fresh_envelope. cbn. rewrite Hc. unfold time_Add.
    pose proof (clock_mono t0 (ticks (world s)) Ht).
    pose proof (clock_mono (ticks (world s)) (S (ticks (world s))) (Nat.le_succ_diag_r _)).
    repeat split; lia.
Qed.

Lemma fresh_routes_miss f key :
  hoare (more.started cf t0)
    (routes <- fetch_routes env (ShowNeighborRIBRequest env key) ;;
     rejectCommunities <- gets (fun s => RejectCommunities (cfg (this s))) ;;
     meta <- makeResponseMeta env ;;
     let response := routes_response f rejectCommunities routes meta in
     RoutesCache_Set env f key response ;;;
     ret response)
    (more.fresh env t0 (CacheTTL cf) api.rr_Meta) (more.started cf t0).
Proof.
  eapply hoare_bind;
    [apply keeps_fetch_routes; [apply started_log | apply keeps_lift] | intros routes].
  eapply hoare_bind; [apply keeps_gets | intros rc].
  eapply hoare_bind; [apply makeResponseMeta_fresh | intros meta].
  apply hoare_assume. intros Hm.
  eapply hoare_bind;
    [apply keeps_RoutesCache_Set; [apply started_tick | apply started_set_rc] | intros []].
  apply hoare_ret. intros s _. exists meta.
  split; [apply rr_Meta_routes_response | exact Hm].
Qed.

Lemma started_neighbors_loop g nb : keeps (more.started cf t0) (neighbors_loop env g nb).
Proof.
  apply keeps_neighbors_loop; [apply started_tick | apply started_log | apply started_set_rc].
Qed.

Lemma fresh_neighbors_miss g :
  hoare (more.started cf t0)
    (nb <- fetch_neighbors env ;;
     nb <- neighbors_loop env g nb ;;
     meta <- makeResponseMeta env ;;
     let response := {| api.nr_Meta := Some meta; api.Neighbors := nb |} in
     NeighborsCache_Set env g response ;;;
     ret response)
    (more.fresh env t0 (CacheTTL cf) api.nr_Meta) (more.started cf t0).
Proof.
  eapply hoare_bind; [apply keeps_fetch_neighbors, started_log | intros nb].
  eapply hoare_bind; [apply started_neighbors_loop | intros nb'].
  eapply hoare_bind; [apply makeResponseMeta_fresh | intros meta].
  apply hoare_assume. intros Hm.
  eapply hoare_bind with (Q1 := fun _ => (more.started cf t0)); [| intros []].
  - unfold NeighborsCache_Set.
    apply keeps_bind; [apply keeps_time_Now, started_tick | intros now].
    apply hoare_modify. intros s Hs. apply started_set_nc, Hs.
  - apply hoare_ret. intros s _. exists meta. split; [reflexivity | exact Hm].
Qed.

Lemma fresh_uncached c :
  is_cached c = false ->
  hoare (more.started cf t0) (call env c)
    (more.fresh env t0 (CacheTTL cf) sources.meta_of) (more.started cf t0).
Proof.
  intros Hc. destruct c; try discriminate; cbn [call]; unfold mapM.
  - unfold Status.
    eapply hoare_bind with (Q1 := more.fresh env t0 (CacheTTL cf) api.st_Meta);
      [| intros r; apply hoare_ret; intros s H; exact H].
    eapply hoare_bind; [apply makeResponseMeta_fresh | intros meta].
    apply hoare_ret. intros s [_ Hm]. exists meta. split; [reflexivity | exact Hm].
  - unfold NeighborsStatus.
    eapply hoare_bind with (Q1 := more.fresh env t0 (CacheTTL cf) api.ns_Meta);
      [| intros r; apply hoare_ret; intros s H; exact H].
    eapply hoare_bind; [apply keeps_lift | intros req].
    eapply hoare_bind; [apply keeps_http_Do, started_log | intros res].
    eapply hoare_bind; [apply keeps_lift | intros body].
    eapply hoare_bind; [apply keeps_lift | intros nb].
    eapply hoare_bind; [apply makeResponseMeta_fresh | intros meta].
    apply hoare_ret. intros s [_ Hm]. exists meta. split; [reflexivity | exact Hm].
  - unfold RoutesNotExported.
    eapply hoare_bind with (Q1 := more.fresh env t0 (CacheTTL cf) api.rr_Meta);
      [| intros r; apply hoare_ret; intros s H; exact H].
    eapply hoare_bind; [apply makeResponseMeta_fresh | intros meta].
    apply hoare_ret. intros s [_ Hm]. exists meta. split; [reflexivity | exact Hm].
  - unfold AllRoutes.
    eapply hoare_bind with (Q1 := more.fresh env t0 (CacheTTL cf) api.rr_Meta);
      [| intros r; apply hoare_ret; intros s H; exact H].
    eapply hoare_bind;
      [apply keeps_fetch_routes; [apply started_log | apply keeps_lift] | intros routes].
    eapply hoare_bind; [apply keeps_gets | intros rc].
    eapply hoare_bind; [apply makeResponseMeta_fresh | intros meta].
    apply hoare_ret. intros s [_ Hm]. exists meta. split; [reflexivity | exact Hm].
Qed.

Lemma fresh_call c s r s' :
  cfg (this s) = cf -> ticks (world s) = t0 ->
  cached env c s = None -> call env c s = (Ok r, s') ->
  exists m, sources.meta_of r = Some m /\ more.fresh_envelope env t0 (CacheTTL cf) m.
Proof.
  intros Hcf Ht Hc H.
  assert (Hs : more.started cf t0 s) by (split; [exact Hcf | lia]).
  destruct (is_cached c) eqn:Hk.
  - destruct c; try discriminate; cbn [call cached] in H, Hc;
      apply mapM_Ok_inv in H as (r0 & H & ->); cbn [sources.meta_of].
    + change (Neighbors env) with (neighbors_method env FNeighbors) in H.
      rewrite neighbors_method_miss_run in H
        by (cbn [get_nc]; destruct (caches.nc_Get _ _); [discriminate | reflexivity]).
      apply (hoare_Ok _ _ _ _ _ _ _ (fresh_neighbors_miss FNeighbors) (started_tick s Hs) H).
    + change (NeighborsSummary env) with (neighbors_method env FNeighborsSummary) in H.
      rewrite neighbors_method_miss_run in H
        by (cbn [get_nc]; destruct (caches.nc_Get _ _); [discriminate | reflexivity]).
      apply (hoare_Ok _ _ _ _ _ _ _ (fresh_neighbors_miss FNeighborsSummary)
               (started_tick s Hs) H).
    + change (Routes env neighborID) with (routes_method env FRoutes neighborID) in H.
      rewrite routes_method_miss_run in H
        by (cbn [get_rc]; destruct (caches.rc_Get _ _ _).1; [discriminate | reflexivity]).
      apply (hoare_Ok _ _ _ _ _ _ _ (fresh_routes_miss FRoutes neighborID)
               (started_tick s Hs) H).
    + change (RoutesReceived env neighborID)
        with (routes_method env FRoutesReceived neighborID) in H.
      rewrite routes_method_miss_run in H
        by (cbn [get_rc]; destruct (caches.rc_Get _ _ _).1; [discriminate | reflexivity]).
      apply (hoare_Ok _ _ _ _ _ _ _ (fresh_routes_miss FRoutesReceived neighborID)
               (started_tick s Hs) H).
    + change (RoutesFiltered env neighborID)
        with (routes_method env FRoutesFiltered neighborID) in H.
      rewrite routes_method_miss_run in H
        by (cbn [get_rc]; destruct (caches.rc_Get _ _ _).1; [discriminate | reflexivity]).
      apply (hoare_Ok _ _ _ _ _ _ _ (fresh_routes_miss FRoutesFiltered neighborID)
               (started_tick s Hs) H).
  - apply (hoare_Ok _ _ _ _ _ _ _ (fresh_uncached c Hk) Hs H).
Qed.

End BgplgdEnvelope.

Section BgplgdEnvelopeOfCall.

Import openbgpd.

Variable env : Env.

(** X14. The envelope of a response the openbgpd source builds.  With a
    clock that does not run backwards, a call that succeeds without a hit (a miss, or one of the
    calls that have no cache) returns a response whose envelope has the
    version of the source, [ResultFromCache] false, [CachedAt] not
    before the call started, and [TTL] at least [CacheTTL] after
    [CachedAt]: [makeResponseMeta] reads the clock once for [CachedAt]
    and once more for [TTL]. *)
Theorem X14_bgplgd_fresh_envelope (c : sources.Call) (s : St) r s' :
  (forall i j, (i <= j)%nat -> clock env i <= clock env j) ->
  cached env c s = None ->
  call env c s = (Ok r, s') ->
  exists m,
    sources.meta_of r = Some m /\
    api.Version m = BgplgdSourceVersion /\
    api.ResultFromCache m = false /\
    clock env (ticks (world s)) <= api.CachedAt m /\
    api.CachedAt m + CacheTTL (cfg (this s)) <= api.TTL m.
Proof.
  intros Hmono Hc H.
  apply (fresh_call env (cfg (this s)) (ticks (world s)) Hmono c s r s'
           eq_refl eq_refl Hc H).
Qed.

End BgplgdEnvelopeOfCall.

Lemma X14_bgplgd_fresh_envelope_witness :
  let env := examples.bgplgd.env0 in
  let s := examples.bgplgd.s0 in
  (forall i j, (i <= j)%nat -> openbgpd.clock env i <= openbgpd.clock env j) /\
  openbgpd.cached env (sources.Routes "n1") s = None /\
  exists r s' m,
    openbgpd.call env (sources.Routes "n1") s = (Ok r, s') /\
    sources.meta_of r = Some m /\
    api.CachedAt m + 5 * examples.second <= api.TTL m.
Proof.
  cbv zeta.
  assert (Hmono : forall i j, (i <= j)%nat ->
                    openbgpd.clock examples.bgplgd.env0 i
                    <= openbgpd.clock examples.bgplgd.env0 j).
  { intros i j H. cbn. unfold examples.clock0, examples.second. lia. }
  split; [exact Hmono |]. split; [reflexivity |].
  destruct (openbgpd.call examples.bgplgd.env0 (sources.Routes "n1") examples.bgplgd.s0)
    as [[r | e | p] s'] eqn:Hrun;
    [| vm_compute in Hrun; discriminate | vm_compute in Hrun; discriminate].
  destruct (X14_bgplgd_fresh_envelope examples.bgplgd.env0 (sources.Routes "n1")
              examples.bgplgd.s0 r s' Hmono eq_refl Hrun) as (m & Hm & _ & _ & _ & Httl).
  exists r, s', m. split; [reflexivity |]. split; [exact Hm | exact Httl].
Defined.

(** ** The openbgpd source: a hit writes through the cached pointer *)

Section BgplgdHits.

Import openbgpd.

Variable env : Env.

Lemma rc_write_holds now key v v' (c : caches.RoutesCache) :
  (caches.rc_Get now key c).1 = Some v ->
  caches.rc_holds (caches.rc_write key v' (caches.rc_Get now key c).2) key = Some v'.
Proof.
  unfold caches.rc_Get. destruct (caches.rc_disabled c); [discriminate |].
  destruct (caches.rc_entries c !! key) as [e |]; [| discriminate].
  destruct (caches.expired now (caches.entry e)); [discriminate |].
  intros _. unfold caches.rc_holds, caches.rc_write. cbn.
  rewrite lookup_alter_eq, lookup_insert_eq. reflexivity.
Qed.

Lemma nc_write_holds now v v' (c : caches.NeighborsCache) :
  caches.nc_Get now c = Some v ->
  caches.nc_holds (caches.nc_write v' c) = Some v'.
Proof.
  unfold caches.nc_Get. destruct (caches.nc_disabled c); [discriminate |].
  unfold caches.nc_holds, caches.nc_write. cbn.
  destruct (caches.nc_slot c) as [e |]; [| discriminate]. reflexivity.
Qed.

Lemma routes_hit_stores f key s r m :
  (caches.rc_Get (clock env (ticks (world s))) key (get_rc f (this s))).1 = Some r ->
  api.rr_Meta r = Some m ->
  caches.rc_holds (get_rc f (this (routes_method env f key s).2)) key
  = Some {| api.rr_Meta := Some (api.set_ResultFromCache true m);
            api.Imported := api.Imported r;
            api.Filtered := api.Filtered r;
            api.NotExported := api.NotExported r |}.
Proof.
  intros Hget Hm. rewrite routes_method_eq.
  erewrite bind_run_Ok by apply RoutesCache_Get_run.
  rewrite Hget. unfold routes_hit. rewrite Hm. cbn.
  rewrite !get_rc_set_rc. eapply rc_write_holds, Hget.
Qed.

Lemma neighbors_hit_stores g s r m :
  caches.nc_Get (clock env (ticks (world s))) (get_nc g (this s)) = Some r ->
  api.nr_Meta r = Some m ->
  caches.nc_holds (get_nc g (this (neighbors_method env g s).2))
  = Some {| api.nr_Meta := Some (api.set_ResultFromCache true m);
            api.Neighbors := api.Neighbors r |}.
Proof.
  intros Hget Hm. rewrite neighbors_method_eq.
  erewrite bind_run_Ok by apply NeighborsCache_Get_run.
  rewrite Hget. unfold neighbors_hit. rewrite Hm. cbn.
  rewrite get_nc_set_nc. eapply nc_write_holds, Hget.
Qed.

Lemma mapM_state {S A B} (f : A -> B) (c : M S A) s : (mapM f c s).2 = (c s).2.
Proof. unfold mapM, bind. destruct (c s) as [[a | e | p] s1]; reflexivity. Qed.

Lemma flagged_idem v : flagged (flagged v) = flagged v.
Proof.
  destruct v as [r | r | r | r]; cbn; try reflexivity.
  - destruct (api.nr_Meta r); reflexivity.
  - destruct (api.rr_Meta r); reflexivity.
Qed.

(** X15. A hit of the openbgpd source writes through the pointer the
    cache handed out: [response.Meta.ResultFromCache = true] changes the
    cached response itself.  In every state the source gets into, after
    a call that is served from its cache the cache holds the response
    with [ResultFromCache] set, which is the response the call returned;
    setting the flag again changes nothing. *)
Theorem X15_bgplgd_hit_flags_cached_value (c : sources.Call) (s : St) v :
  reachable env s ->
  cached env c s = Some v ->
  (call env c s).1 = Ok (flagged v) /\
  stored c (this (call env c s).2) = Some (flagged v) /\
  flagged (flagged v) = flagged v.
Proof.
  intros Hs Hc. pose proof (reachable_wf env s Hs) as Hwf.
  split; [| split; [| apply flagged_idem]].
  { destruct (call_hit env c s v Hwf Hc) as (m & s' & Hrun & _). rewrite Hrun. reflexivity. }
  destruct c; cbn [cached] in Hc; try discriminate; cbn [call stored];
    rewrite mapM_state.
  - destruct (caches.nc_Get _ _) as [r |] eqn:Hget; inversion Hc; subst v.
    destruct (neighbors_call_hit env FNeighbors s r Hwf Hget) as (m & _ & _ & _ & Hm).
    pose proof (neighbors_hit_stores FNeighbors s r m Hget Hm) as Hst.
    cbn [get_nc get_rc neighbors_method routes_method] in Hst.
    rewrite Hst. cbn. rewrite Hm. reflexivity.
  - destruct (caches.nc_Get _ _) as [r |] eqn:Hget; inversion Hc; subst v.
    destruct (neighbors_call_hit env FNeighborsSummary s r Hwf Hget) as (m & _ & _ & _ & Hm).
    pose proof (neighbors_hit_stores FNeighborsSummary s r m Hget Hm) as Hst.
    cbn [get_nc get_rc neighbors_method routes_method] in Hst.
    rewrite Hst. cbn. rewrite Hm. reflexivity.
  - destruct (caches.rc_Get _ _ _).1 as [r |] eqn:Hget; inversion Hc; subst v.
    destruct (routes_call_hit env FRoutes neighborID s r Hwf Hget) as (m & _ & _ & _ & Hm).
    pose proof (routes_hit_stores FRoutes neighborID s r m Hget Hm) as Hst.
    cbn [get_nc get_rc neighbors_method routes_method] in Hst.
    rewrite Hst. cbn. rewrite Hm. reflexivity.
  - destruct (caches.rc_Get _ _ _).1 as [r |] eqn:Hget; inversion Hc; subst v.
    destruct (routes_call_hit env FRoutesReceived neighborID s r Hwf Hget)
      as (m & _ & _ & _ & Hm).
    pose proof (routes_hit_stores FRoutesReceived neighborID s r m Hget Hm) as Hst.
    cbn [get_nc get_rc neighbors_method routes_method] in Hst.
    rewrite Hst. cbn. rewrite Hm. reflexivity.
  - destruct (caches.rc_Get _ _ _).1 as [r |] eqn:Hget; inversion Hc; subst v.
    destruct (routes_call_hit env FRoutesFiltered neighborID s r Hwf Hget)
      as (m & _ & _ & _ & Hm).
    pose proof (routes_hit_stores FRoutesFiltered neighborID s r m Hget Hm) as Hst.
    cbn [get_nc get_rc neighbors_method routes_method] in Hst.
    rewrite Hst. cbn. rewrite Hm. reflexivity.
Qed.

End BgplgdHits.

Lemma X15_bgplgd_hit_flags_cached_value_witness :
  let env := examples.bgplgd.env0 in
  let c := sources.Routes "n1" in
  let s := (openbgpd.call env c examples.bgplgd.s0).2 in
  openbgpd.reachable env s /\
  exists v m,
    openbgpd.cached env c s = Some v /\
    sources.meta_of v = Some m /\ api.ResultFromCache m = false /\
    openbgpd.stored c (openbgpd.this s) = Some v /\
    openbgpd.stored c (openbgpd.this (openbgpd.call env c s).2)
    = Some (openbgpd.flagged v).
Proof.
  cbv zeta.
  assert (Hs : openbgpd.reachable examples.bgplgd.env0
                 (openbgpd.call examples.bgplgd.env0 (sources.Routes "n1")
                    examples.bgplgd.s0).2).
  { apply openbgpd.reachable_call.
    apply (openbgpd.reachable_new examples.bgplgd.env0 examples.bgplgd.cfg0 examples.w0). }
  split; [exact Hs |].
  destruct (openbgpd.cached examples.bgplgd.env0 (sources.Routes "n1")
              (openbgpd.call examples.bgplgd.env0 (sources.Routes "n1")
                 examples.bgplgd.s0).2) as [v |] eqn:Hc;
    [| vm_compute in Hc; discriminate].
  destruct (X15_bgplgd_hit_flags_cached_value examples.bgplgd.env0 (sources.Routes "n1")
              _ v Hs Hc) as (_ & Hst & _).
  assert (Hv : exists m, sources.meta_of v = Some m /\ api.ResultFromCache m = false /\
                 openbgpd.stored (sources.Routes "n1")
                   (openbgpd.this
                      (openbgpd.call examples.bgplgd.env0 (sources.Routes "n1")
                         examples.bgplgd.s0).2) = Some v).
  { vm_compute in Hc. inversion Hc; subst v. eexists. vm_compute. repeat split. }
  destruct Hv as (m & Hm & Hfl & Hold).
  exists v, m. split; [reflexivity |]. split; [exact Hm |]. split; [exact Hfl |].
  split; [exact Hold | exact Hst].
Defined.
